(** * RECALL: a shallow embedding of the online log-anomaly core

    The development follows the layout of the Python package [recall].
    The first half embeds the code, one module per source file:

    - [Text]            : [recall/text.py]
    - [Regex]           : the fragment of Python's [re] that the package uses
    - [Float]           : comparisons, [ceil] and [round] on floats
    - [Config]          : [recall/config.py]
    - [Recurrence]      : [recall/recurrence.py]
    - [Trigger]         : [recall/trigger.py]
    - [EntityExtraction]: [recall/entity_extraction.py]
    - [Graph]           : [recall/dynamic_graph.py]
    - [PyList]          : slices and [sorted]
    - [Retrieval]       : [recall/retrieval.py]
    - [Packaging]       : [recall/packaging.py]
    - [Pipeline]        : [recall/pipeline.py]
    - [Metrics]         : [recall/metrics.py]
    - [Data]            : the loader of [recall/data.py]

    The second half states and proves the properties:

    - [TextFacts]       : masking a message twice (C3)
    - [ConfigFacts]     : the default pattern of [token_drop_regex] (C4)
    - [TriggerFacts]    : the burst detector and the severity trigger (C9, C10)
    - [Scenario]        : the end-to-end scenario S1 (C1)
    - [PackagingFacts]  : the edges of the GraphPack (C2)
    - [RetrievalFacts]  : bounds, order and dedup of the evidence (C6, C7)
    - [BlacklistFacts]  : the blacklist in the outputs (C8)
    - [ChainFacts]      : the chain of resident logs (C5)
    - [IncidenceFacts]  : the blacklist in the graph and in the pack
    - [TextMore]        : normalisation, tokens and complexity (X1-X4)
    - [RecurrenceFacts] : the recurrence counter and the burst detector (X5, X6)
    - [MetricsFacts]    : the counts and the ratios (X7-X9)
    - [TriggerMore]     : the severity trigger and the severity level (X10)
    - [ExtractionFacts] : where the entities come from (X11-X13)
    - [ResidentFacts]   : what a [tick] keeps (X14, X15)
    - [WindowFacts]     : the window after a [tick] (X16)
    - [SymmetryFacts]   : the two incidence maps (X17)
    - [DecayFacts]      : the decay of the edge weights (X18)
    - [DataFacts]       : the loader (X20, X21)
    - [PipelineFacts]   : [process] answers every record (X22)
    - [RunFacts]        : the pipeline on the records of the loader (X23)
    - [PackagingMore]   : the identifiers of a pack (X24-X26)
    - [RetrievalMore]   : the paths of the evidence (X27, X28)

    Conventions of the embedding.

    - A Python [str] is a [list ascii]; the character classes ([isspace],
      [isalnum], [\w], [\d], [lower]) are the ASCII ones, so the model
      agrees with Python on 7-bit text.
    - A Python [int] is a [Z].
    - A Python [float] is idealised as a real number [R]; [math.log],
      [math.exp], [math.sqrt] are [ln], [exp], [sqrt].  Rounding, overflow
      and NaN are outside the model.
    - A [dict] is a [gmap], a [set] is a [gset], a [deque] is a [list] with
      its head on the left.  Iterating a Python set has an unspecified
      order; the model iterates [elements], and no proof depends on the
      order that [elements] picks.
    - Objects of the package that carry state ([TokenRecurrenceCounter],
      [TemplateBurstDetector], [DynamicLogEntityGraph]) are records, and
      their methods take the record and return the new one. *)

From Stdlib Require Import ZArith List Ascii String Reals Lra Lia Bool Sorted Permutation.
From stdpp Require Import gmap strings list fin_maps pretty.

Local Open Scope Z_scope.
Local Open Scope list_scope.

(** Python [str]. *)
Abbreviation str := (list ascii).

(** A string literal. *)
Definition lit (s : string) : str := list_ascii_of_string s.

(* ===================================================================== *)
(** * recall/text.py *)
(* ===================================================================== *)

Module Text.

(** ** Character classes (ASCII) *)

Definition code (c : ascii) : nat := nat_of_ascii c.

Definition in_range (lo hi : nat) (c : ascii) : bool :=
  (Nat.leb lo (code c)) && (Nat.leb (code c) hi).

(** [str.isspace] and the regex class [\s]: TAB, LF, VT, FF, CR, the four
    separators FS, GS, RS, US, and the space. *)
Definition is_space (c : ascii) : bool :=
  in_range 9 13 c || in_range 28 32 c.

(** [str.isdigit] and the regex class [\d]. *)
Definition is_digit (c : ascii) : bool := in_range 48 57 c.

Definition is_upper (c : ascii) : bool := in_range 65 90 c.
Definition is_lower (c : ascii) : bool := in_range 97 122 c.

(** [str.isalpha]. *)
Definition is_alpha (c : ascii) : bool := is_upper c || is_lower c.

(** [str.isalnum]. *)
Definition is_alnum (c : ascii) : bool := is_alpha c || is_digit c.

(** The regex class [\w]. *)
Definition is_word (c : ascii) : bool :=
  is_alnum c || Nat.eqb (code c) 95.

(** The regex class [[0-9a-f]]. *)
Definition is_hex (c : ascii) : bool := is_digit c || in_range 97 102 c.

(** [str.lower] on one character. *)
Definition lower_char (c : ascii) : ascii :=
  if is_upper c then ascii_of_nat (code c + 32) else c.

(** [str.lower]. *)
Definition lower (s : str) : str := map lower_char s.

(** ** Stripping and whitespace *)

Fixpoint lstrip (s : str) : str :=
  match s with
  | [] => []
  | c :: s' => if is_space c then lstrip s' else s
  end.

Fixpoint rstrip (s : str) : str :=
  match s with
  | [] => []
  | c :: s' =>
      match rstrip s' with
      | [] => if is_space c then [] else [c]
      | t => c :: t
      end
  end.

(** [str.strip()]. *)
Definition strip (s : str) : str := rstrip (lstrip s).

(** [_WS.sub(' ', s)] with [_WS = re.compile('\s+')]: every maximal run of
    whitespace becomes one space.  [in_ws] tells that the previous
    character belonged to a run that has been replaced already. *)
Fixpoint ws_sub (in_ws : bool) (s : str) : str :=
  match s with
  | [] => []
  | c :: s' =>
      if is_space c
      then (if in_ws then ws_sub true s' else " "%char :: ws_sub true s')
      else c :: ws_sub false s'
  end.

(** [normalize_message_for_dedup]. *)
Definition normalize_message_for_dedup (msg : str) (case_insensitive : bool) : str :=
  let s := strip msg in
  let s := if case_insensitive then lower s else s in
  ws_sub false s.

(** ** Substitution of whole words

    Both patterns of [mask_for_template_key] have the shape [\bW\b] where
    [W] matches word characters only.  A match therefore starts where a
    run of word characters starts and ends where it ends: it is a maximal
    run of word characters, and [re.sub], which scans from the left for
    matches that do not overlap, rewrites exactly the maximal runs that
    [W] matches as a whole.

    [runs_aux f s] walks [s] from the right and returns the run of word
    characters that [s] starts with, not yet rewritten, and the rewritten
    remainder. *)
Fixpoint runs_aux (f : str -> str) (s : str) : str * str :=
  match s with
  | [] => ([], [])
  | c :: s' =>
      let '(r, out) := runs_aux f s' in
      if is_word c then (c :: r, out) else ([], c :: f r ++ out)
  end.

Definition sub_runs (f : str -> str) (s : str) : str :=
  let '(r, out) := runs_aux f s in f r ++ out.

(** The run matches [0x[0-9a-f]+]. *)
Definition hex_match (r : str) : bool :=
  match r with
  | "0"%char :: "x"%char :: d :: ds => forallb is_hex (d :: ds)
  | _ => false
  end.

(** The run matches [\d+]. *)
Definition num_match (r : str) : bool :=
  match r with
  | [] => false
  | _ => forallb is_digit r
  end.

Definition HEX : str := lit "<HEX>".
Definition NUM : str := lit "<NUM>".

Definition hex_rewrite (r : str) : str := if hex_match r then HEX else r.
Definition num_rewrite (r : str) : str := if num_match r then NUM else r.

(** [re.sub('\b0x[0-9a-f]+\b', '<HEX>', s)]. *)
Definition sub_hex (s : str) : str := sub_runs hex_rewrite s.

(** [re.sub('\b\d+\b', '<NUM>', s)]. *)
Definition sub_num (s : str) : str := sub_runs num_rewrite s.

(** [mask_for_template_key]. *)
Definition mask_for_template_key (msg : str) : str :=
  let s := lower (strip msg) in
  let s := sub_hex s in
  let s := sub_num s in
  ws_sub false s.

(** ** Tokens *)

(** The characters that [tokenize_for_entity_candidates] keeps at the ends
    of a token. *)
Definition is_edge_char (c : ascii) : bool :=
  is_alnum c ||
  existsb (fun d => Ascii.eqb c d)
    ["/"%char; "."%char; "_"%char; "-"%char; ":"%char].

(** [_WS.split(s)]: the pieces between the whitespace runs, the empty
    pieces at the ends included (the caller drops them).  [cur] is the
    piece being read, reversed. *)
Fixpoint ws_split_aux (in_ws : bool) (cur : str) (s : str) : list str :=
  match s with
  | [] => [rev cur]
  | c :: s' =>
      if is_space c
      then (if in_ws then ws_split_aux true cur s'
            else rev cur :: ws_split_aux true [] s')
      else ws_split_aux false (c :: cur) s'
  end.

Definition ws_split (s : str) : list str := ws_split_aux false [] s.

(** The first [while] loop of the tokenizer, on the reversed token. *)
Fixpoint trim_edge (t : str) : str :=
  match t with
  | [] => []
  | c :: t' => if is_edge_char c then t else trim_edge t'
  end.

Definition trim_token (t : str) : str :=
  trim_edge (rev (trim_edge (rev t))).

Definition nonempty (t : str) : bool :=
  match t with [] => false | _ => true end.

(** [tokenize_for_entity_candidates]. *)
Definition tokenize_for_entity_candidates (msg : str) : list str :=
  match msg with
  | [] => []
  | _ =>
      filter (fun t => nonempty t = true)
        (map trim_token
           (filter (fun t => nonempty t = true) (ws_split (strip msg))))
  end.

(** The class of a character in [token_complexity]. *)
Definition char_type (case_sensitive : bool) (c : ascii) : Z :=
  if is_digit c then 0
  else if is_alpha c then (if case_sensitive && is_upper c then 3 else 1)
  else 2.

Fixpoint transitions (case_sensitive : bool) (last : Z) (s : str) : Z :=
  match s with
  | [] => 0
  | c :: s' =>
      let cur := char_type case_sensitive c in
      (if Z.eqb cur last then 0 else 1) + transitions case_sensitive cur s'
  end.

(** [token_complexity]. *)
Definition token_complexity (token : str) (case_sensitive : bool) : Z :=
  match token with
  | [] => 0
  | [_] => 0
  | c :: rest => transitions case_sensitive (char_type case_sensitive c) rest
  end.

(** [unique_tokens]. *)
Definition unique_tokens (tokens : list str) : gset str :=
  list_to_set (filter (fun t => nonempty t = true) tokens).

Fixpoint take_while (p : ascii -> bool) (s : str) : str :=
  match s with
  | [] => []
  | c :: s' => if p c then c :: take_while p s' else []
  end.

(** Python's [a in b] on strings. *)
Fixpoint prefix_of (a b : str) : bool :=
  match a, b with
  | [], _ => true
  | _ :: _, [] => false
  | x :: a', y :: b' => Ascii.eqb x y && prefix_of a' b'
  end.

Fixpoint contains (a b : str) : bool :=
  prefix_of a b ||
  match b with
  | [] => false
  | _ :: b' => contains a b'
  end.

End Text.

(* ===================================================================== *)
(** * Python's [re], as far as the package uses it *)
(* ===================================================================== *)

Module Regex.
Import Text.

(** Regular expressions over characters.  [Cls p] is a character class. *)
Inductive re : Type :=
  | Void : re
  | Eps : re
  | Cls (p : ascii -> bool) : re
  | Cat (a b : re) : re
  | Alt (a b : re) : re
  | Star (a : re) : re.

Fixpoint nullable (r : re) : bool :=
  match r with
  | Void => false
  | Eps => true
  | Cls _ => false
  | Cat a b => nullable a && nullable b
  | Alt a b => nullable a || nullable b
  | Star _ => true
  end.

(** The derivative of [r] by the character [c]. *)
Fixpoint deriv (c : ascii) (r : re) : re :=
  match r with
  | Void => Void
  | Eps => Void
  | Cls p => if p c then Eps else Void
  | Cat a b =>
      if nullable a then Alt (Cat (deriv c a) b) (deriv c b)
      else Cat (deriv c a) b
  | Alt a b => Alt (deriv c a) (deriv c b)
  | Star a => Cat (deriv c a) (Star a)
  end.

(** [r] matches the whole of [s]. *)
Fixpoint fullmatch (r : re) (s : str) : bool :=
  match s with
  | [] => nullable r
  | c :: s' => fullmatch (deriv c r) s'
  end.

(** Pattern syntax. *)
Definition chr (c : ascii) : re := Cls (Ascii.eqb c).
Definition newline : ascii := ascii_of_nat 10.
(** [.] matches every character but the newline. *)
Definition dot : re := Cls (fun c => negb (Ascii.eqb c newline)).
Definition anything : re := Star (Cls (fun _ => true)).
Definition plus (r : re) : re := Cat r (Star r).
Definition opt (r : re) : re := Alt Eps r.

Fixpoint seq (rs : list re) : re :=
  match rs with
  | [] => Eps
  | r :: rs' => Cat r (seq rs')
  end.

(** [r{n}]. *)
Fixpoint rep (n : nat) (r : re) : re :=
  match n with
  | O => Eps
  | S n' => Cat r (rep n' r)
  end.

(** [r{0,n}]. *)
Fixpoint upto (n : nat) (r : re) : re :=
  match n with
  | O => Eps
  | S n' => opt (Cat r (upto n' r))
  end.

(** [r{lo,hi}] with [lo <= hi]. *)
Definition between (lo hi : nat) (r : re) : re :=
  Cat (rep lo r) (upto (hi - lo) r).

(** A compiled pattern: its body and whether it opens with [^] and closes
    with [$].  Without the [MULTILINE] flag [^] matches at the start of
    the text only, and [$] at its end or before a newline that ends it. *)
Record Pattern : Type := mkPattern {
  pat_bol : bool;
  pat_body : re;
  pat_eol : bool
}.

Definition tail_of (p : Pattern) : re :=
  if pat_eol p then opt (chr newline) else anything.

(** [rx.search(s)] is not [None]. *)
Definition search (p : Pattern) (s : str) : bool :=
  fullmatch
    (seq [if pat_bol p then Eps else anything; pat_body p; tail_of p]) s.

(** [rx.match(s)] is not [None]: a match at the start of [s]. *)
Definition match_start (p : Pattern) (s : str) : bool :=
  fullmatch (seq [pat_body p; tail_of p]) s.

End Regex.

(* ===================================================================== *)
(** * Floats *)
(* ===================================================================== *)

Module Float.

Definition Rltb (x y : R) : bool := if Rlt_dec x y then true else false.
Definition Rleb (x y : R) : bool := if Rle_dec x y then true else false.
Definition Reqb (x y : R) : bool := if Req_dec_T x y then true else false.

(** [math.ceil] : the least integer that is not below [x]. *)
Definition ceil (x : R) : Z := (- (up (- x) - 1))%Z.

Definition floor (x : R) : Z := (up x - 1)%Z.

(** [round(y)]: to the nearest integer, a tie going to the even one. *)
Definition round_half_even (y : R) : Z :=
  let f := floor y in
  let d := (y - IZR f)%R in
  if Rltb d (1 / 2) then f
  else if Rltb (1 / 2) d then (f + 1)%Z
  else if Z.even f then f else (f + 1)%Z.

(** [round(w, 6)]. *)
Definition round6 (w : R) : R :=
  (IZR (round_half_even (w * 10 ^ 6)) / 10 ^ 6)%R.

(** [beta ** n] for an integer [n] that the callers keep non-negative. *)
Definition powz (b : R) (n : Z) : R := pow b (Z.to_nat n).

End Float.

(* ===================================================================== *)
(** * recall/config.py *)
(* ===================================================================== *)

Module Config.
Import Text Regex.

Record RecallConfig : Type := mkConfig {
  theta_tc : Z;
  theta_rf : Z;
  delta_t_sec : Z;
  min_token_len : Z;
  graph_window_t_sec : Z;
  decay_lambda : option R;
  theta_w : R;
  activity_beta : R;
  activity_alpha : R;
  activity_epsilon : R;
  temporal_k : Z;
  evidence_budget_nmax : Z;
  degree_threshold_dmax : Z;
  score_a : R;
  score_b : R;
  score_c : R;
  dedup_case_insensitive : bool;
  enable_severity_trigger : bool;
  enable_burst_trigger : bool;
  burst_sigma : R;
  burst_window_sec : Z;
  burst_ema_alpha : R;
  enable_semantic_channel : bool;
  semantic_trigger_min_entities : Z;
  trigger_keywords : list str;
  severity_keywords_fatal : list str;
  severity_keywords_error : list str;
  entity_blacklist_exact : list str;
  entity_blacklist_regex : list Pattern;
  token_drop_regex : list Pattern
}.

Definition backslash : ascii := ascii_of_nat 92.

(** The only default of [entity_blacklist_regex]: [^::1$]. *)
Definition rx_loopback6 : Pattern :=
  mkPattern true (seq [chr ":"; chr ":"; chr "1"]) true.

(** The only default of [token_drop_regex].  The source writes the pattern
    in a plain string literal with four backslashes before each [d] and
    each dot, so the pattern text that [re.compile] receives is

    [^\\d{4}-\\d{2}-\\d{2}-\\d{2}\\.\\d{2}\\.\\d{2}\\.\\d+$]

    in which [\\] is a literal backslash, [d{4}] is the letter d four
    times, and [.] is any character. *)
Definition rx_token_drop : Pattern :=
  let bs := chr backslash in
  let d := chr "d" in
  mkPattern true
    (seq [bs; rep 4 d; chr "-"; bs; rep 2 d; chr "-"; bs; rep 2 d; chr "-";
          bs; rep 2 d; bs; dot; bs; rep 2 d; bs; dot; bs; rep 2 d; bs; dot;
          bs; plus d])
    true.

Definition default_config : RecallConfig := {|
  theta_tc := 2;
  theta_rf := 2;
  delta_t_sec := 300;
  min_token_len := 2;
  graph_window_t_sec := 900;
  decay_lambda := None;
  theta_w := (5 / 100)%R;
  activity_beta := (99 / 100)%R;
  activity_alpha := 1%R;
  activity_epsilon := (1 / 10)%R;
  temporal_k := 15;
  evidence_budget_nmax := 30;
  degree_threshold_dmax := 200;
  score_a := 1%R;
  score_b := 1%R;
  score_c := 1%R;
  dedup_case_insensitive := false;
  enable_severity_trigger := true;
  enable_burst_trigger := true;
  burst_sigma := 3%R;
  burst_window_sec := 300;
  burst_ema_alpha := (1 / 100)%R;
  enable_semantic_channel := false;
  semantic_trigger_min_entities := 1;
  trigger_keywords :=
    map lit ["fatal"; "panic"; "exception"; "critical"; "failure";
             "machine check"]%string;
  severity_keywords_fatal :=
    map lit ["fatal"; "panic"; "critical"; "machine check"]%string;
  severity_keywords_error :=
    map lit ["error"; "exception"; "fail"; "failure"; "crash"; "abort";
             "terminated"]%string;
  entity_blacklist_exact :=
    map lit ["127.0.0.1"; "0.0.0.0"; "localhost"; "/tmp"]%string;
  entity_blacklist_regex := [rx_loopback6];
  token_drop_regex := [rx_token_drop]
|}.

(** [RecallConfig.is_blacklisted_entity]. *)
Definition is_blacklisted_entity (cfg : RecallConfig) (ent : str) : bool :=
  let s := strip ent in
  if negb (nonempty s) then true
  else if bool_decide (s ∈ entity_blacklist_exact cfg) then true
  else existsb (fun rx => search rx s) (entity_blacklist_regex cfg).

(** [RecallConfig.should_drop_token]. *)
Definition should_drop_token (cfg : RecallConfig) (token : str) : bool :=
  if negb (nonempty token) then true
  else existsb (fun rx => search rx token) (token_drop_regex cfg).

End Config.

(* ===================================================================== *)
(** * recall/recurrence.py *)
(* ===================================================================== *)

Module Recurrence.
Import Text Float.

(** A [defaultdict(int)] read at [k]. *)
Definition count_of (m : gmap str Z) (k : str) : Z := default 0 (m !! k).

(** [counts[t] += 1]. *)
Definition incr (t : str) (m : gmap str Z) : gmap str Z :=
  <[t := count_of m t + 1]> m.

(** [counts[t] -= 1], and the entry is dropped when it reaches zero. *)
Definition decr (t : str) (m : gmap str Z) : gmap str Z :=
  let n := count_of m t - 1 in
  if n <=? 0 then delete t m else <[t := n]> m.

(** ** [TokenRecurrenceCounter] *)

Record TokenRecurrenceCounter : Type := mkCounter {
  window_sec : Z;
  rc_q : list (Z * gset str);
  rc_counts : gmap str Z
}.

Definition new_counter (window : Z) : TokenRecurrenceCounter :=
  mkCounter window [] ∅.

(** The [while] loop of [TokenRecurrenceCounter._evict]. *)
Fixpoint evict_tokens (cutoff : Z) (q : list (Z * gset str)) (counts : gmap str Z)
  : list (Z * gset str) * gmap str Z :=
  match q with
  | (ts, tok_set) :: q' =>
      if ts <? cutoff
      then evict_tokens cutoff q' (foldr decr counts (elements tok_set))
      else (q, counts)
  | [] => ([], counts)
  end.

Definition rc_evict (now_ts : Z) (c : TokenRecurrenceCounter) : TokenRecurrenceCounter :=
  if window_sec c <=? 0 then c
  else
    let '(q, counts) := evict_tokens (now_ts - window_sec c) (rc_q c) (rc_counts c) in
    mkCounter (window_sec c) q counts.

(** [TokenRecurrenceCounter.push]. *)
Definition push (ts : Z) (tokens_in_log : list str) (c : TokenRecurrenceCounter)
  : TokenRecurrenceCounter :=
  let tok_set := unique_tokens tokens_in_log in
  rc_evict ts
    (mkCounter (window_sec c) (rc_q c ++ [(ts, tok_set)])
       (foldr incr (rc_counts c) (elements tok_set))).

(** [TokenRecurrenceCounter.rf]. *)
Definition rf (c : TokenRecurrenceCounter) (token : str) : Z :=
  count_of (rc_counts c) token.

(** ** [TemplateBurstDetector] *)

Record EmaStats : Type := mkEma {
  mean : R;
  var : R;
  initialized : bool
}.

(** [_EmaStats()], what the [defaultdict] makes for a key it has not seen. *)
Definition ema_default : EmaStats := mkEma 0 0 false.

Record TemplateBurstDetector : Type := mkDetector {
  burst_window_sec : Z;
  ema_alpha : R;
  sigma : R;
  bd_q : list (Z * str);
  win_counts : gmap str Z;
  ema : gmap str EmaStats
}.

Definition new_detector (window : Z) (alpha sig : R) : TemplateBurstDetector :=
  mkDetector window alpha sig [] ∅ ∅.

(** The [while] loop of [TemplateBurstDetector._evict]. *)
Fixpoint evict_keys (cutoff : Z) (q : list (Z * str)) (counts : gmap str Z)
  : list (Z * str) * gmap str Z :=
  match q with
  | (ts, key) :: q' =>
      if ts <? cutoff then evict_keys cutoff q' (decr key counts)
      else (q, counts)
  | [] => ([], counts)
  end.

Definition bd_evict (now_ts : Z) (q : list (Z * str)) (counts : gmap str Z)
    (window : Z) : list (Z * str) * gmap str Z :=
  if window <=? 0 then (q, counts)
  else evict_keys (now_ts - window) q counts.

(** The state of the key after the observation [x]. *)
Definition ema_update (a : R) (x : R) (st : EmaStats) : EmaStats :=
  if initialized st
  then
    let prev_mean := mean st in
    let new_mean := ((1 - a) * mean st + a * x)%R in
    mkEma new_mean ((1 - a) * var st + a * (x - prev_mean) * (x - new_mean))%R true
  else mkEma x 0 true.

(** [TemplateBurstDetector.push_and_check]: the answer and the detector
    after the call. *)
Definition push_and_check (ts : Z) (template_key : str) (d : TemplateBurstDetector)
  : bool * TemplateBurstDetector :=
  let key := template_key in
  if negb (nonempty key) then (false, d)
  else
    let '(q, counts) :=
      bd_evict ts (bd_q d ++ [(ts, key)]) (incr key (win_counts d))
        (burst_window_sec d) in
    let x := IZR (count_of counts key) in
    let st := ema_update (ema_alpha d) x (default ema_default (ema d !! key)) in
    let d' :=
      mkDetector (burst_window_sec d) (ema_alpha d) (sigma d) q counts
        (<[key := st]> (ema d)) in
    let std := sqrt (Rmax (var st) 0) in
    let threshold := (mean st + sigma d * std)%R in
    if Rleb threshold 1 then (false, d')
    else (Rltb threshold x, d').

End Recurrence.

(* ===================================================================== *)
(** * recall/trigger.py *)
(* ===================================================================== *)

Module Trigger.
Import Text Config Recurrence.

(** [severity_level]. *)
Definition severity_level (cfg : RecallConfig) (message : str) : Z :=
  let s := lower message in
  if existsb (fun kw => contains kw s) (severity_keywords_fatal cfg) then 3
  else if existsb (fun kw => contains kw s) (severity_keywords_error cfg) then 2
  else if contains (lit "warn") s || contains (lit "warning") s then 1
  else 0.

Record TriggerDecision : Type := mkDecision {
  triggered : bool;
  by_ : str;
  template_key : option str
}.

(** [TriggerEngine]: the configuration and the burst detector it owns. *)
Record TriggerEngine : Type := mkEngine {
  te_cfg : RecallConfig;
  burst : TemplateBurstDetector
}.

Definition new_engine (cfg : RecallConfig) : TriggerEngine :=
  mkEngine cfg
    (new_detector (Config.burst_window_sec cfg) (burst_ema_alpha cfg)
       (burst_sigma cfg)).

(** The test of the severity trigger. *)
Definition severity_fires (cfg : RecallConfig) (msg : str) : bool :=
  enable_severity_trigger cfg &&
  existsb (fun kw => contains kw (lower msg)) (trigger_keywords cfg).

(** [TriggerEngine.check]: the decision and the engine after the call. *)
Definition check (ts_sec : Z) (message : str) (te : TriggerEngine)
  : TriggerDecision * TriggerEngine :=
  let cfg := te_cfg te in
  let msg := message in
  if severity_fires cfg msg
  then (mkDecision true (lit "severity") None, te)
  else if enable_burst_trigger cfg
  then
    let key := mask_for_template_key msg in
    let '(fired, b) := push_and_check ts_sec key (burst te) in
    if fired
    then (mkDecision true (lit "burst") (Some key), mkEngine cfg b)
    else (mkDecision false (lit "none") (Some key), mkEngine cfg b)
  else (mkDecision false (lit "none") None, te).

End Trigger.

(* ===================================================================== *)
(** * recall/entity_extraction.py *)
(* ===================================================================== *)

Module EntityExtraction.
Import Text Regex Config Recurrence.

Definition digit : re := Cls is_digit.

(** The group [ip] of [_IPV4_PORT]. *)
Definition re_ipv4 : re :=
  Cat (rep 3 (Cat (between 1 3 digit) (chr "."))) (between 1 3 digit).

(** [_IPV4_PORT]. *)
Definition IPV4_PORT : Pattern :=
  mkPattern true (Cat re_ipv4 (opt (Cat (chr ":") (between 1 5 digit)))) true.

(** [m.group('ip')] for [m = _IPV4_PORT.match(s)], when there is a match:
    the address is made of digits and dots and is followed by the colon of
    the port, by a final newline or by nothing. *)
Definition ipv4_group (s : str) : option str :=
  if match_start IPV4_PORT s
  then Some (take_while (fun c => is_digit c || Ascii.eqb c ".") s)
  else None.

Definition rx_identifier : Pattern :=
  mkPattern true
    (seq [Cls is_alpha; Star (Cls is_word); chr "-"; plus (Cls is_word)]) false.

Definition rx_number : Pattern := mkPattern true (plus digit) true.

Definition rx_code : Pattern :=
  let c := Cls (fun c => is_upper c || is_digit c || Ascii.eqb c "_") in
  mkPattern true (Cat (rep 3 c) (Star c)) true.

(** [classify_entity_type]. *)
Definition classify_entity_type (ent : str) : str :=
  let s := strip ent in
  if negb (nonempty s) then lit "unknown"
  else if match_start IPV4_PORT s then lit "ip"
  else if prefix_of (lit "/") s || prefix_of (lit "./") s then lit "path"
  else if prefix_of (lit "blk_") s then lit "block_id"
  else if match_start rx_identifier s then lit "identifier"
  else if match_start rx_number s then lit "number"
  else if match_start rx_code s then lit "code"
  else lit "token".

Record EntityExtractionResult : Type := mkExtraction {
  estat : gset str;
  esem : gset str;
  final : gset str;
  estat_validated : gset str
}.

Record SemanticValidationResult : Type := mkValidation {
  keep : gset str;
  add : gset str;
  drop : gset str
}.

(** [_in_message_or_ip_port]. *)
Definition in_message_or_ip_port (entity message : str) : bool :=
  let e := strip entity in
  if negb (nonempty e) then false
  else if contains e message then true
  else
    match ipv4_group e with
    | Some ip =>
        (nonempty ip && contains ip message) ||
        (nonempty ip && contains (ip ++ lit ":") message)
    | None => false
    end.

(** The last lines of [parse_semantic_validation_response], which run on
    the three sets of values that [_extract_values] has read from the
    reply. *)
Definition filter_reply (raw : SemanticValidationResult) (message : str)
  : SemanticValidationResult :=
  {| keep := filter (fun e => in_message_or_ip_port e message = true) (keep raw);
     add := filter (fun e => in_message_or_ip_port e message = true) (add raw);
     drop := filter (fun e => nonempty e = true) (drop raw) |}.

(** [SemanticEntityExtractor]: the language model is an external
    collaborator.  The extractor is given by the values that
    [_extract_values] reads from the model's reply to a message and a
    list of candidates (all three sets are empty when the reply does not
    parse). *)
Definition SemanticEntityExtractor : Type :=
  str -> gset str -> SemanticValidationResult.

(** [SemanticEntityExtractor.validate_and_supplement]. *)
Definition validate_and_supplement (sem : SemanticEntityExtractor)
    (message : str) (candidates : gset str) : SemanticValidationResult :=
  filter_reply (sem message candidates) message.

(** [StatisticalEntityExtractor]. *)
Record StatisticalEntityExtractor : Type := mkStat {
  se_cfg : RecallConfig;
  rf_counter : TokenRecurrenceCounter
}.

Definition new_stat (cfg : RecallConfig) : StatisticalEntityExtractor :=
  mkStat cfg (new_counter (delta_t_sec cfg)).

(** The body of the loop of [StatisticalEntityExtractor.extract]. *)
Definition extract_token (cfg : RecallConfig) (c : TokenRecurrenceCounter)
    (ents : gset str) (tok : str) : gset str :=
  if negb (nonempty tok) || (Z.of_nat (length tok) <? min_token_len cfg) then ents
  else if should_drop_token cfg tok then ents
  else
    let ents :=
      match ipv4_group tok with
      | Some ip_only =>
          if nonempty ip_only && negb (is_blacklisted_entity cfg ip_only)
          then {[ip_only]} ∪ ents else ents
      | None => ents
      end in
    if is_blacklisted_entity cfg tok then ents
    else
      let tc := token_complexity tok false in
      let rf := rf c tok in
      if (theta_tc cfg <? tc) && (theta_rf cfg <? rf)
      then {[tok]} ∪ ents else ents.

(** [StatisticalEntityExtractor.extract]: the entities and the extractor
    after the call. *)
Definition extract (ts_sec : Z) (message : str) (se : StatisticalEntityExtractor)
  : gset str * StatisticalEntityExtractor :=
  let toks := tokenize_for_entity_candidates message in
  let c := push ts_sec toks (rf_counter se) in
  (fold_left (extract_token (se_cfg se) c) toks ∅, mkStat (se_cfg se) c).

Definition not_blacklisted (cfg : RecallConfig) (s : gset str) : gset str :=
  filter (fun e => is_blacklisted_entity cfg e = false) s.

(** [extract_entities]. *)
Definition extract_entities (cfg : RecallConfig) (se : StatisticalEntityExtractor)
    (ts_sec : Z) (message : str) (semantic : option SemanticEntityExtractor)
  : EntityExtractionResult * StatisticalEntityExtractor :=
  let '(estat, se') := extract ts_sec message se in
  let '(estat_validated, esem) :=
    match semantic with
    | Some sem =>
        if enable_semantic_channel cfg &&
           (Z.of_nat (size estat) <? semantic_trigger_min_entities cfg)
        then
          let r := validate_and_supplement sem message estat in
          (if bool_decide (keep r = ∅) then estat else keep r, add r)
        else (estat, ∅)
    | None => (estat, ∅)
    end in
  let final := estat_validated ∪ esem in
  ({| estat := estat;
      estat_validated := not_blacklisted cfg estat_validated;
      esem := esem;
      final := not_blacklisted cfg final |}, se').

End EntityExtraction.

(* ===================================================================== *)
(** * recall/dynamic_graph.py *)
(* ===================================================================== *)

Module Graph.
Import Text Config Float EntityExtraction.

Record LogNode : Type := mkLog {
  log_id : Z;
  ts_sec : Z;
  message : str;
  severity : Z;
  prev_log_id : option Z;
  next_log_id : option Z
}.

Record EntityNode : Type := mkEntity {
  value : str;
  etype : str;
  activity : R;
  last_step : Z;
  last_seen_ts : Z
}.

Definition set_prev (p : option Z) (n : LogNode) : LogNode :=
  mkLog (log_id n) (ts_sec n) (message n) (severity n) p (next_log_id n).

Definition set_next (x : option Z) (n : LogNode) : LogNode :=
  mkLog (log_id n) (ts_sec n) (message n) (severity n) (prev_log_id n) x.

(** [DynamicLogEntityGraph].  The nodes are objects that the code reaches
    through [logs] and [entities] only, so a field of a node is written by
    [alter] at its key. *)
Record DynamicLogEntityGraph : Type := mkGraph {
  cfg : RecallConfig;
  step : Z;
  logs : gmap Z LogNode;
  entities : gmap str EntityNode;
  log_to_entities : gmap Z (gset str);
  entity_to_logs : gmap str (list Z);
  log_window : list Z;
  last_log_id : option Z
}.

Definition new_graph (c : RecallConfig) : DynamicLogEntityGraph :=
  mkGraph c 0 ∅ ∅ ∅ ∅ [] None.

Definition with_logs (g : DynamicLogEntityGraph) (l : gmap Z LogNode) : DynamicLogEntityGraph :=
  mkGraph (cfg g) (step g) l (entities g) (log_to_entities g)
    (entity_to_logs g) (log_window g) (last_log_id g).

Definition with_window (g : DynamicLogEntityGraph) (w : list Z) : DynamicLogEntityGraph :=
  mkGraph (cfg g) (step g) (logs g) (entities g) (log_to_entities g)
    (entity_to_logs g) w (last_log_id g).

Definition with_incidence (g : DynamicLogEntityGraph) (ents : gmap str EntityNode)
    (l2e : gmap Z (gset str)) (e2l : gmap str (list Z)) : DynamicLogEntityGraph :=
  mkGraph (cfg g) (step g) (logs g) ents l2e e2l (log_window g) (last_log_id g).

(** ** Edge weights *)

(** [_lambda]. *)
Definition _lambda (c : RecallConfig) : R :=
  match decay_lambda c with
  | Some lam => lam
  | None =>
      let T := IZR (graph_window_t_sec c) in
      if Rleb T 0 || Rleb (theta_w c) 0 then 0%R
      else (- ln (theta_w c) / T)%R
  end.

(** [_edge_weight]. *)
Definition _edge_weight (c : RecallConfig) (edge_last_ts now_ts : Z) : R :=
  let dt := Z.max 0 (now_ts - edge_last_ts) in
  let lam := _lambda c in
  if Rleb lam 0 then 1%R else exp (- lam * IZR dt).

(** ** Lookups *)

Definition get_log (g : DynamicLogEntityGraph) (lid : Z) : option LogNode := logs g !! lid.

Definition get_entities_for_log (g : DynamicLogEntityGraph) (lid : Z) : gset str :=
  default ∅ (log_to_entities g !! lid).

Definition get_logs_for_entity (g : DynamicLogEntityGraph) (e : str) : list Z :=
  default [] (entity_to_logs g !! e).

Definition entity_degree (g : DynamicLogEntityGraph) (e : str) : Z :=
  Z.of_nat (length (get_logs_for_entity g e)).

(** [structural_edge_weight]. *)
Definition structural_edge_weight (g : DynamicLogEntityGraph) (lid : Z) (entity : str) (now_ts : Z) : R :=
  match get_log g lid with
  | None => 0%R
  | Some ln => _edge_weight (cfg g) (ts_sec ln) now_ts
  end.

(** [temporal_edge_weight]. *)
Definition temporal_edge_weight (g : DynamicLogEntityGraph) (src dst : Z) (now_ts : Z) : R :=
  match get_log g dst with
  | None => 0%R
  | Some ln => _edge_weight (cfg g) (ts_sec ln) now_ts
  end.

(** ** [add_log] *)

(** [_activate_entity]. *)
Definition _activate_entity (c : RecallConfig) (stp : Z) (ts : Z) (en : EntityNode)
  : EntityNode :=
  let dt_steps := Z.max 0 (stp - last_step en) in
  let a := if 0 <? dt_steps
           then (activity en * powz (activity_beta c) dt_steps)%R
           else activity en in
  mkEntity (value en) (etype en) (a + activity_alpha c)%R stp ts.

(** The first loop of [add_log]: the entities that are kept. *)
Definition kept_entities (c : RecallConfig) (ents : list str) : gset str :=
  list_to_set
    (filter (fun e2 => nonempty e2 = true /\ is_blacklisted_entity c e2 = false)
       (map strip ents)).

(** The body of the second loop of [add_log]. *)
Definition link_entity (lid ts : Z) (e : str) (g : DynamicLogEntityGraph)
  : DynamicLogEntityGraph :=
  let en :=
    match entities g !! e with
    | Some en => en
    | None => mkEntity e (classify_entity_type e) 0 (step g) ts
    end in
  with_incidence g
    (<[e := _activate_entity (cfg g) (step g) ts en]> (entities g))
    (log_to_entities g)
    (<[e := get_logs_for_entity g e ++ [lid]]> (entity_to_logs g)).

(** The chain part of [add_log]. *)
Definition append_log (lid ts : Z) (msg : str) (sev : Z) (g : DynamicLogEntityGraph)
  : DynamicLogEntityGraph :=
  let node := mkLog lid ts msg sev None None in
  let logs1 := <[lid := node]> (logs g) in
  let logs3 :=
    match last_log_id g with
    | Some l =>
        match logs1 !! l with
        | Some prev =>
            alter (set_prev (Some (log_id prev))) lid
              (alter (set_next (Some lid)) l logs1)
        | None => logs1
        end
    | None => logs1
    end in
  mkGraph (cfg g) (step g + 1) logs3 (entities g) (log_to_entities g)
    (entity_to_logs g) (log_window g ++ [lid]) (Some lid).

(** [add_log]. *)
Definition add_log (lid ts : Z) (msg : str) (ents : list str) (sev : Z)
    (g : DynamicLogEntityGraph)
  : DynamicLogEntityGraph :=
  let g := append_log lid ts msg sev g in
  let ent_set := kept_entities (cfg g) ents in
  let g :=
    with_incidence g (entities g) (<[lid := ent_set]> (log_to_entities g))
      (entity_to_logs g) in
  foldr (link_entity lid ts) g (elements ent_set).

(** ** [tick] *)

(** The deque of an entity once [lid] has left it, in [_remove_log]: the
    occurrences at the head are popped, then the others are filtered out. *)
Fixpoint pop_heads (lid : Z) (dq : list Z) : list Z :=
  match dq with
  | x :: dq' => if x =? lid then pop_heads lid dq' else dq
  | [] => []
  end.

Definition without (lid : Z) (dq : list Z) : list Z :=
  filter (fun x => x <> lid) dq.

(** The two last statements of both unlinking loops: store the deque, and
    delete the entity when the deque is empty. *)
Definition store_deque (e : str) (dq : list Z) (g : DynamicLogEntityGraph)
  : DynamicLogEntityGraph :=
  match dq with
  | [] => with_incidence g (delete e (entities g)) (log_to_entities g)
            (delete e (entity_to_logs g))
  | _ => with_incidence g (entities g) (log_to_entities g)
           (<[e := dq]> (entity_to_logs g))
  end.

(** The body of the loop over [ents] of [_remove_log]. *)
Definition unlink_removed (lid : Z) (e : str) (g : DynamicLogEntityGraph)
  : DynamicLogEntityGraph :=
  match entity_to_logs g !! e with
  | None | Some [] => g
  | Some dq =>
      let dq1 := pop_heads lid dq in
      let dq2 := if bool_decide (lid ∈ dq1) then without lid dq1 else dq1 in
      store_deque e dq2 g
  end.

(** [_remove_log]. *)
Definition _remove_log (lid : Z) (g : DynamicLogEntityGraph)
  : DynamicLogEntityGraph :=
  let ents := default ∅ (log_to_entities g !! lid) in
  let g1 :=
    match logs g !! lid with
    | None =>
        mkGraph (cfg g) (step g) (logs g) (entities g)
          (delete lid (log_to_entities g)) (entity_to_logs g) (log_window g)
          (last_log_id g)
    | Some ln =>
        let l0 := delete lid (logs g) in
        let l1 :=
          match prev_log_id ln with
          | Some p => alter (set_next (next_log_id ln)) p l0
          | None => l0
          end in
        let l2 :=
          match next_log_id ln with
          | Some n => alter (set_prev (prev_log_id ln)) n l1
          | None => l1
          end in
        mkGraph (cfg g) (step g) l2 (entities g)
          (delete lid (log_to_entities g)) (entity_to_logs g) (log_window g)
          (if bool_decide (last_log_id g = Some lid) then prev_log_id ln
           else last_log_id g)
    end in
  foldr (unlink_removed lid) g1 (elements ents).

(** The [while] loop of [_evict_logs], on the deque [w]. *)
Fixpoint evict_loop (cutoff : Z) (w : list Z) (g : DynamicLogEntityGraph)
  : DynamicLogEntityGraph :=
  match w with
  | [] => with_window g []
  | lid :: w' =>
      match logs g !! lid with
      | Some ln =>
          if ts_sec ln <? cutoff
          then evict_loop cutoff w' (_remove_log lid (with_window g w'))
          else with_window g w
      | None => with_window g w
      end
  end.

(** [_evict_logs]. *)
Definition _evict_logs (now_ts : Z) (g : DynamicLogEntityGraph)
  : DynamicLogEntityGraph :=
  if graph_window_t_sec (cfg g) <=? 0 then g
  else evict_loop (now_ts - graph_window_t_sec (cfg g)) (log_window g) g.

(** The guards of [_prune_edges] and its [cutoff_ts]. *)
Definition prune_age_limit (c : RecallConfig) : option Z :=
  if Rleb (theta_w c) 0 then None
  else
    let lam := _lambda c in
    if Rleb lam 0 then None
    else
      let age_limit := ceil (- ln (theta_w c) / lam) in
      if age_limit <=? 0 then None else Some age_limit.

(** The body of the loop over [ents] in the first loop of [_prune_edges]. *)
Definition unlink_pruned (lid : Z) (e : str) (g : DynamicLogEntityGraph)
  : DynamicLogEntityGraph :=
  match entity_to_logs g !! e with
  | None | Some [] => g
  | Some dq =>
      store_deque e (if bool_decide (lid ∈ dq) then without lid dq else dq) g
  end.

(** The body of the first loop of [_prune_edges]. *)
Definition prune_incidence (cutoff_ts : Z) (lid : Z) (g : DynamicLogEntityGraph)
  : DynamicLogEntityGraph :=
  match logs g !! lid with
  | None => g
  | Some ln =>
      if cutoff_ts <=? ts_sec ln then g
      else
        match log_to_entities g !! lid with
        | None => g
        | Some ents =>
            if bool_decide (ents = ∅) then g
            else
              let g' := foldr (unlink_pruned lid) g (elements ents) in
              with_incidence g' (entities g')
                (<[lid := ∅]> (log_to_entities g')) (entity_to_logs g')
        end
  end.

(** The body of the second loop of [_prune_edges]. *)
Definition prune_chain (cutoff_ts : Z) (lid : Z) (g : DynamicLogEntityGraph)
  : DynamicLogEntityGraph :=
  match logs g !! lid with
  | None => g
  | Some ln =>
      match prev_log_id ln with
      | None => g
      | Some p =>
          if ts_sec ln <? cutoff_ts
          then with_logs g
                 (alter (set_prev None) lid (alter (set_next None) p (logs g)))
          else g
      end
  end.

(** The two loops of [_prune_edges]; both run over a copy of the window,
    from its head. *)
Definition prune_loops (cutoff_ts : Z) (g : DynamicLogEntityGraph)
  : DynamicLogEntityGraph :=
  let g1 := fold_left (fun g lid => prune_incidence cutoff_ts lid g) (log_window g) g in
  fold_left (fun g lid => prune_chain cutoff_ts lid g) (log_window g1) g1.

(** [_prune_edges]. *)
Definition _prune_edges (now_ts : Z) (g : DynamicLogEntityGraph)
  : DynamicLogEntityGraph :=
  match prune_age_limit (cfg g) with
  | None => g
  | Some age_limit => prune_loops (now_ts - age_limit) g
  end.

(** [_entity_activity_now]. *)
Definition _entity_activity_now (g : DynamicLogEntityGraph) (en : EntityNode) : R :=
  let dt_steps := Z.max 0 (step g - last_step en) in
  if dt_steps <=? 0 then activity en
  else (activity en * powz (activity_beta (cfg g)) dt_steps)%R.

(** The body of the second loop of [_prune_entities_by_activity]. *)
Definition drop_entity (e : str) (g : DynamicLogEntityGraph)
  : DynamicLogEntityGraph :=
  let l2e :=
    foldr (fun lid m => alter (fun s => s ∖ {[e]}) lid m) (log_to_entities g)
      (get_logs_for_entity g e) in
  with_incidence g (delete e (entities g)) l2e (delete e (entity_to_logs g)).

(** [_prune_entities_by_activity]. *)
Definition _prune_entities_by_activity (g : DynamicLogEntityGraph) : DynamicLogEntityGraph :=
  let eps := activity_epsilon (cfg g) in
  if Rleb eps 0 then g
  else if negb (step g mod 256 =? 0) then g
  else
    let to_drop :=
      map fst
        (filter (fun p => Rltb (_entity_activity_now g (snd p)) eps = true)
           (map_to_list (entities g))) in
    fold_left (fun g e => drop_entity e g) to_drop g.

(** [tick]. *)
Definition tick (now_ts : Z) (g : DynamicLogEntityGraph)
  : DynamicLogEntityGraph :=
  _prune_entities_by_activity (_prune_edges now_ts (_evict_logs now_ts g)).

End Graph.

(* ===================================================================== *)
(** * Python lists *)
(* ===================================================================== *)

Module PyList.

(** [l[:n]]: a negative [n] counts from the end. *)
Definition slice_to {A : Type} (n : Z) (l : list A) : list A :=
  if 0 <=? n then take (Z.to_nat n) l
  else take (Z.to_nat (Z.of_nat (length l) + n)) l.

(** A stable sort by insertion, for [sorted] and [list.sort]: [x] goes
    before the first element that [before x] accepts, and the elements are
    inserted from the last one to the first one. *)
Fixpoint insert_by {A : Type} (before : A -> A -> bool) (x : A) (l : list A) : list A :=
  match l with
  | [] => [x]
  | y :: l' => if before x y then x :: l else y :: insert_by before x l'
  end.

Definition sort_by {A : Type} (before : A -> A -> bool) (l : list A) : list A :=
  foldr (insert_by before) [] l.

(** The order of Python on strings, by code point. *)
Fixpoint str_leb (a b : str) : bool :=
  match a, b with
  | [], _ => true
  | _ :: _, [] => false
  | x :: a', y :: b' =>
      if Nat.ltb (nat_of_ascii x) (nat_of_ascii y) then true
      else if Nat.ltb (nat_of_ascii y) (nat_of_ascii x) then false
      else str_leb a' b'
  end.

(** [sorted(s)] for a set of strings. *)
Definition sorted_strs (s : gset str) : list str :=
  sort_by str_leb (elements s).

End PyList.

(* ===================================================================== *)
(** * recall/retrieval.py *)
(* ===================================================================== *)

Module Retrieval.
Import Text Config Float PyList Trigger.
Import Graph(DynamicLogEntityGraph, get_log, get_entities_for_log,
             get_logs_for_entity, entity_degree, structural_edge_weight,
             temporal_edge_weight, prev_log_id, next_log_id, LogNode).

Record EvidenceItem : Type := mkItem {
  log_id : Z;
  ts_sec : Z;
  message : str;
  severity : Z;
  dist : Z;
  score : R;
  edge_weight : R;
  paths : gset str;
  shared_entities : list str;
  time_offset : option Z
}.

(** [_min_dist]. *)
Definition _min_dist (a b : option Z) : Z :=
  match a, b with
  | None, Some b => b
  | None, None => 999999
  | Some a, None => a
  | Some a, Some b => Z.min a b
  end.

(** One of the two [while] loops of [_temporal_path_min_edge_weight]:
    [toward ln] is the neighbour that the loop moves to, [weight_of cur nb]
    the weight of the edge that it crosses, and [fuel] the hops that are
    left of the 2048.  The result is the last [cur] and [w_min]. *)
Fixpoint path_walk (g : DynamicLogEntityGraph) (toward : LogNode -> option Z)
    (weight_of : Z -> Z -> R) (stop : Z) (fuel : nat) (cur : Z) (w_min : R)
  : Z * R :=
  if cur =? stop then (cur, w_min)
  else
    match fuel with
    | O => (cur, w_min)
    | S fuel' =>
        match get_log g cur with
        | None => (cur, w_min)
        | Some ln =>
            match toward ln with
            | None => (cur, w_min)
            | Some nb =>
                path_walk g toward weight_of stop fuel' nb
                  (Rmin w_min (weight_of cur nb))
            end
        end
    end.

(** [_temporal_path_min_edge_weight]. *)
Definition _temporal_path_min_edge_weight (g : DynamicLogEntityGraph)
    (src dst now_ts : Z) : R :=
  if src =? dst then 1%R
  else
    let '(cur, w_min) :=
      path_walk g prev_log_id
        (fun cur prev => temporal_edge_weight g prev cur now_ts)
        src 2048 dst 1%R in
    if cur =? src then w_min
    else
      let '(cur, w_min) :=
        path_walk g next_log_id
          (fun cur nxt => temporal_edge_weight g cur nxt now_ts)
          dst 2048 src 1%R in
      if cur =? dst then w_min else 0%R.

(** ** Candidates *)

(** The tables [cand_dist_struct] and [shared_entities]. *)
Definition StructTables : Type := gmap Z Z * gmap Z (gset str).

(** The body of the inner loop over the logs of the entity [e]. *)
Definition struct_visit (target : Z) (e : str) (t : StructTables) (lid : Z)
  : StructTables :=
  if lid =? target then t
  else
    (<[lid := _min_dist (fst t !! lid) (Some 2)]> (fst t),
     <[lid := {[e]} ∪ default ∅ (snd t !! lid)]> (snd t)).

(** The body of the loop over the entities of the target. *)
Definition struct_entity (cfg : RecallConfig) (g : DynamicLogEntityGraph)
    (target : Z) (t : StructTables) (e : str) : StructTables :=
  if degree_threshold_dmax cfg <? entity_degree g e then t
  else fold_left (struct_visit target e) (get_logs_for_entity g e) t.

Definition struct_candidates (cfg : RecallConfig) (g : DynamicLogEntityGraph)
    (target : Z) : StructTables :=
  fold_left (struct_entity cfg g target)
    (elements (get_entities_for_log g target)) (∅, ∅).

(** One of the two [for d in range(1, k + 1)] loops: [n] rounds are left
    and the next one has the distance [d]. *)
Fixpoint time_walk (g : DynamicLogEntityGraph) (toward : LogNode -> option Z)
    (n : nat) (d : Z) (cur : Z) (m : gmap Z Z) : gmap Z Z :=
  match n with
  | O => m
  | S n' =>
      match get_log g cur with
      | None => m
      | Some ln =>
          match toward ln with
          | None => m
          | Some nb =>
              time_walk g toward n' (d + 1) nb
                (<[nb := Z.min (default (10 ^ 9) (m !! nb)) d]> m)
          end
      end
  end.

Definition time_candidates (cfg : RecallConfig) (g : DynamicLogEntityGraph)
    (target : Z) : gmap Z Z :=
  let k := Z.to_nat (temporal_k cfg) in
  time_walk g next_log_id k 1 target
    (time_walk g prev_log_id k 1 target ∅).

(** [cand_ids]. *)
Definition candidate_ids (cfg : RecallConfig) (g : DynamicLogEntityGraph)
    (target : Z) : gset Z :=
  dom (fst (struct_candidates cfg g target)) ∪ dom (time_candidates cfg g target).

(** ** Dedup *)

Definition dedup_key (cfg : RecallConfig) (msg : str) : str :=
  normalize_message_for_dedup msg (dedup_case_insensitive cfg).

(** The body of the loop that fills [msg2best]. *)
Definition dedup_visit (cfg : RecallConfig) (g : DynamicLogEntityGraph)
    (msg2best : gmap str Z) (lid : Z) : gmap str Z :=
  match get_log g lid with
  | None => msg2best
  | Some ln =>
      let key := dedup_key cfg (Graph.message ln) in
      if negb (nonempty key) then msg2best
      else
        match msg2best !! key with
        | None => <[key := lid]> msg2best
        | Some prev =>
            match get_log g prev with
            | None => <[key := lid]> msg2best
            | Some a =>
                if Graph.ts_sec a <? Graph.ts_sec ln
                then <[key := lid]> msg2best else msg2best
            end
        end
  end.

Definition dedup_table (cfg : RecallConfig) (g : DynamicLogEntityGraph)
    (ids : list Z) : gmap str Z :=
  fold_left (dedup_visit cfg g) ids ∅.

(** [dedup_ids]. *)
Definition dedup_ids (cfg : RecallConfig) (g : DynamicLogEntityGraph)
    (target : Z) : gset Z :=
  list_to_set
    (map snd (map_to_list (dedup_table cfg g (elements (candidate_ids cfg g target))))).

(** ** Items *)

(** The weight over the shared entities of a structural candidate. *)
Definition struct_weight (g : DynamicLogEntityGraph) (target lid now_ts : Z)
    (shared : gset str) : R :=
  fold_left
    (fun best e =>
       Rmax best
         (Rmin (structural_edge_weight g target e now_ts)
               (structural_edge_weight g lid e now_ts)))
    (elements shared) 0%R.

(** The body of the loop that builds the items, for a resident [lid]. *)
Definition make_item (cfg : RecallConfig) (g : DynamicLogEntityGraph)
    (target : Z) (tgt : LogNode) (st : StructTables) (tm : gmap Z Z)
    (lid : Z) (ln : LogNode) : EvidenceItem :=
  let now_ts := Graph.ts_sec tgt in
  let shared := default ∅ (snd st !! lid) in
  let dist := Z.max 1 (_min_dist (fst st !! lid) (tm !! lid)) in
  let sev := if Graph.severity ln =? 0
             then severity_level cfg (Graph.message ln)
             else Graph.severity ln in
  let w := 0%R in
  let w := if bool_decide (is_Some (tm !! lid))
           then Rmax w (_temporal_path_min_edge_weight g target lid now_ts)
           else w in
  let w := if bool_decide (is_Some (fst st !! lid))
           then Rmax w (struct_weight g target lid now_ts shared)
           else w in
  let score := (score_a cfg * IZR sev + score_b cfg * (1 / IZR dist)
                + score_c cfg * w)%R in
  let paths : gset str :=
    (if bool_decide (is_Some (fst st !! lid)) then {[lit "struct"]} else ∅) ∪
    (if bool_decide (is_Some (tm !! lid)) then {[lit "time"]} else ∅) in
  {| log_id := lid;
     ts_sec := Graph.ts_sec ln;
     message := Graph.message ln;
     severity := sev;
     dist := dist;
     score := score;
     edge_weight := w;
     paths := paths;
     shared_entities := sorted_strs shared;
     time_offset := if bool_decide (is_Some (tm !! lid))
                    then Some (Graph.ts_sec ln - Graph.ts_sec tgt) else None |}.

(** [x] goes before [y] in [items.sort(key=(score, ts_sec), reverse=True)]
    when its key is not below the key of [y]. *)
Definition key_ltb (x y : EvidenceItem) : bool :=
  Rltb (score x) (score y) ||
  (Reqb (score x) (score y) && (ts_sec x <? ts_sec y)).

Definition sort_items (items : list EvidenceItem) : list EvidenceItem :=
  sort_by (fun x y => negb (key_ltb x y)) items.

(** The items before they are sorted. *)
Definition unsorted_items (cfg : RecallConfig) (g : DynamicLogEntityGraph)
    (target : Z) (tgt : LogNode) : list EvidenceItem :=
  let st := struct_candidates cfg g target in
  let tm := time_candidates cfg g target in
  omap
    (fun lid =>
       match get_log g lid with
       | None => None
       | Some ln => Some (make_item cfg g target tgt st tm lid ln)
       end)
    (elements (dedup_ids cfg g target)).

(** [dual_path_retrieve]. *)
Definition dual_path_retrieve (cfg : RecallConfig) (g : DynamicLogEntityGraph)
    (target : Z) : list EvidenceItem :=
  match get_log g target with
  | None => []
  | Some tgt =>
      slice_to (evidence_budget_nmax cfg)
        (sort_items (unsorted_items cfg g target tgt))
  end.

End Retrieval.

(* ===================================================================== *)
(** * recall/packaging.py *)
(* ===================================================================== *)

Module Packaging.
Import Text Config Float PyList EntityExtraction.
Import Graph(DynamicLogEntityGraph, get_log, get_entities_for_log,
             structural_edge_weight, temporal_edge_weight, next_log_id).
Import Retrieval(EvidenceItem).

(** The decimal writing of an integer, [str(int(n))]. *)
Definition str_of_Z (n : Z) : str := lit (pretty n).

(** [sep.join(parts)]. *)
Fixpoint join (sep : str) (parts : list str) : str :=
  match parts with
  | [] => []
  | [p] => p
  | p :: ps => p ++ sep ++ join sep ps
  end.

(** A node of the GraphPack. *)
Inductive Node : Type :=
  | LogN (id : str) (timestamp : Z) (severity : Z)
  | EntityN (id : str) (entity_type : str) (value : str).

(** An edge of the GraphPack. *)
Record Edge : Type := mkEdge {
  edge_id : str;
  edge_type : str;
  source : str;
  target : str;
  weight : R
}.

(** The object that [json.dumps] serialises into [graphpack_json]. *)
Record GraphPack : Type := mkGraphPack {
  nodes : list Node;
  edges : list Edge;
  summary : list str
}.

Record EvidencePack : Type := mkPack {
  textpack : str;
  graphpack : GraphPack;
  id_map_logs : gmap Z str;
  id_map_entities : gmap str str
}.

(** [enumerate(l, start=i)]. *)
Fixpoint enumerate {A : Type} (i : Z) (l : list A) : list (Z * A) :=
  match l with
  | [] => []
  | x :: l' => (i, x) :: enumerate (i + 1) l'
  end.

Definition local_id (prefix : string) (i : Z) : str := lit prefix ++ str_of_Z i.

(** [id_map_logs]. *)
Definition log_ids (target : Z) (evidence : list EvidenceItem) : gmap Z str :=
  fold_left
    (fun m p => <[Retrieval.log_id (snd p) := local_id "L" (fst p)]> m)
    (enumerate 1 evidence) {[target := lit "L0"]}.

(** [ent_set]: the entities of the logs that have an identifier. *)
Definition pack_entities (g : DynamicLogEntityGraph) (ids : gmap Z str) : gset str :=
  fold_left (fun s lid => get_entities_for_log g lid ∪ s)
    (elements (dom ids)) ∅.

(** [id_map_entities], in the order of its insertions. *)
Definition entity_ids (ent_set : gset str) : list (str * str) :=
  map (fun p => (snd p, local_id "E" (fst p))) (enumerate 1 (sorted_strs ent_set)).

(** [m[k]] for a key that the caller knows to be in [m]. *)
Definition at_key `{Countable K} (m : gmap K str) (k : K) : str :=
  default [] (m !! k).

(** The lines of the TextPack. *)
Definition text_lines (g : DynamicLogEntityGraph) (ids : gmap Z str)
    (evidence : list EvidenceItem) : list str :=
  lit "=== TEXT EVIDENCE (TextPack) ===" ::
  omap
    (fun it : EvidenceItem =>
       match get_log g (Retrieval.log_id it) with
       | None => None
       | Some ln =>
           Some (at_key ids (Retrieval.log_id it) ++ lit ": ts=" ++
                 str_of_Z (Graph.ts_sec ln) ++ lit " severity=" ++
                 str_of_Z (Graph.severity ln) ++ lit " " ++ Graph.message ln)
       end)
    evidence.

Definition log_nodes (g : DynamicLogEntityGraph) (ids : gmap Z str)
    (ordered : list Z) : list Node :=
  omap
    (fun lid =>
       match get_log g lid with
       | None => None
       | Some ln => Some (LogN (at_key ids lid) (Graph.ts_sec ln) (Graph.severity ln))
       end)
    ordered.

Definition entity_nodes (eids : list (str * str)) : list Node :=
  map (fun p => EntityN (snd p) (classify_entity_type (fst p)) (fst p)) eids.

(** The edges so far and [rel_id]. *)
Definition EdgeAcc : Type := list Edge * Z.

Definition emit (kind : string) (src dst : str) (w : R) (acc : EdgeAcc) : EdgeAcc :=
  (fst acc ++ [mkEdge (local_id "R" (snd acc)) (lit kind) src dst (round6 w)],
   snd acc + 1).

(** The body of the inner loop of the first pass. *)
Definition struct_edge (cfg : RecallConfig) (g : DynamicLogEntityGraph)
    (ids : gmap Z str) (eids : gmap str str) (now_ts lid : Z)
    (acc : EdgeAcc) (e : str) : EdgeAcc :=
  match eids !! e with
  | None => acc
  | Some eid =>
      let w := structural_edge_weight g lid e now_ts in
      if Rltb w (theta_w cfg) then acc
      else emit "struct" (at_key ids lid) eid w acc
  end.

Definition struct_edges (cfg : RecallConfig) (g : DynamicLogEntityGraph)
    (ids : gmap Z str) (eids : gmap str str) (now_ts : Z)
    (ordered : list Z) (acc : EdgeAcc) : EdgeAcc :=
  fold_left
    (fun acc lid =>
       fold_left (struct_edge cfg g ids eids now_ts lid)
         (sorted_strs (get_entities_for_log g lid)) acc)
    ordered acc.

(** The body of the loop of the second pass. *)
Definition time_edge (cfg : RecallConfig) (g : DynamicLogEntityGraph)
    (ids : gmap Z str) (selected : gset Z) (now_ts : Z)
    (acc : EdgeAcc) (lid : Z) : EdgeAcc :=
  match get_log g lid with
  | None => acc
  | Some ln =>
      match next_log_id ln with
      | None => acc
      | Some nxt =>
          if bool_decide (nxt ∈ selected)
          then
            let w := temporal_edge_weight g lid nxt now_ts in
            if Rltb w (theta_w cfg) then acc
            else emit "time" (at_key ids lid) (at_key ids nxt) w acc
          else acc
      end
  end.

Definition time_edges (cfg : RecallConfig) (g : DynamicLogEntityGraph)
    (ids : gmap Z str) (now_ts : Z) (ordered : list Z) (acc : EdgeAcc) : EdgeAcc :=
  fold_left (time_edge cfg g ids (list_to_set ordered) now_ts) ordered acc.

(** [edges]. *)
Definition pack_edges (cfg : RecallConfig) (g : DynamicLogEntityGraph)
    (ids : gmap Z str) (eids : gmap str str) (now_ts : Z) (ordered : list Z)
  : list Edge :=
  fst (time_edges cfg g ids now_ts ordered
         (struct_edges cfg g ids eids now_ts ordered ([], 1))).

(** The sentences that one evidence item adds to [summary]. *)
Definition summary_of (cfg : RecallConfig) (g : DynamicLogEntityGraph)
    (target : Z) (ids : gmap Z str) (eids : gmap str str) (it : EvidenceItem)
  : list str :=
  let shared :=
    sorted_strs (get_entities_for_log g target ∩
                 get_entities_for_log g (Retrieval.log_id it)) in
  let l := at_key ids (Retrieval.log_id it) in
  (match shared with
   | [] => []
   | _ =>
       [l ++ lit " shares entities " ++
        join (lit ", ") (omap (fun e => eids !! e) shared) ++ lit " with L0"]
   end) ++
  (match Retrieval.time_offset it with
   | Some off =>
       if Z.abs off <=? temporal_k cfg
       then [l ++ lit " is within K-step temporal context of L0 (offset " ++
             str_of_Z off ++ lit "s)"]
       else []
   | None => []
   end).

(** [build_evidence_pack]; [None] is the [ValueError] that it raises when
    the target is not in the graph. *)
Definition build_evidence_pack (cfg : RecallConfig) (g : DynamicLogEntityGraph)
    (target : Z) (evidence : list EvidenceItem) : option EvidencePack :=
  match get_log g target with
  | None => None
  | Some tgt =>
      let ids := log_ids target evidence in
      let elist := entity_ids (pack_entities g ids) in
      let eids : gmap str str := list_to_map elist in
      let ordered := target :: map Retrieval.log_id evidence in
      let now_ts := Graph.ts_sec tgt in
      Some
        {| textpack := join [Regex.newline] (text_lines g ids evidence);
           graphpack :=
             {| nodes := log_nodes g ids ordered ++ entity_nodes elist;
                edges := pack_edges cfg g ids eids now_ts ordered;
                summary :=
                  slice_to 50
                    (concat (map (summary_of cfg g target ids eids) evidence)) |};
           id_map_logs := ids;
           id_map_entities := eids |}
  end.

End Packaging.

(* ===================================================================== *)
(** * recall/pipeline.py *)
(* ===================================================================== *)

Module Pipeline.
Import Text Config PyList Trigger EntityExtraction.
Import Graph(DynamicLogEntityGraph, new_graph, add_log, tick).
Import Retrieval(EvidenceItem, dual_path_retrieve).
Import Packaging(EvidencePack, build_evidence_pack).

(** [LogRecord], of [recall/data.py]. *)
Record LogRecord : Type := mkRecord {
  log_id : Z;
  ts_sec : Z;
  message : str;
  true_label : Z
}.

(** [RecallPipeline] without the client of the decision model, that is
    with [enable_llm=False]. *)
Record RecallPipeline : Type := mkPipeline {
  cfg : RecallConfig;
  graph : DynamicLogEntityGraph;
  stat_extractor : StatisticalEntityExtractor;
  semantic_extractor : option SemanticEntityExtractor;
  trigger : TriggerEngine
}.

(** [RecallPipeline.__init__]: the semantic extractor is made only when
    the configuration enables the channel. *)
Definition new_pipeline (c : RecallConfig) (sem : SemanticEntityExtractor)
  : RecallPipeline :=
  mkPipeline c (new_graph c) (new_stat c)
    (if enable_semantic_channel c then Some sem else None) (new_engine c).

(** The entry [retrieval] of an output. *)
Record RetrievalInfo : Type := mkRetrievalInfo {
  evidence_count : Z;
  evidence_log_ids : list Z
}.

(** The mapping that [process] appends to [preds] for a record.  The entry
    [prediction] is the default decision when the model is disabled, and
    [prompt_len] measures the serialised prompt; both are left out. *)
Record Output : Type := mkOutput {
  out_log_id : Z;
  timestamp : Z;
  out_message : str;
  out_true_label : Z;
  out_triggered : bool;
  trigger_by : str;
  out_severity : Z;
  entities_stat : list str;
  entities_stat_validated : list str;
  entities_sem : list str;
  entities_final : list str;
  retrieval : option RetrievalInfo
}.

(** What [process] computes for a record, before it assembles the output. *)
Record Step : Type := mkStep {
  step_output : Output;
  step_evidence : list EvidenceItem;
  step_pack : option EvidencePack;
  step_pipeline : RecallPipeline
}.

(** The body of the loop of [RecallPipeline.process]; [None] is the
    [ValueError] of [build_evidence_pack]. *)
Definition process_record (p : RecallPipeline) (rec : LogRecord) : option Step :=
  let ts := ts_sec rec in
  let msg := message rec in
  let sev := severity_level (cfg p) msg in
  let '(ent_res, se) :=
    extract_entities (cfg p) (stat_extractor p) ts msg (semantic_extractor p) in
  let g := add_log (log_id rec) ts msg (elements (final ent_res)) sev (graph p) in
  let g := tick ts g in
  let '(trig, te) := check ts msg (trigger p) in
  let p' := mkPipeline (cfg p) g se (semantic_extractor p) te in
  let out (r : option RetrievalInfo) :=
    {| out_log_id := log_id rec;
       timestamp := ts;
       out_message := msg;
       out_true_label := true_label rec;
       out_triggered := triggered trig;
       trigger_by := by_ trig;
       out_severity := sev;
       entities_stat := sorted_strs (estat ent_res);
       entities_stat_validated := sorted_strs (estat_validated ent_res);
       entities_sem := sorted_strs (esem ent_res);
       entities_final := sorted_strs (final ent_res);
       retrieval := r |} in
  if triggered trig
  then
    let evidence_items := dual_path_retrieve (cfg p) g (log_id rec) in
    match build_evidence_pack (cfg p) g (log_id rec) evidence_items with
    | None => None
    | Some pack =>
        Some (mkStep
                (out (Some (mkRetrievalInfo (Z.of_nat (length evidence_items))
                              (map Retrieval.log_id evidence_items))))
                evidence_items (Some pack) p')
    end
  else Some (mkStep (out None) [] None p').


End Pipeline.

(* ===================================================================== *)
(** * recall/metrics.py *)
(* ===================================================================== *)

Module Metrics.
Import Float.

Record Metrics : Type := mkMetrics {
  tp : Z;
  fp : Z;
  tn : Z;
  fn : Z
}.

(** [Metrics.precision]. *)
Definition precision (m : Metrics) : R :=
  let d := tp m + fp m in
  if d =? 0 then 0%R else (IZR (tp m) / IZR d)%R.

(** [Metrics.recall]. *)
Definition recall (m : Metrics) : R :=
  let d := tp m + fn m in
  if d =? 0 then 0%R else (IZR (tp m) / IZR d)%R.

(** [Metrics.f1]. *)
Definition f1 (m : Metrics) : R :=
  let p := precision m in
  let r := recall m in
  if Reqb (p + r) 0 then 0%R else (2 * p * r / (p + r))%R.

(** The entry [total] of [Metrics.as_dict]. *)
Definition total (m : Metrics) : Z := tp m + fp m + tn m + fn m.

(** The body of the loop of [compute_metrics]. *)
Definition count_pair (m : Metrics) (tp_ : Z * Z) : Metrics :=
  let '(t, p) := tp_ in
  if t =? 1 then
    if p =? 1 then mkMetrics (tp m + 1) (fp m) (tn m) (fn m)
    else mkMetrics (tp m) (fp m) (tn m) (fn m + 1)
  else if p =? 1 then mkMetrics (tp m) (fp m + 1) (tn m) (fn m)
  else mkMetrics (tp m) (fp m) (tn m + 1) (fn m).

(** [compute_metrics]; [zip] stops at the end of the shorter list. *)
Definition compute_metrics (true_labels pred_labels : list Z) : Metrics :=
  fold_left count_pair (combine true_labels pred_labels) (mkMetrics 0 0 0 0).

End Metrics.

(* ===================================================================== *)
(** * recall/data.py *)
(* ===================================================================== *)

Module Data.
Import Text PyList.
Import Pipeline(LogRecord, mkRecord).

(** The whitespace that [int] skips around an ASCII literal: TAB, LF, VT,
    FF, CR and the space. *)
Definition is_cspace (c : ascii) : bool :=
  in_range 9 13 c || Nat.eqb (code c) 32.

Fixpoint drop_cspace (s : str) : str :=
  match s with
  | c :: s' => if is_cspace c then drop_cspace s' else s
  | [] => []
  end.

Definition digit_value (c : ascii) : Z := Z.of_nat (code c) - 48.

(** The digits of a literal after the first one: an underscore may stand
    between two digits. *)
Fixpoint more_digits (acc : Z) (s : str) : option Z :=
  match s with
  | [] => Some acc
  | c :: s' =>
      if is_digit c then more_digits (10 * acc + digit_value c) s'
      else if Ascii.eqb c "_" then
        match s' with
        | d :: s'' =>
            if is_digit d then more_digits (10 * acc + digit_value d) s''
            else None
        | [] => None
        end
      else None
  end.

(** [sys.int_max_str_digits] at its default: a decimal literal with more
    digits is refused with a [ValueError]; the sign, the underscores and
    the whitespace around the literal do not count. *)
Definition max_str_digits : Z := 4300.

Definition too_long (s : str) : bool :=
  max_str_digits <? Z.of_nat (length (List.filter is_digit s)).

Definition digits (s : str) : option Z :=
  if too_long s then None
  else
    match s with
    | c :: s' => if is_digit c then more_digits (digit_value c) s' else None
    | [] => None
    end.

(** [int(s)] for a string; [None] is the [ValueError]. *)
Definition py_int (s : str) : option Z :=
  let t := rev (drop_cspace (rev (drop_cspace s))) in
  match t with
  | "-"%char :: t' => Z.opp <$> digits t'
  | "+"%char :: t' => digits t'
  | _ => digits t
  end.

Definition is_blank (c : ascii) : bool := Ascii.eqb c " ".

(** [s.find(' ')]: the index of the first space, when there is one. *)
Fixpoint find_space (s : str) : option nat :=
  match s with
  | [] => None
  | c :: s' => if is_blank c then Some O else S <$> find_space s'
  end.

(** [s.split(' ')]: the pieces between the spaces; [cur] is the piece that
    is being read, reversed. *)
Fixpoint split_space (cur : str) (s : str) : list str :=
  match s with
  | [] => [rev cur]
  | c :: s' =>
      if is_blank c then rev cur :: split_space [] s'
      else split_space (c :: cur) s'
  end.

(** The body of the loop over the lines: the record of a line, with the
    identifier -1 that the loop gives it, or nothing when the line is
    skipped. *)
Definition parse_line (line : str) : option LogRecord :=
  let s := strip line in
  if negb (nonempty s) then None
  else
    match find_space s with
    | None => None
    | Some pos =>
        let raw_label := take pos s in
        let rest := drop (pos + 1) s in
        let parts := split_space [] s in
        let ts :=
          match parts !! 1%nat with
          | Some p => default 0 (py_int p)
          | None => 0
          end in
        let true := if bool_decide (raw_label = lit "-") then 0 else 1 in
        Some (mkRecord (-1) ts rest true)
    end.

(** [out.sort(key=lambda r: r.ts_sec)]: a stable sort. *)
Definition sort_records (out : list LogRecord) : list LogRecord :=
  sort_by (fun x y => Pipeline.ts_sec x <=? Pipeline.ts_sec y) out.

(** The last loop: the record at the index [i] gets the identifier [i]. *)
Fixpoint number_from (i : Z) (out : list LogRecord) : list LogRecord :=
  match out with
  | [] => []
  | r :: out' =>
      mkRecord i (Pipeline.ts_sec r) (Pipeline.message r) (Pipeline.true_label r)
      :: number_from (i + 1) out'
  end.

(** [_read_labeled_loghub_file], on the lines of the file. *)
Definition read_labeled_loghub_lines (lines : list str) : list LogRecord :=
  number_from 0 (sort_records (omap parse_line lines)).

End Data.

(* ===================================================================== *)
(** * The embedding on concrete inputs *)
(* ===================================================================== *)

Module Examples.

Example mask_example :
  Text.mask_for_template_key (lit "  Read 0x1F  at   12 ok1 ") = lit "read <HEX> at <NUM> ok1".
Proof. vm_compute. reflexivity. Qed.

Example tokenize_example :
  Text.tokenize_for_entity_candidates (lit "fatal error on (node-7),") =
  [lit "fatal"; lit "error"; lit "on"; lit "node-7"].
Proof. vm_compute. reflexivity. Qed.

Example drop_pattern_matches_what_it_spells :
  Config.should_drop_token Config.default_config
    (lit "\dddd-\dd-\dd-\dd\.\dd\.\dd\.\d") = true.
Proof. vm_compute. reflexivity. Qed.

Example blacklist_examples :
  map (Config.is_blacklisted_entity Config.default_config)
    [lit "127.0.0.1"; lit " localhost "; lit "::1"; lit ""; lit "10.0.0.5"; lit "node-7"]
  = [true; true; true; true; false; false].
Proof. vm_compute. reflexivity. Qed.

Example classify_examples :
  map EntityExtraction.classify_entity_type
    [lit "10.0.0.5:443"; lit "/dev/sda"; lit "blk_123"; lit "node-7";
     lit "42"; lit "ERR_42"; lit "disk"; lit " "]
  = map lit ["ip"; "path"; "block_id"; "identifier"; "number"; "code";
             "token"; "unknown"]%string.
Proof. vm_compute. reflexivity. Qed.

Example ipv4_group_example :
  EntityExtraction.ipv4_group (lit "10.0.0.5:443") = Some (lit "10.0.0.5").
Proof. vm_compute. reflexivity. Qed.

End Examples.

(* ===================================================================== *)
(** * Properties of recall/text.py *)
(* ===================================================================== *)

Module TextFacts.
Import Text.

(** ** Characters *)

Ltac all_chars c :=
  destruct c as [[] [] [] [] [] [] [] []]; vm_compute; try reflexivity; try discriminate.

Lemma is_word_lower c : is_word (lower_char c) = is_word c.
Proof. all_chars c. Qed.

Lemma is_space_lower c : is_space (lower_char c) = is_space c.
Proof. all_chars c. Qed.

Lemma lower_char_space c : is_space c = true -> lower_char c = c.
Proof. all_chars c. Qed.

Lemma lower_char_idem c : lower_char (lower_char c) = lower_char c.
Proof. all_chars c. Qed.

Lemma word_not_space c : is_word c = true -> is_space c = false.
Proof. all_chars c. Qed.

Lemma lower_cons c s : lower (c :: s) = lower_char c :: lower s.
Proof. reflexivity. Qed.

Lemma lower_app a b : lower (a ++ b) = lower a ++ lower b.
Proof. apply map_app. Qed.

Lemma lower_idem s : lower (lower s) = lower s.
Proof.
  unfold lower. rewrite map_map. apply map_ext. intros c. apply lower_char_idem.
Qed.

(** ** Whole-word substitution *)

Definition head_nonword (s : str) : bool :=
  match s with
  | [] => true
  | c :: _ => negb (is_word c)
  end.

Section SubRuns.
Variable f : str -> str.
Hypothesis f_nil : f [] = [].

Lemma sub_runs_nil : sub_runs f [] = [].
Proof. unfold sub_runs. simpl. rewrite f_nil. reflexivity. Qed.

Lemma sub_runs_sep c s :
  is_word c = false -> sub_runs f (c :: s) = c :: sub_runs f s.
Proof.
  intros Hc. unfold sub_runs. simpl.
  destruct (runs_aux f s) as [r out]. rewrite Hc, f_nil. reflexivity.
Qed.

Lemma runs_aux_head_nonword s :
  head_nonword s = true -> runs_aux f s = ([], sub_runs f s).
Proof.
  destruct s as [|c s]; intros H.
  - simpl. rewrite sub_runs_nil. reflexivity.
  - simpl in H. apply negb_true_iff in H.
    rewrite sub_runs_sep by assumption.
    unfold sub_runs. simpl. destruct (runs_aux f s) as [r out].
    rewrite H. reflexivity.
Qed.

Lemma runs_aux_run r s :
  forallb is_word r = true -> head_nonword s = true ->
  runs_aux f (r ++ s) = (r, sub_runs f s).
Proof.
  intros Hr Hs. induction r as [|c r IH]; simpl.
  - apply runs_aux_head_nonword. assumption.
  - simpl in Hr. apply andb_true_iff in Hr as [Hc Hr].
    rewrite (IH Hr), Hc. reflexivity.
Qed.

Lemma sub_runs_run r s :
  forallb is_word r = true -> head_nonword s = true ->
  sub_runs f (r ++ s) = f r ++ sub_runs f s.
Proof.
  intros Hr Hs. unfold sub_runs at 1. rewrite runs_aux_run by assumption.
  reflexivity.
Qed.

Lemma head_nonword_sub_runs s :
  head_nonword s = true -> head_nonword (sub_runs f s) = true.
Proof.
  destruct s as [|c s]; intros H.
  - rewrite sub_runs_nil. reflexivity.
  - simpl in H. apply negb_true_iff in H.
    rewrite sub_runs_sep by assumption. simpl. rewrite H. reflexivity.
Qed.
End SubRuns.

(** Every string is a sequence of separators and maximal runs of word
    characters. *)
Inductive runs_view : str -> Prop :=
  | rv_nil : runs_view []
  | rv_sep c s : is_word c = false -> runs_view s -> runs_view (c :: s)
  | rv_run r s :
      r <> [] -> forallb is_word r = true -> head_nonword s = true ->
      runs_view s -> runs_view (r ++ s).

Lemma runs_view_all s : runs_view s.
Proof.
  induction s as [|c s IH].
  - constructor.
  - destruct (is_word c) eqn:Hc; [|constructor; assumption].
    destruct IH as [|d s Hd IH|r s Hne Hr Hs IH].
    + apply (rv_run [c] []); [discriminate|simpl; rewrite Hc; reflexivity|reflexivity|constructor].
    + apply (rv_run [c] (d :: s));
        [discriminate|simpl; rewrite Hc; reflexivity|simpl; rewrite Hd; reflexivity|].
      constructor; assumption.
    + apply (rv_run (c :: r) s);
        [discriminate|simpl; rewrite Hc, Hr; reflexivity|assumption|assumption].
Qed.


(** ** Whitespace *)

Definition head_nonspace (s : str) : bool :=
  match s with
  | [] => true
  | c :: _ => negb (is_space c)
  end.

(** A piece of text without whitespace that is not empty. *)
Definition solid (s : str) : Prop :=
  s <> [] /\ forallb (fun c => negb (is_space c)) s = true.

Lemma lstrip_fix s : head_nonspace s = true -> lstrip s = s.
Proof.
  destruct s as [|c s]; simpl; [reflexivity|].
  intros H. apply negb_true_iff in H. rewrite H. reflexivity.
Qed.

Lemma head_nonspace_lstrip s : head_nonspace (lstrip s) = true.
Proof.
  induction s as [|c s IH]; simpl; [reflexivity|].
  destruct (is_space c) eqn:Hc; [assumption|]. simpl. rewrite Hc. reflexivity.
Qed.

Lemma rstrip_cons_inv c s :
  rstrip (c :: s) = c :: s ->
  (s = [] /\ is_space c = false) \/ (s <> [] /\ rstrip s = s).
Proof.
  simpl. destruct (rstrip s) as [|d t] eqn:E.
  - destruct (is_space c) eqn:Hc; [discriminate|].
    intros H. injection H as <-. left. split; reflexivity.
  - intros H. injection H as <-. right. split; [discriminate|reflexivity].
Qed.

Lemma rstrip_single c : is_space c = false -> rstrip [c] = [c].
Proof. intros H. simpl. rewrite H. reflexivity. Qed.

Lemma rstrip_cons c s : s <> [] -> rstrip s = s -> rstrip (c :: s) = c :: s.
Proof.
  intros Hne H. simpl. rewrite H. destruct s; [contradiction|reflexivity].
Qed.

Lemma rstrip_cons_nonspace c s :
  is_space c = false -> rstrip (c :: s) = c :: rstrip s.
Proof.
  intros H. simpl. rewrite H. destruct (rstrip s); reflexivity.
Qed.

Lemma rstrip_solid_app a b : solid a -> rstrip (a ++ b) = a ++ rstrip b.
Proof.
  intros [Hne Ha]. induction a as [|c a IH]; [contradiction|].
  simpl in Ha. apply andb_true_iff in Ha as [Hc Ha]. apply negb_true_iff in Hc.
  rewrite <- app_comm_cons, rstrip_cons_nonspace by assumption.
  destruct a as [|d a]; [reflexivity|].
  rewrite IH; [reflexivity|discriminate|assumption].
Qed.

Lemma rstrip_idem s : rstrip (rstrip s) = rstrip s.
Proof.
  induction s as [|c s IH]; [reflexivity|].
  simpl. destruct (rstrip s) as [|d t] eqn:E.
  - destruct (is_space c) eqn:Hc; [reflexivity|]. apply rstrip_single. assumption.
  - apply rstrip_cons; [discriminate|assumption].
Qed.

Lemma head_nonspace_rstrip s :
  head_nonspace s = true -> head_nonspace (rstrip s) = true.
Proof.
  destruct s as [|c s]; [reflexivity|]. simpl. intros H.
  destruct (rstrip s); [|simpl; assumption].
  apply negb_true_iff in H. rewrite H. simpl. rewrite H. reflexivity.
Qed.

(** A string that [strip] leaves alone. *)
Definition stripped (s : str) : Prop :=
  head_nonspace s = true /\ rstrip s = s.

Lemma stripped_strip s : stripped (strip s).
Proof.
  split.
  - apply head_nonspace_rstrip, head_nonspace_lstrip.
  - apply rstrip_idem.
Qed.

Lemma strip_stripped s : stripped s -> strip s = s.
Proof. intros [H1 H2]. unfold strip. rewrite lstrip_fix; assumption. Qed.

Lemma rstrip_lower s : rstrip (lower s) = lower (rstrip s).
Proof.
  induction s as [|c s IH]; [reflexivity|].
  rewrite lower_cons. cbn [rstrip]. rewrite IH, is_space_lower.
  destruct (rstrip s); [destruct (is_space c)|]; reflexivity.
Qed.

Lemma stripped_lower s : stripped s -> stripped (lower s).
Proof.
  intros [H1 H2]. split.
  - destruct s as [|c s]; [reflexivity|]. rewrite lower_cons.
    cbn [head_nonspace] in *. rewrite is_space_lower. assumption.
  - rewrite rstrip_lower, H2. reflexivity.
Qed.

Lemma ws_sub_nonempty b s : s <> [] -> rstrip s = s -> ws_sub b s <> [].
Proof.
  revert b. induction s as [|c s IH]; intros b Hne H; [contradiction|].
  simpl. destruct (is_space c) eqn:Hc; [|discriminate].
  destruct b; [|discriminate].
  apply rstrip_cons_inv in H as [[_ H]|[H1 H2]]; [congruence|].
  apply IH; assumption.
Qed.

Lemma rstrip_ws_sub b s : rstrip s = s -> rstrip (ws_sub b s) = ws_sub b s.
Proof.
  revert b. induction s as [|c s IH]; intros b H; [reflexivity|].
  apply rstrip_cons_inv in H as [[-> Hc]|[Hne H]].
  - simpl. rewrite Hc. simpl. rewrite Hc. reflexivity.
  - simpl. destruct (is_space c) eqn:Hc; [destruct b|].
    + apply IH. assumption.
    + apply rstrip_cons; [apply ws_sub_nonempty|apply IH]; assumption.
    + apply rstrip_cons; [apply ws_sub_nonempty|apply IH]; assumption.
Qed.

Lemma stripped_ws_sub s : stripped s -> stripped (ws_sub false s).
Proof.
  intros [H1 H2]. split; [|apply rstrip_ws_sub; assumption].
  destruct s as [|c s]; [reflexivity|]. simpl in *.
  apply negb_true_iff in H1. rewrite H1. simpl. rewrite H1. reflexivity.
Qed.

Lemma lower_ws_sub b s : lower (ws_sub b s) = ws_sub b (lower s).
Proof.
  revert b. induction s as [|c s IH]; intros b; [reflexivity|].
  rewrite lower_cons. cbn [ws_sub]. rewrite is_space_lower.
  destruct (is_space c) eqn:Hc; [destruct b|]; rewrite ?lower_cons, ?IH;
    reflexivity.
Qed.

Lemma ws_sub_idem b' b s :
  (b' = true -> b = true) -> ws_sub b' (ws_sub b s) = ws_sub b s.
Proof.
  revert b' b. induction s as [|c s IH]; intros b' b Hb; [reflexivity|].
  simpl. destruct (is_space c) eqn:Hc; [destruct b|].
  - apply IH. reflexivity.
  - destruct b'; [discriminate Hb; reflexivity|].
    simpl. rewrite IH; reflexivity.
  - simpl. rewrite Hc. destruct b'; rewrite IH; auto; discriminate.
Qed.

Lemma ws_sub_solid_app b a s : solid a -> ws_sub b (a ++ s) = a ++ ws_sub false s.
Proof.
  intros [Hne Ha]. revert b. induction a as [|c a IH]; intros b; [contradiction|].
  simpl in Ha. apply andb_true_iff in Ha as [Hc Ha]. apply negb_true_iff in Hc.
  simpl. rewrite Hc. f_equal.
  destruct a as [|d a]; [reflexivity|].
  apply IH; [discriminate|assumption].
Qed.

Lemma word_run_solid r : r <> [] -> forallb is_word r = true -> solid r.
Proof.
  intros Hne Hr. split; [assumption|].
  apply forallb_forall. intros c Hc.
  rewrite forallb_forall in Hr. rewrite word_not_space; auto.
Qed.


(** ** Whole-word substitution and whitespace *)

Lemma head_nonword_lower s : head_nonword (lower s) = head_nonword s.
Proof. destruct s as [|c s]; [reflexivity|]. rewrite lower_cons. simpl. rewrite is_word_lower. reflexivity. Qed.

Lemma head_nonword_ws_sub s :
  head_nonword s = true -> head_nonword (ws_sub false s) = true.
Proof.
  destruct s as [|c s]; [reflexivity|]. simpl. intros H.
  destruct (is_space c); [reflexivity|]. simpl. assumption.
Qed.

Section SolidRewrite.
Variable f : str -> str.
Hypothesis f_nil : f [] = [].
Hypothesis f_solid :
  forall r, r <> [] -> forallb is_word r = true -> solid (f r).

Lemma sub_runs_ws_sub s :
  forall b, sub_runs f (ws_sub b s) = ws_sub b (sub_runs f s).
Proof.
  induction (runs_view_all s) as [|c s Hc _ IH|r s Hne Hr Hs _ IH]; intros b.
  - simpl. rewrite sub_runs_nil by assumption. reflexivity.
  - rewrite (sub_runs_sep f f_nil c s Hc). simpl.
    destruct (is_space c); [destruct b|].
    + apply IH.
    + rewrite sub_runs_sep, IH by (assumption || reflexivity). reflexivity.
    + rewrite sub_runs_sep, IH by (assumption || reflexivity). reflexivity.
  - rewrite (sub_runs_run f f_nil r s Hr Hs).
    rewrite !ws_sub_solid_app by auto using word_run_solid.
    rewrite sub_runs_run, IH; auto using head_nonword_ws_sub.
Qed.

Lemma sub_runs_nonempty s : s <> [] -> sub_runs f s <> [].
Proof.
  destruct (runs_view_all s) as [|c s Hc _|r s Hne Hr Hs _]; intros H.
  - contradiction.
  - rewrite sub_runs_sep by assumption. discriminate.
  - rewrite sub_runs_run by assumption.
    destruct (f_solid r Hne Hr) as [Hf _].
    destruct (f r); [contradiction|discriminate].
Qed.

Lemma head_nonspace_sub_runs s :
  head_nonspace s = true -> head_nonspace (sub_runs f s) = true.
Proof.
  destruct (runs_view_all s) as [|c s Hc _|r s Hne Hr Hs _]; intros H.
  - rewrite sub_runs_nil by assumption. reflexivity.
  - rewrite sub_runs_sep by assumption. assumption.
  - rewrite sub_runs_run by assumption.
    destruct (f_solid r Hne Hr) as [Hf Hsp].
    destruct (f r) as [|d t]; [contradiction|].
    simpl in *. apply andb_true_iff in Hsp as [Hd _]. assumption.
Qed.

Lemma rstrip_sub_runs s :
  rstrip s = s -> rstrip (sub_runs f s) = sub_runs f s.
Proof.
  induction (runs_view_all s) as [|c s Hc _ IH|r s Hne Hr Hs _ IH]; intros H.
  - rewrite sub_runs_nil by assumption. reflexivity.
  - rewrite sub_runs_sep by assumption.
    apply rstrip_cons_inv in H as [[-> Hsp]|[Hn H]].
    + rewrite sub_runs_nil by assumption. apply rstrip_single. assumption.
    + apply rstrip_cons; [apply sub_runs_nonempty; assumption|auto].
  - rewrite sub_runs_run by assumption.
    rewrite rstrip_solid_app in H by auto using word_run_solid.
    apply app_inv_head in H.
    rewrite rstrip_solid_app, IH by auto. reflexivity.
Qed.

Lemma stripped_sub_runs s : stripped s -> stripped (sub_runs f s).
Proof.
  intros [H1 H2]. split; auto using head_nonspace_sub_runs, rstrip_sub_runs.
Qed.

(** A bracketed word that [f] leaves alone is copied. *)
Lemma sub_runs_bracket a w b t :
  is_word a = false -> is_word b = false ->
  forallb is_word w = true -> f w = w ->
  sub_runs f (a :: w ++ b :: t) = a :: w ++ b :: sub_runs f t.
Proof.
  intros Ha Hb Hw Hf.
  rewrite sub_runs_sep by assumption.
  rewrite sub_runs_run; [|assumption|assumption|simpl; rewrite Hb; reflexivity].
  rewrite Hf, sub_runs_sep by assumption. reflexivity.
Qed.
End SolidRewrite.

Lemma solid_HEX : solid HEX.
Proof. split; [discriminate|reflexivity]. Qed.

Lemma solid_NUM : solid NUM.
Proof. split; [discriminate|reflexivity]. Qed.

Lemma hex_rewrite_solid r :
  r <> [] -> forallb is_word r = true -> solid (hex_rewrite r).
Proof.
  intros. unfold hex_rewrite. destruct (hex_match r);
    auto using solid_HEX, word_run_solid.
Qed.

Lemma num_rewrite_solid r :
  r <> [] -> forallb is_word r = true -> solid (num_rewrite r).
Proof.
  intros. unfold num_rewrite. destruct (num_match r);
    auto using solid_NUM, word_run_solid.
Qed.

(** ** The two substitutions of [mask_for_template_key] in one pass *)

Definition both_rewrite (r : str) : str :=
  if hex_match r then HEX else if num_match r then NUM else r.

Lemma sub_num_sub_hex s :
  sub_num (sub_hex s) = sub_runs both_rewrite s.
Proof.
  unfold sub_num, sub_hex.
  induction (runs_view_all s) as [|c s Hc _ IH|r s Hne Hr Hs _ IH].
  - reflexivity.
  - rewrite !sub_runs_sep by (assumption || reflexivity). rewrite IH. reflexivity.
  - rewrite (sub_runs_run hex_rewrite), (sub_runs_run both_rewrite)
      by (assumption || reflexivity).
    unfold hex_rewrite at 1, both_rewrite at 1. destruct (hex_match r).
    + change (HEX ++ sub_runs hex_rewrite s)
        with ("<"%char :: lit "HEX" ++ ">"%char :: sub_runs hex_rewrite s).
      rewrite sub_runs_bracket by reflexivity. rewrite IH. reflexivity.
    + rewrite sub_runs_run;
        [|reflexivity|assumption|apply head_nonword_sub_runs; auto].
      rewrite IH. reflexivity.
Qed.

(** Masking a key that has been masked and lower-cased changes nothing:
    the lower-cased placeholders are words that neither pattern matches,
    and the other words were not matched the first time. *)
Lemma sub_lower_masked s :
  lower s = s ->
  sub_num (sub_hex (lower (sub_runs both_rewrite s))) =
  lower (sub_runs both_rewrite s).
Proof.
  induction (runs_view_all s) as [|c s Hc _ IH|r s Hne Hr Hs _ IH]; intros Hl.
  - reflexivity.
  - rewrite lower_cons in Hl. injection Hl as Hlc Hl.
    rewrite sub_runs_sep by (assumption || reflexivity).
    rewrite lower_cons. unfold sub_num, sub_hex in *.
    rewrite !sub_runs_sep by (rewrite ?is_word_lower; assumption || reflexivity).
    rewrite IH by assumption. reflexivity.
  - rewrite lower_app in Hl.
    apply app_inj_1 in Hl as [Hlr Hl]; [|unfold lower; apply length_map].
    rewrite sub_runs_run by (assumption || reflexivity).
    rewrite lower_app.
    set (t := lower (sub_runs both_rewrite s)) in *.
    assert (Ht : head_nonword t = true).
    { unfold t. rewrite head_nonword_lower. apply head_nonword_sub_runs; auto. }
    specialize (IH Hl). unfold sub_num, sub_hex in *.
    unfold both_rewrite.
    destruct (hex_match r) eqn:Hh; [|destruct (num_match r) eqn:Hn].
    + change (lower HEX ++ t) with ("<"%char :: lit "hex" ++ ">"%char :: t).
      rewrite sub_runs_bracket by reflexivity.
      rewrite sub_runs_bracket by reflexivity.
      rewrite IH. reflexivity.
    + change (lower NUM ++ t) with ("<"%char :: lit "num" ++ ">"%char :: t).
      rewrite sub_runs_bracket by reflexivity.
      rewrite sub_runs_bracket by reflexivity.
      rewrite IH. reflexivity.
    + rewrite Hlr.
      rewrite (sub_runs_run hex_rewrite) by (assumption || reflexivity).
      unfold hex_rewrite at 1. rewrite Hh.
      rewrite (sub_runs_run num_rewrite);
        [|reflexivity|assumption|apply head_nonword_sub_runs; auto].
      unfold num_rewrite at 1. rewrite Hn, IH. reflexivity.
Qed.

Lemma stripped_mask msg : stripped (mask_for_template_key msg).
Proof.
  unfold mask_for_template_key, sub_num, sub_hex.
  apply stripped_ws_sub.
  apply stripped_sub_runs; [reflexivity|apply num_rewrite_solid|].
  apply stripped_sub_runs; [reflexivity|apply hex_rewrite_solid|].
  apply stripped_lower, stripped_strip.
Qed.


(** ** Masking twice *)

(** C3, as amended.  A second application of [mask_for_template_key]
    returns the key of the first with its letters in lower case, that is
    with the placeholders [<HEX>] and [<NUM>] spelled [<hex>] and [<num>]:
    the function is idempotent exactly on the messages whose key contains
    no placeholder. *)
Theorem mask_twice_lowers_key (msg : str) :
  mask_for_template_key (mask_for_template_key msg) =
  lower (mask_for_template_key msg).
Proof.
  unfold mask_for_template_key at 1.
  rewrite strip_stripped by apply stripped_mask.
  unfold mask_for_template_key.
  set (x := lower (strip msg)).
  assert (Hx : lower x = x) by apply lower_idem.
  rewrite (lower_ws_sub false).
  unfold sub_hex at 1. rewrite (sub_runs_ws_sub hex_rewrite);
    [|reflexivity|apply hex_rewrite_solid].
  unfold sub_num at 1. rewrite (sub_runs_ws_sub num_rewrite);
    [|reflexivity|apply num_rewrite_solid].
  fold (sub_hex (lower (sub_num (sub_hex x)))).
  fold (sub_num (sub_hex (lower (sub_num (sub_hex x))))).
  rewrite (sub_num_sub_hex x), sub_lower_masked by assumption.
  apply ws_sub_idem. intros H. exact H.
Qed.

(** C3, as stated, fails on a message that holds a number: the key of
    ["retry 3"] is ["retry <NUM>"], and the key of that key is
    ["retry <num>"]. *)
Lemma mask_not_idempotent :
  mask_for_template_key (lit "retry 3") = lit "retry <NUM>" /\
  mask_for_template_key (mask_for_template_key (lit "retry 3")) = lit "retry <num>" /\
  mask_for_template_key (mask_for_template_key (lit "retry 3")) <>
  mask_for_template_key (lit "retry 3").
Proof. vm_compute. repeat split; discriminate. Qed.

End TextFacts.

(* ===================================================================== *)
(** * Properties of recall/config.py *)
(* ===================================================================== *)

Module ConfigFacts.
Import Text Regex Config Recurrence EntityExtraction.

(** A token of the BGL logs, as in the comment of the specification. *)
Definition bgl_stamp : str := lit "2005-06-03-15.42.50.363779".

(** The pattern that the default of [token_drop_regex] is meant to be:
    [^\d{4}-\d{2}-\d{2}-\d{2}\.\d{2}\.\d{2}\.\d+$]. *)
Definition rx_dotted_timestamp : Pattern :=
  let d := Cls is_digit in
  mkPattern true
    (seq [rep 4 d; chr "-"; rep 2 d; chr "-"; rep 2 d; chr "-"; rep 2 d;
          chr "."; rep 2 d; chr "."; rep 2 d; chr "."; plus d])
    true.

Lemma bgl_stamp_is_dotted_timestamp : search rx_dotted_timestamp bgl_stamp = true.
Proof. vm_compute. reflexivity. Qed.

(** Three records that carry the same timestamp token. *)
Definition stamped (i : Z) : Z * str := (1000 + i, bgl_stamp ++ lit " RAS KERNEL INFO").

Definition extract_all (msgs : list (Z * str)) : list (list str) :=
  fst
    (fold_left
       (fun acc m =>
          let '(ents, se) := extract (fst m) (snd m) (snd acc) in
          (fst acc ++ [elements ents], se))
       msgs ([], new_stat default_config)).

(** C4: the default pattern does not match a dotted timestamp, so
    [should_drop_token] answers [false] on it; the token then goes through
    the filters of complexity and recurrence, and the third log that
    carries it yields it as an entity. *)
Theorem dotted_timestamp_not_dropped :
  should_drop_token default_config bgl_stamp = false /\
  extract_all [stamped 0; stamped 1; stamped 2] = [[]; []; [bgl_stamp]].
Proof. vm_compute. split; reflexivity. Qed.

End ConfigFacts.

(* ===================================================================== *)
(** * Python lists: slices and sorting *)
(* ===================================================================== *)

Module PyListFacts.
Import PyList.

Lemma slice_to_take {A : Type} (n : Z) (l : list A) :
  exists k, slice_to n l = take k l.
Proof. unfold slice_to. destruct (0 <=? n); eauto. Qed.

Lemma slice_to_length {A : Type} (n : Z) (l : list A) :
  0 <= n -> Z.of_nat (length (slice_to n l)) <= n.
Proof.
  intros H. unfold slice_to. rewrite (proj2 (Z.leb_le 0 n)) by assumption.
  rewrite length_take. lia.
Qed.

Lemma take_In {A : Type} (k : nat) (l : list A) (x : A) :
  In x (take k l) -> In x l.
Proof.
  revert k. induction l as [|y l IH]; intros [|k]; simpl; try tauto.
  intros [H|H]; [auto|right; eauto].
Qed.

Lemma take_StronglySorted {A : Type} (R : A -> A -> Prop) (k : nat) (l : list A) :
  StronglySorted R l -> StronglySorted R (take k l).
Proof.
  intros H. revert k. induction H as [|x l Hs IH Hx]; intros [|k]; simpl;
    try constructor; auto.
  apply List.Forall_forall. intros y Hy. apply take_In in Hy.
  rewrite List.Forall_forall in Hx. auto.
Qed.

Lemma take_NoDup {A : Type} (k : nat) (l : list A) :
  List.NoDup l -> List.NoDup (take k l).
Proof.
  intros H. revert k. induction H as [|x l Hx Hl IH]; intros [|k]; simpl;
    try constructor; auto.
  intros Hin. apply Hx. eapply take_In. eassumption.
Qed.

Lemma map_take {A B : Type} (f : A -> B) (k : nat) (l : list A) :
  map f (take k l) = take k (map f l).
Proof.
  revert k. induction l as [|x l IH]; intros [|k]; simpl; try reflexivity.
  rewrite IH. reflexivity.
Qed.

Section InsertionSort.
Context {A : Type}.
Variable before : A -> A -> bool.

Lemma insert_by_perm x l : Permutation (insert_by before x l) (x :: l).
Proof.
  induction l as [|y l IH]; simpl; [reflexivity|].
  destruct (before x y); [reflexivity|].
  rewrite IH. apply perm_swap.
Qed.

Lemma sort_by_perm l : Permutation (sort_by before l) l.
Proof.
  induction l as [|x l IH]; simpl; [reflexivity|].
  rewrite insert_by_perm. constructor. assumption.
Qed.

Lemma sort_by_In l x : In x (sort_by before l) <-> In x l.
Proof.
  split; apply Permutation_in; [|symmetry]; apply sort_by_perm.
Qed.

(** The order that [before] decides. *)
Variable R : A -> A -> Prop.
Hypothesis before_R : forall x y, before x y = true -> R x y.
Hypothesis not_before_R : forall x y, before x y = false -> R y x.
Hypothesis R_trans : forall x y z, R x y -> R y z -> R x z.

Lemma insert_by_sorted x l :
  StronglySorted R l -> StronglySorted R (insert_by before x l).
Proof.
  induction 1 as [|y l Hs IH Hy]; simpl.
  - constructor; constructor.
  - destruct (before x y) eqn:E.
    + constructor; [constructor; assumption|].
      constructor; [auto|].
      apply List.Forall_forall. intros z Hz. rewrite List.Forall_forall in Hy.
      eapply R_trans; eauto.
    + constructor; [assumption|].
      apply List.Forall_forall. intros z Hz.
      apply (Permutation_in _ (insert_by_perm x l)) in Hz.
      destruct Hz as [<-|Hz]; [auto|].
      rewrite List.Forall_forall in Hy. auto.
Qed.

Lemma sort_by_sorted l : StronglySorted R (sort_by before l).
Proof.
  induction l as [|x l IH]; simpl; [constructor|].
  apply insert_by_sorted. assumption.
Qed.
End InsertionSort.

End PyListFacts.

(* ===================================================================== *)
(** * Comparisons and edge weights *)
(* ===================================================================== *)

Module FloatFacts.
Import Config Float Graph.

Lemma Rltb_true x y : (x < y)%R -> Rltb x y = true.
Proof. intros H. unfold Rltb. destruct (Rlt_dec x y); [reflexivity|contradiction]. Qed.

Lemma Rltb_false x y : (y <= x)%R -> Rltb x y = false.
Proof. intros H. unfold Rltb. destruct (Rlt_dec x y); [lra|reflexivity]. Qed.

Lemma Rleb_true x y : (x <= y)%R -> Rleb x y = true.
Proof. intros H. unfold Rleb. destruct (Rle_dec x y); [reflexivity|contradiction]. Qed.

Lemma Rleb_false x y : (y < x)%R -> Rleb x y = false.
Proof. intros H. unfold Rleb. destruct (Rle_dec x y); [lra|reflexivity]. Qed.

Lemma Rltb_spec x y : Rltb x y = true <-> (x < y)%R.
Proof. unfold Rltb. destruct (Rlt_dec x y); split; intros H; try assumption; try reflexivity; try discriminate; contradiction. Qed.

Lemma Rleb_spec x y : Rleb x y = true <-> (x <= y)%R.
Proof. unfold Rleb. destruct (Rle_dec x y); split; intros H; try assumption; try reflexivity; try discriminate; contradiction. Qed.

Lemma Reqb_spec x y : Reqb x y = true <-> x = y.
Proof. unfold Reqb. destruct (Req_dec_T x y); split; intros H; try assumption; try reflexivity; try discriminate; contradiction. Qed.

Lemma Rltb_irrefl x : Rltb x x = false.
Proof. apply Rltb_false. lra. Qed.

(** An edge weight is a number of the interval (0, 1]. *)
Lemma edge_weight_range c ts now : (0 < _edge_weight c ts now <= 1)%R.
Proof.
  unfold _edge_weight. destruct (Rleb (_lambda c) 0) eqn:E; [lra|].
  assert (Hl : (0 < _lambda c)%R).
  { destruct (Rle_dec (_lambda c) 0) as [H|H]; [|lra].
    apply Rleb_true in H. congruence. }
  split; [apply exp_pos|].
  rewrite <- exp_0. 
  assert (Hd : (0 <= IZR (Z.max 0 (now - ts)))%R) by (apply IZR_le; lia).
  destruct (Req_dec (- _lambda c * IZR (Z.max 0 (now - ts))) 0) as [->|Hne];
    [lra|].
  left. apply exp_increasing. nra.
Qed.

Lemma structural_edge_weight_range g lid e now :
  (0 <= structural_edge_weight g lid e now <= 1)%R.
Proof.
  unfold structural_edge_weight. destruct (get_log g lid); [|lra].
  pose proof (edge_weight_range (cfg g) (ts_sec l) now). lra.
Qed.

Lemma temporal_edge_weight_range g src dst now :
  (0 <= temporal_edge_weight g src dst now <= 1)%R.
Proof.
  unfold temporal_edge_weight. destruct (get_log g dst); [|lra].
  pose proof (edge_weight_range (cfg g) (ts_sec l) now). lra.
Qed.

End FloatFacts.

(* ===================================================================== *)
(** * Properties of recall/recurrence.py and recall/trigger.py *)
(* ===================================================================== *)

Module TriggerFacts.
Import Text Config Float Recurrence Trigger FloatFacts.

(** [TemplateBurstDetector._ema[key]]. *)
Definition ema_of (d : TemplateBurstDetector) (key : str) : EmaStats :=
  default ema_default (ema d !! key).

(** C9: a key whose EMA state is not initialised yet does not fire, for
    every window, [alpha] and [sigma]; and unless the key is empty, its
    state becomes [mean = x], [var = 0], where [x] is the count of the key
    in the window. *)
Theorem first_observation_never_fires
    (d : TemplateBurstDetector) (ts : Z) (key : str) :
  initialized (ema_of d key) = false ->
  fst (push_and_check ts key d) = false /\
  (key <> [] ->
   let d' := snd (push_and_check ts key d) in
   ema d' !! key = Some (mkEma (IZR (count_of (win_counts d') key)) 0 true)).
Proof.
  unfold ema_of. intros Hinit. unfold push_and_check.
  destruct key as [|c key]; [split; [reflexivity|congruence]|].
  cbn [nonempty negb].
  destruct (bd_evict _ _ _ _) as [q counts].
  unfold ema_update. rewrite Hinit. cbn [mean var].
  replace (Rmax 0 0) with 0%R by (symmetry; apply Rmax_left; lra).
  rewrite sqrt_0, Rmult_0_r, Rplus_0_r.
  destruct (Rleb _ 1); cbn [fst snd ema win_counts].
  - split; [reflexivity|]. intros _. apply lookup_insert_eq.
  - split; [apply Rltb_irrefl|]. intros _. apply lookup_insert_eq.
Qed.

Lemma first_observation_never_fires_witness :
  fst (push_and_check 1000 (lit "disk <NUM> full")
         (new_detector 300 (1 / 100) 3)) = false.
Proof.
  apply (first_observation_never_fires
           (new_detector 300 (1 / 100) 3) 1000 (lit "disk <NUM> full")).
  reflexivity.
Defined.

(** C10: when the severity trigger fires, [check] answers ["severity"]
    and the engine, its burst detector included, is the one it was given:
    the queue, the window counts and the EMA states are untouched. *)
Theorem severity_trigger_skips_burst_detector
    (te : TriggerEngine) (ts : Z) (msg : str) :
  enable_severity_trigger (te_cfg te) = true ->
  existsb (fun kw => contains kw (lower msg)) (trigger_keywords (te_cfg te)) = true ->
  check ts msg te = (mkDecision true (lit "severity") None, te) /\
  burst (snd (check ts msg te)) = burst te.
Proof.
  intros Hen Hkw. unfold check, severity_fires. rewrite Hen, Hkw.
  split; reflexivity.
Qed.

Lemma severity_trigger_skips_burst_detector_witness :
  burst (snd (check 1000 (lit "fatal error on node-7") (new_engine default_config)))
  = burst (new_engine default_config).
Proof.
  apply (severity_trigger_skips_burst_detector
           (new_engine default_config) 1000 (lit "fatal error on node-7"));
    vm_compute; reflexivity.
Defined.

End TriggerFacts.

(* ===================================================================== *)
(** * Properties of recall/dynamic_graph.py *)
(* ===================================================================== *)

Module GraphFacts.
Import Text Config Float Graph FloatFacts.

Lemma prune_age_limit_pos c a : prune_age_limit c = Some a -> 0 < a.
Proof.
  unfold prune_age_limit. destruct (Rleb _ 0); [discriminate|].
  destruct (Rleb _ 0); [discriminate|].
  destruct (_ <=? 0) eqn:E; [discriminate|].
  intros H. injection H as <-. lia.
Qed.

(** The graph that holds one log, without entities, after its [add_log]. *)
Definition single_log_graph (c : RecallConfig) (lid ts : Z) (msg : str) (sev : Z)
  : DynamicLogEntityGraph :=
  mkGraph c 1 {[lid := mkLog lid ts msg sev None None]} ∅ {[lid := ∅]} ∅
    [lid] (Some lid).

Lemma add_log_single c lid ts msg sev :
  add_log lid ts msg [] sev (new_graph c) = single_log_graph c lid ts msg sev.
Proof.
  unfold add_log, append_log, single_log_graph, new_graph, with_incidence.
  cbn [cfg step logs entities log_to_entities entity_to_logs log_window
       last_log_id app].
  replace (kept_entities c []) with (∅ : gset str) by reflexivity.
  rewrite elements_empty. cbn [foldr]. reflexivity.
Qed.

(** A [tick] at the time of the only log changes nothing. *)
Lemma tick_single_log c lid ts msg sev :
  tick ts (single_log_graph c lid ts msg sev) = single_log_graph c lid ts msg sev.
Proof.
  set (g := single_log_graph c lid ts msg sev).
  assert (Hl : logs g !! lid = Some (mkLog lid ts msg sev None None))
    by apply lookup_singleton_eq.
  unfold tick.
  assert (He : _evict_logs ts g = g).
  { unfold _evict_logs. destruct (_ <=? 0) eqn:HT; [reflexivity|].
    apply Z.leb_gt in HT. change (cfg g) with c in *.
    change (log_window g) with [lid]. cbn [evict_loop]. rewrite Hl.
    cbn [ts_sec]. rewrite (proj2 (Z.ltb_ge ts (ts - _))) by lia. reflexivity. }
  rewrite He.
  assert (Hp : _prune_edges ts g = g).
  { unfold _prune_edges.
    destruct (prune_age_limit (cfg g)) as [a|] eqn:Ha; [|reflexivity].
    apply prune_age_limit_pos in Ha.
    unfold prune_loops. change (log_window g) with [lid]. cbn [fold_left].
    assert (H1 : prune_incidence (ts - a) lid g = g).
    { unfold prune_incidence. rewrite Hl. cbn [ts_sec].
      rewrite (proj2 (Z.leb_le (ts - a) ts)) by lia. reflexivity. }
    rewrite H1. change (log_window g) with [lid]. cbn [fold_left].
    unfold prune_chain. rewrite Hl. reflexivity. }
  rewrite Hp.
  unfold _prune_entities_by_activity.
  destruct (Rleb _ 0); reflexivity.
Qed.

End GraphFacts.

(* ===================================================================== *)
(** * Configurations *)
(* ===================================================================== *)

Module Configs.
Import Config.

(** The defaults, but for the window, the decay, the threshold of the
    edge weights, the reach of the temporal walk and the budget. *)
Definition custom_config (T : Z) (lam : option R) (theta : R) (k nmax : Z)
  : RecallConfig := {|
  theta_tc := theta_tc default_config;
  theta_rf := theta_rf default_config;
  delta_t_sec := delta_t_sec default_config;
  min_token_len := min_token_len default_config;
  graph_window_t_sec := T;
  decay_lambda := lam;
  theta_w := theta;
  activity_beta := activity_beta default_config;
  activity_alpha := activity_alpha default_config;
  activity_epsilon := activity_epsilon default_config;
  temporal_k := k;
  evidence_budget_nmax := nmax;
  degree_threshold_dmax := degree_threshold_dmax default_config;
  score_a := score_a default_config;
  score_b := score_b default_config;
  score_c := score_c default_config;
  dedup_case_insensitive := dedup_case_insensitive default_config;
  enable_severity_trigger := enable_severity_trigger default_config;
  enable_burst_trigger := enable_burst_trigger default_config;
  burst_sigma := burst_sigma default_config;
  burst_window_sec := Config.burst_window_sec default_config;
  burst_ema_alpha := burst_ema_alpha default_config;
  enable_semantic_channel := enable_semantic_channel default_config;
  semantic_trigger_min_entities := semantic_trigger_min_entities default_config;
  trigger_keywords := trigger_keywords default_config;
  severity_keywords_fatal := severity_keywords_fatal default_config;
  severity_keywords_error := severity_keywords_error default_config;
  entity_blacklist_exact := entity_blacklist_exact default_config;
  entity_blacklist_regex := entity_blacklist_regex default_config;
  token_drop_regex := token_drop_regex default_config
|}.

Lemma custom_config_default :
  custom_config 900 None (5 / 100) 15 30 = default_config.
Proof. reflexivity. Qed.

(** The configuration of the end-to-end scenarios: the defaults, with
    [temporal_k = 3] and [evidence_budget_nmax = 5]. *)
Definition scenario_config : RecallConfig :=
  custom_config 900 None (5 / 100) 3 5.

(** The defaults with [enable_semantic_channel = True], as the flag
    [--enable_semantic_channel] of the runner sets it. *)
Definition semantic_config : RecallConfig := {|
  theta_tc := theta_tc default_config;
  theta_rf := theta_rf default_config;
  delta_t_sec := delta_t_sec default_config;
  min_token_len := min_token_len default_config;
  graph_window_t_sec := graph_window_t_sec default_config;
  decay_lambda := decay_lambda default_config;
  theta_w := theta_w default_config;
  activity_beta := activity_beta default_config;
  activity_alpha := activity_alpha default_config;
  activity_epsilon := activity_epsilon default_config;
  temporal_k := temporal_k default_config;
  evidence_budget_nmax := evidence_budget_nmax default_config;
  degree_threshold_dmax := degree_threshold_dmax default_config;
  score_a := score_a default_config;
  score_b := score_b default_config;
  score_c := score_c default_config;
  dedup_case_insensitive := dedup_case_insensitive default_config;
  enable_severity_trigger := enable_severity_trigger default_config;
  enable_burst_trigger := enable_burst_trigger default_config;
  burst_sigma := burst_sigma default_config;
  burst_window_sec := Config.burst_window_sec default_config;
  burst_ema_alpha := burst_ema_alpha default_config;
  enable_semantic_channel := true;
  semantic_trigger_min_entities := semantic_trigger_min_entities default_config;
  trigger_keywords := trigger_keywords default_config;
  severity_keywords_fatal := severity_keywords_fatal default_config;
  severity_keywords_error := severity_keywords_error default_config;
  entity_blacklist_exact := entity_blacklist_exact default_config;
  entity_blacklist_regex := entity_blacklist_regex default_config;
  token_drop_regex := token_drop_regex default_config
|}.

End Configs.

(* ===================================================================== *)
(** * The scenario S1 *)
(* ===================================================================== *)

Module Scenario.
Import Text Config Float Trigger EntityExtraction Graph Pipeline Configs GraphFacts.


(** A semantic extractor whose replies hold nothing. *)
Definition silent : SemanticEntityExtractor :=
  fun _ _ => mkValidation ∅ ∅ ∅.

Definition S1_message : str := lit "fatal error on node-7".
Definition S1_record : LogRecord := mkRecord 1 1000 S1_message 1.

(** The graph that holds the record of S1 and nothing else. *)
Definition S1_graph : DynamicLogEntityGraph :=
  mkGraph scenario_config 1 {[1 := mkLog 1 1000 S1_message 3 None None]} ∅
    {[1 := ∅]} ∅ [1] (Some 1).

(** Why [node-7] is not extracted: it has two changes of character class
    and has been seen once, and both thresholds are 2. *)
Lemma node7_below_thresholds :
  token_complexity (lit "node-7") false = 2 /\
  theta_tc scenario_config = 2 /\ theta_rf scenario_config = 2 /\
  Recurrence.rf
    (rf_counter (snd (extract 1000 S1_message (new_stat scenario_config))))
    (lit "node-7") = 1.
Proof. vm_compute. repeat split; reflexivity. Qed.

Lemma S1_tick : tick 1000 S1_graph = S1_graph.
Proof. apply (tick_single_log scenario_config 1 1000 S1_message 3). Qed.

(** What the specification expects of S1. *)
Definition S1_expected (o : Output) : Prop :=
  out_triggered o = true /\ trigger_by o = lit "severity" /\
  out_severity o = 3 /\ In (lit "node-7") (entities_final o) /\
  retrieval o = Some (mkRetrievalInfo 0 []).

(** The output of S1, as the code computes it. *)
Definition S1_actual (s : Step) : Prop :=
  let o := step_output s in
  out_triggered o = true /\ trigger_by o = lit "severity" /\
  out_severity o = 3 /\
  entities_stat o = [] /\ entities_stat_validated o = [] /\
  entities_sem o = [] /\ entities_final o = [] /\
  retrieval o = Some (mkRetrievalInfo 0 []) /\
  step_evidence s = [].

Lemma S1_run (sem : SemanticEntityExtractor) :
  exists s,
    process_record (new_pipeline scenario_config sem) S1_record = Some s /\
    S1_actual s.
Proof.
  unfold process_record.
  change (cfg (new_pipeline scenario_config sem)) with scenario_config.
  change (semantic_extractor (new_pipeline scenario_config sem))
    with (@None SemanticEntityExtractor).
  change (stat_extractor (new_pipeline scenario_config sem))
    with (new_stat scenario_config).
  change (graph (new_pipeline scenario_config sem)) with (new_graph scenario_config).
  change (trigger (new_pipeline scenario_config sem)) with (new_engine scenario_config).
  destruct (extract_entities _ _ _ _ _) as [ent_res se] eqn:Ex.
  assert (Hres : ent_res = mkExtraction ∅ ∅ ∅ ∅).
  { apply (f_equal fst) in Ex. vm_compute in Ex. symmetry. exact Ex. }
  subst ent_res. cbn [final estat esem estat_validated].
  assert (Hadd : add_log (log_id S1_record) (ts_sec S1_record) (message S1_record)
                   (elements (∅ : gset str))
                   (severity_level scenario_config (message S1_record))
                   (new_graph scenario_config) = S1_graph)
    by (vm_compute; reflexivity).
  rewrite Hadd. change (ts_sec S1_record) with 1000. rewrite S1_tick.
  destruct (check _ _ _) as [trig te] eqn:Ec.
  assert (Ht : trig = mkDecision true (lit "severity") None).
  { apply (f_equal fst) in Ec. vm_compute in Ec. symmetry. exact Ec. }
  subst trig. cbn [triggered by_].
  assert (Hr : Retrieval.dual_path_retrieve scenario_config S1_graph
                 (log_id S1_record) = [])
    by (vm_compute; reflexivity).
  rewrite Hr.
  destruct (Packaging.build_evidence_pack _ _ _ _) as [pack|] eqn:Ep;
    [|vm_compute in Ep; discriminate].
  eexists. split; [reflexivity|].
  cbn. repeat split; vm_compute; reflexivity.
Qed.

(** C1, as amended.  On the record of S1 the pipeline, started empty,
    answers [triggered = true] by ["severity"] with severity 3 and an
    empty retrieval, and every list of entities of the output is empty:
    [node-7] does not pass the statistical filter on its first
    occurrence. *)
Theorem S1_output (sem : SemanticEntityExtractor) :
  exists s,
    process_record (new_pipeline scenario_config sem) S1_record = Some s /\
    let o := step_output s in
    out_triggered o = true /\ trigger_by o = lit "severity" /\
    out_severity o = 3 /\
    entities_stat o = [] /\ entities_stat_validated o = [] /\
    entities_sem o = [] /\ entities_final o = [] /\
    ~ In (lit "node-7") (entities_final o) /\
    retrieval o = Some (mkRetrievalInfo 0 []) /\
    step_evidence s = [].
Proof.
  destruct (S1_run sem) as (s & Hs & H1 & H2 & H3 & H4 & H5 & H6 & H7 & H8 & H9).
  exists s. split; [exact Hs|]. cbv zeta.
  rewrite H7. repeat split; auto.
Qed.

(** C1, as stated, fails: the entities of the output do not include
    [node-7]. *)
Lemma S1_expected_fails :
  exists s,
    process_record (new_pipeline scenario_config silent) S1_record = Some s /\
    ~ S1_expected (step_output s).
Proof.
  destruct (S1_run silent) as (s & Hs & _ & _ & _ & _ & _ & _ & Hf & _).
  exists s. split; [exact Hs|].
  intros (_ & _ & _ & Hin & _). rewrite Hf in Hin. destruct Hin.
Qed.

End Scenario.

(* ===================================================================== *)
(** * Properties of recall/packaging.py *)
(* ===================================================================== *)

Module PackagingFacts.
Import Text Config Float EntityExtraction Graph Packaging Configs FloatFacts.

Lemma fold_left_same {A B : Type} (f : A -> B -> A) (l : list B) (a : A) :
  (forall a x, f a x = a) -> fold_left f l a = a.
Proof.
  intros H. revert a. induction l as [|x l IH]; intros a; [reflexivity|].
  simpl. rewrite H. apply IH.
Qed.

Section AboveOne.
Variable cfg : RecallConfig.
Hypothesis theta_above : (1 < theta_w cfg)%R.

Lemma struct_edge_suppressed g ids eids now lid acc e :
  struct_edge cfg g ids eids now lid acc e = acc.
Proof.
  unfold struct_edge. destruct (eids !! e); [|reflexivity].
  pose proof (structural_edge_weight_range g lid e now).
  rewrite Rltb_true by lra. reflexivity.
Qed.

Lemma time_edge_suppressed g ids selected now acc lid :
  time_edge cfg g ids selected now acc lid = acc.
Proof.
  unfold time_edge. destruct (get_log g lid) as [ln|]; [|reflexivity].
  destruct (next_log_id ln) as [nxt|]; [|reflexivity].
  destruct (bool_decide _); [|reflexivity].
  pose proof (temporal_edge_weight_range g lid nxt now).
  rewrite Rltb_true by lra. reflexivity.
Qed.

Lemma pack_edges_suppressed g ids eids now ordered :
  pack_edges cfg g ids eids now ordered = [].
Proof.
  unfold pack_edges, time_edges, struct_edges.
  rewrite fold_left_same by (intros; apply time_edge_suppressed).
  rewrite fold_left_same; [reflexivity|].
  intros. apply fold_left_same. intros. apply struct_edge_suppressed.
Qed.
End AboveOne.

(** C2, as amended.  When [theta_w] is above 1, [build_evidence_pack]
    returns a pack for every resident target, and the pack has no edge,
    of either type. *)
Theorem edges_suppressed_above_one
    (cfg : RecallConfig) (g : DynamicLogEntityGraph) (target : Z)
    (evidence : list Retrieval.EvidenceItem) :
  (1 < theta_w cfg)%R ->
  match build_evidence_pack cfg g target evidence with
  | Some pack => edges (graphpack pack) = []
  | None => get_log g target = None
  end.
Proof.
  intros H. unfold build_evidence_pack.
  destruct (get_log g target); [|reflexivity].
  cbn [graphpack edges]. apply pack_edges_suppressed. assumption.
Qed.

(** A graph with one log that refers to one entity. *)
Definition one_log_graph (c : RecallConfig) : DynamicLogEntityGraph :=
  add_log 1 1000 (lit "fatal error on node-7") [lit "node-7"] 3 (new_graph c).

Lemma edges_suppressed_above_one_witness :
  match build_evidence_pack (custom_config 900 None 2 15 30)
          (one_log_graph (custom_config 900 None 2 15 30)) 1 [] with
  | Some pack => edges (graphpack pack) = []
  | None => get_log (one_log_graph (custom_config 900 None 2 15 30)) 1 = None
  end.
Proof.
  apply (edges_suppressed_above_one (custom_config 900 None 2 15 30)
           (one_log_graph (custom_config 900 None 2 15 30)) 1 []).
  cbn. lra.
Defined.


(** The configuration of the boundary: the defaults with [theta_w = 1]. *)
Definition config_theta_one : RecallConfig := custom_config 900 None 1 15 30.

Lemma lambda_theta_one : _lambda config_theta_one = 0%R.
Proof.
  unfold _lambda.
  cbn [decay_lambda config_theta_one custom_config graph_window_t_sec theta_w].
  rewrite !Rleb_false by lra. cbn [orb]. rewrite ln_1. lra.
Qed.

Lemma weight_theta_one lid e now :
  get_log (one_log_graph config_theta_one) lid <> None ->
  structural_edge_weight (one_log_graph config_theta_one) lid e now = 1%R.
Proof.
  unfold structural_edge_weight. destruct (get_log _ lid); [|congruence].
  intros _. unfold _edge_weight.
  change (cfg (one_log_graph config_theta_one)) with config_theta_one.
  rewrite lambda_theta_one, Rleb_true by lra. reflexivity.
Qed.

(** C2, as stated, fails at [theta_w = 1]: the weight of the edge from the
    target to its entity is 1, which is not below the threshold, and the
    edge is emitted. *)
Lemma edges_kept_at_one :
  (theta_w config_theta_one >= 1)%R /\
  exists pack,
    build_evidence_pack config_theta_one (one_log_graph config_theta_one) 1 []
    = Some pack /\
    edges (graphpack pack) =
    [mkEdge (lit "R1") (lit "struct") (lit "L0") (lit "E1") (round6 1)].
Proof.
  split; [cbn; lra|].
  unfold build_evidence_pack.
  destruct (get_log (one_log_graph config_theta_one) 1) as [tgt|] eqn:Hg;
    [|vm_compute in Hg; discriminate].
  eexists. split; [reflexivity|]. cbn [graphpack edges].
  assert (Hts : ts_sec tgt = 1000)
    by (vm_compute in Hg; injection Hg as <-; reflexivity).
  assert (Hnx : next_log_id tgt = None)
    by (vm_compute in Hg; injection Hg as <-; reflexivity).
  rewrite Hts. unfold pack_edges.
  set (ids := log_ids 1 []). set (eids := list_to_map _).
  unfold struct_edges. cbn [map fold_left].
  assert (Hs : PyList.sorted_strs
                 (get_entities_for_log (one_log_graph config_theta_one) 1)
               = [lit "node-7"]) by (vm_compute; reflexivity).
  rewrite Hs. cbn [fold_left]. unfold struct_edge.
  assert (He : eids !! lit "node-7" = Some (lit "E1")) by (vm_compute; reflexivity).
  rewrite He, weight_theta_one by congruence.
  change (theta_w config_theta_one) with 1%R. rewrite Rltb_irrefl.
  unfold time_edges. cbn [fold_left]. unfold time_edge. rewrite Hg, Hnx.
  reflexivity.
Qed.

End PackagingFacts.

(* ===================================================================== *)
(** * Properties of recall/retrieval.py *)
(* ===================================================================== *)

Module RetrievalFacts.
Import Text Config Float PyList Graph Configs FloatFacts PyListFacts.
Import Retrieval.

(** ** Weights *)

Lemma path_walk_range g toward weight_of stop fuel :
  (forall a b, 0 <= weight_of a b <= 1)%R ->
  forall cur w, (0 <= w <= 1)%R ->
  (0 <= snd (path_walk g toward weight_of stop fuel cur w) <= 1)%R.
Proof.
  intros Hw. induction fuel as [|fuel IH]; intros cur w Hr; simpl.
  - destruct (cur =? stop); assumption.
  - destruct (cur =? stop); [assumption|].
    destruct (get_log g cur) as [ln|]; [|assumption].
    destruct (toward ln) as [nb|]; [|assumption].
    apply IH. specialize (Hw cur nb).
    unfold Rmin. destruct (Rle_dec w (weight_of cur nb)); lra.
Qed.

Lemma temporal_path_range g src dst now :
  (0 <= _temporal_path_min_edge_weight g src dst now <= 1)%R.
Proof.
  unfold _temporal_path_min_edge_weight.
  destruct (src =? dst); [lra|].
  pose proof (path_walk_range g prev_log_id
                (fun cur prev => temporal_edge_weight g prev cur now) src 2048
                (fun a b => temporal_edge_weight_range g b a now) dst 1%R) as H1.
  destruct (path_walk g prev_log_id _ src 2048 dst 1%R) as [cur w].
  destruct (cur =? src); [apply H1; lra|].
  pose proof (path_walk_range g next_log_id
                (fun cur nxt => temporal_edge_weight g cur nxt now) dst 2048
                (fun a b => temporal_edge_weight_range g a b now) src 1%R) as H2.
  destruct (path_walk g next_log_id _ dst 2048 src 1%R) as [cur' w'].
  destruct (cur' =? dst); [apply H2; lra|lra].
Qed.

Lemma struct_weight_range g target lid now shared :
  (0 <= struct_weight g target lid now shared <= 1)%R.
Proof.
  unfold struct_weight.
  assert (H : forall l best, (0 <= best <= 1)%R ->
    (0 <= fold_left
            (fun best e =>
               Rmax best
                 (Rmin (structural_edge_weight g target e now)
                       (structural_edge_weight g lid e now))) l best <= 1)%R).
  { induction l as [|e l IH]; intros best Hb; simpl; [assumption|].
    apply IH.
    pose proof (structural_edge_weight_range g target e now).
    pose proof (structural_edge_weight_range g lid e now).
    unfold Rmax, Rmin.
    repeat match goal with |- context [Rle_dec ?a ?b] => destruct (Rle_dec a b) end;
      lra. }
  apply H. lra.
Qed.

(** What every item satisfies, whatever the graph. *)
Definition item_in_range (it : EvidenceItem) : Prop :=
  1 <= dist it /\ (0 <= edge_weight it <= 1)%R.

Lemma make_item_in_range cfg g target tgt st tm lid ln :
  item_in_range (make_item cfg g target tgt st tm lid ln).
Proof.
  unfold item_in_range, make_item. cbn [dist edge_weight]. split; [lia|].
  pose proof (temporal_path_range g target lid (Graph.ts_sec tgt)).
  pose proof (struct_weight_range g target lid (Graph.ts_sec tgt)
                (default ∅ (st.2 !! lid))).
  destruct (bool_decide (is_Some (tm !! lid)));
    destruct (bool_decide (is_Some (st.1 !! lid)));
    unfold Rmax;
    repeat match goal with |- context [Rle_dec ?a ?b] => destruct (Rle_dec a b) end;
    lra.
Qed.

Lemma unsorted_items_in_range cfg g target tgt :
  List.Forall item_in_range (unsorted_items cfg g target tgt).
Proof.
  unfold unsorted_items.
  induction (elements (dedup_ids cfg g target)) as [|lid l IH]; [constructor|].
  cbn [omap list_omap]. destruct (get_log g lid); [|assumption].
  constructor; [apply make_item_in_range|assumption].
Qed.

(** ** Order *)

(** [x] is not after [y]: a higher score, or the same score and a
    timestamp that is not lower. *)
Definition item_ge (x y : EvidenceItem) : Prop :=
  (score y < score x)%R \/ (score x = score y /\ ts_sec y <= ts_sec x).

Lemma key_ltb_false x y : key_ltb x y = false -> item_ge x y.
Proof.
  unfold key_ltb, item_ge. intros H.
  apply orb_false_iff in H as [H1 H2].
  assert (Hs : ~ (score x < score y)%R).
  { intros Hlt. apply Rltb_true in Hlt. congruence. }
  destruct (Req_dec_T (score x) (score y)) as [He|Hne]; [|left; lra].
  right. split; [assumption|].
  apply (proj2 (Reqb_spec _ _)) in He. rewrite He in H2. simpl in H2. lia.
Qed.

Lemma key_ltb_true x y : key_ltb x y = true -> item_ge y x.
Proof.
  unfold key_ltb, item_ge. intros H.
  apply orb_true_iff in H as [H|H].
  - left. apply Rltb_spec. assumption.
  - apply andb_true_iff in H as [H1 H2]. apply Reqb_spec in H1.
    right. split; [congruence|lia].
Qed.

Lemma item_ge_trans x y z : item_ge x y -> item_ge y z -> item_ge x z.
Proof.
  unfold item_ge. intros [H1|[H1 H1']] [H2|[H2 H2']].
  - left. lra.
  - left. lra.
  - left. lra.
  - right. split; [congruence|lia].
Qed.

Lemma sort_items_sorted items : StronglySorted item_ge (sort_items items).
Proof.
  unfold sort_items. apply sort_by_sorted.
  - intros x y H. apply negb_true_iff in H. apply key_ltb_false. assumption.
  - intros x y H. apply negb_false_iff in H. apply key_ltb_true. assumption.
  - apply item_ge_trans.
Qed.

(** C6, as amended.  When the budget is not negative, [dual_path_retrieve]
    returns at most [evidence_budget_nmax] items; and, whatever the
    budget, every item has [dist >= 1] and an [edge_weight] in [0, 1], and
    the items go by descending score, equal scores by descending
    timestamp. *)
Theorem retrieval_bounds
    (cfg : RecallConfig) (g : DynamicLogEntityGraph) (target : Z) :
  let items := dual_path_retrieve cfg g target in
  (0 <= evidence_budget_nmax cfg ->
   Z.of_nat (length items) <= evidence_budget_nmax cfg) /\
  List.Forall item_in_range items /\
  StronglySorted item_ge items.
Proof.
  cbv zeta. unfold dual_path_retrieve.
  destruct (get_log g target) as [tgt|].
  - split; [intros Hn; apply slice_to_length; assumption|].
    destruct (slice_to_take (evidence_budget_nmax cfg)
                (sort_items (unsorted_items cfg g target tgt))) as [k ->].
    split.
    + apply List.Forall_forall. intros it Hit.
      apply take_In in Hit. apply sort_by_In in Hit.
      pose proof (unsorted_items_in_range cfg g target tgt) as H.
      rewrite List.Forall_forall in H. auto.
    + apply take_StronglySorted, sort_items_sorted.
  - split; [intros Hn; simpl; lia|]. split; constructor.
Qed.

(** ** Dedup *)

(** The key of a log. *)
Definition key_of (cfg : RecallConfig) (ln : LogNode) : str :=
  dedup_key cfg (Graph.message ln).

(** The state of [msg2best] once the candidates [seen] have been visited:
    a key maps to a resident candidate that has this key, and no
    candidate with this key is younger. *)
Definition table_ok (cfg : RecallConfig) (g : DynamicLogEntityGraph)
    (seen : list Z) (m : gmap str Z) : Prop :=
  (forall key lid, m !! key = Some lid ->
     In lid seen /\ key <> [] /\
     exists ln, get_log g lid = Some ln /\ key_of cfg ln = key) /\
  (forall c ln, In c seen -> get_log g c = Some ln -> key_of cfg ln <> [] ->
     exists lid lnb, m !! key_of cfg ln = Some lid /\
       get_log g lid = Some lnb /\ Graph.ts_sec ln <= Graph.ts_sec lnb).

Lemma nonempty_false (s : str) : nonempty s = false -> s = [].
Proof. destruct s; [reflexivity|discriminate]. Qed.

Lemma nonempty_true (s : str) : nonempty s = true -> s <> [].
Proof. destruct s; [discriminate|]. intros _. discriminate. Qed.

Lemma table_ok_insert cfg g seen m lid ln :
  table_ok cfg g seen m ->
  get_log g lid = Some ln -> key_of cfg ln <> [] ->
  (forall prev a, m !! key_of cfg ln = Some prev -> get_log g prev = Some a ->
     Graph.ts_sec a <= Graph.ts_sec ln) ->
  table_ok cfg g (seen ++ [lid]) (<[key_of cfg ln := lid]> m).
Proof.
  intros [H1 H2] Hg Hk Hbest. split.
  - intros key lid0 Hl. rewrite lookup_insert in Hl.
    destruct (decide (key_of cfg ln = key)) as [<-|Hne].
    + injection Hl as <-. split; [apply in_or_app; right; left; reflexivity|].
      split; [assumption|]. eauto.
    + destruct (H1 _ _ Hl) as (Hin & Hne' & Hex).
      split; [apply in_or_app; left; assumption|]. split; assumption.
  - intros c lnc Hin Hgc Hkc. apply in_app_or in Hin as [Hin|[<-|[]]].
    + destruct (H2 _ _ Hin Hgc Hkc) as (lid0 & lnb & Hm & Hgb & Hts).
      destruct (decide (key_of cfg ln = key_of cfg lnc)) as [He|Hne].
      * exists lid, ln. rewrite <- He, lookup_insert_eq.
        split; [reflexivity|]. split; [assumption|].
        rewrite <- He in Hm. specialize (Hbest _ _ Hm Hgb). lia.
      * exists lid0, lnb. rewrite lookup_insert_ne by assumption. auto.
    + rewrite Hg in Hgc. injection Hgc as <-.
      exists lid, ln. rewrite lookup_insert_eq. split; [reflexivity|].
      split; [assumption|lia].
Qed.

Lemma table_ok_skip cfg g seen m lid :
  table_ok cfg g seen m ->
  (forall ln, get_log g lid = Some ln -> key_of cfg ln <> [] ->
     exists prev a, m !! key_of cfg ln = Some prev /\ get_log g prev = Some a /\
       Graph.ts_sec ln <= Graph.ts_sec a) ->
  table_ok cfg g (seen ++ [lid]) m.
Proof.
  intros [H1 H2] Hskip. split.
  - intros key lid0 Hl. destruct (H1 _ _ Hl) as (Hin & Hne & Hex).
    split; [apply in_or_app; left; assumption|]. split; assumption.
  - intros c lnc Hin Hgc Hkc. apply in_app_or in Hin as [Hin|[<-|[]]]; eauto.
Qed.

Lemma dedup_visit_ok cfg g seen m lid :
  table_ok cfg g seen m ->
  table_ok cfg g (seen ++ [lid]) (dedup_visit cfg g m lid).
Proof.
  intros Hok. unfold dedup_visit.
  destruct (get_log g lid) as [ln|] eqn:Hg;
    [|apply table_ok_skip; [assumption|intros ln' Hln'; rewrite Hg in Hln'; discriminate]].
  fold (key_of cfg ln).
  destruct (nonempty (key_of cfg ln)) eqn:Hk; cbn [negb].
  2:{ apply table_ok_skip; [assumption|].
      intros ln' Hln'. rewrite Hg in Hln'. injection Hln' as <-.
      apply nonempty_false in Hk. congruence. }
  apply nonempty_true in Hk.
  destruct (m !! key_of cfg ln) as [prev|] eqn:Hm.
  - destruct (get_log g prev) as [a|] eqn:Ha.
    + destruct (Graph.ts_sec a <? Graph.ts_sec ln) eqn:Hlt.
      * apply (table_ok_insert cfg g seen m lid ln); auto.
        intros prev' a' Hp Ha'. rewrite Hm in Hp. injection Hp as <-.
        rewrite Ha in Ha'. injection Ha' as <-. lia.
      * apply table_ok_skip; [assumption|].
        intros ln' Hln' _. rewrite Hg in Hln'. injection Hln' as <-.
        exists prev, a. repeat split; auto. lia.
    + apply (table_ok_insert cfg g seen m lid ln); auto.
      intros prev' a' Hp Ha'. rewrite Hm in Hp. injection Hp as <-. congruence.
  - apply (table_ok_insert cfg g seen m lid ln); auto.
    intros prev' a' Hp. rewrite Hm in Hp. discriminate.
Qed.

Lemma dedup_fold_ok cfg g ids :
  forall seen m, table_ok cfg g seen m ->
  table_ok cfg g (seen ++ ids) (fold_left (dedup_visit cfg g) ids m).
Proof.
  induction ids as [|lid ids IH]; intros seen m Hok; simpl.
  - rewrite app_nil_r. assumption.
  - replace (seen ++ lid :: ids) with ((seen ++ [lid]) ++ ids)
      by (rewrite <- app_assoc; reflexivity).
    apply IH, dedup_visit_ok. assumption.
Qed.

Lemma dedup_table_ok cfg g ids : table_ok cfg g ids (dedup_table cfg g ids).
Proof.
  unfold dedup_table. apply (dedup_fold_ok cfg g ids [] ∅).
  split; [intros key lid H; rewrite lookup_empty in H; discriminate|].
  intros c ln [].
Qed.

Lemma elem_of_dedup_ids cfg g target lid :
  lid ∈ dedup_ids cfg g target <->
  exists key,
    dedup_table cfg g (elements (candidate_ids cfg g target)) !! key = Some lid.
Proof.
  unfold dedup_ids. rewrite elem_of_list_to_set, list_elem_of_fmap. split.
  - intros ([key lid'] & -> & H). apply elem_of_map_to_list in H. eauto.
  - intros [key H]. exists (key, lid). split; [reflexivity|].
    apply elem_of_map_to_list. assumption.
Qed.

(** The item of a candidate: the log it was made from. *)
Definition item_of (cfg : RecallConfig) (g : DynamicLogEntityGraph)
    (target : Z) (it : EvidenceItem) : Prop :=
  exists ln key,
    get_log g (log_id it) = Some ln /\
    message it = Graph.message ln /\ ts_sec it = Graph.ts_sec ln /\
    dedup_table cfg g (elements (candidate_ids cfg g target)) !! key
      = Some (log_id it) /\
    key_of cfg ln = key.

Lemma unsorted_items_of cfg g target tgt it :
  In it (unsorted_items cfg g target tgt) -> item_of cfg g target it.
Proof.
  unfold unsorted_items. intros Hin.
  apply list_elem_of_In, list_elem_of_omap in Hin as (lid & Hlid & Hit).
  apply elem_of_elements, elem_of_dedup_ids in Hlid as [key Hkey].
  destruct (get_log g lid) as [ln|] eqn:Hg; [|discriminate].
  injection Hit as <-. exists ln, key. cbn [log_id message ts_sec].
  repeat split; auto.
  destruct (dedup_table_ok cfg g (elements (candidate_ids cfg g target))) as [H1 _].
  destruct (H1 _ _ Hkey) as (_ & _ & ln' & Hg' & Hk').
  congruence.
Qed.

(** The retained item is a candidate, its key is not empty, and no
    resident candidate with the same key has a larger timestamp. *)
Definition best_of_its_key (cfg : RecallConfig) (g : DynamicLogEntityGraph)
    (target : Z) (it : EvidenceItem) : Prop :=
  log_id it ∈ candidate_ids cfg g target /\
  dedup_key cfg (message it) <> [] /\
  forall c ln,
    c ∈ candidate_ids cfg g target -> get_log g c = Some ln ->
    dedup_key cfg (Graph.message ln) = dedup_key cfg (message it) ->
    Graph.ts_sec ln <= ts_sec it.

Lemma item_of_best cfg g target it :
  item_of cfg g target it -> best_of_its_key cfg g target it.
Proof.
  intros (ln & key & Hg & Hmsg & Hts & Hkey & Hk).
  destruct (dedup_table_ok cfg g (elements (candidate_ids cfg g target)))
    as [H1 H2].
  destruct (H1 _ _ Hkey) as (Hin & Hne & _).
  split; [apply elem_of_elements, list_elem_of_In; assumption|].
  rewrite Hmsg. fold (key_of cfg ln). rewrite Hk.
  split; [assumption|].
  intros c lnc Hc Hgc Hkc. fold (key_of cfg lnc) in Hkc.
  apply elem_of_elements, list_elem_of_In in Hc.
  destruct (H2 c lnc Hc Hgc) as (lid & lnb & Hm & Hgb & Hle); [congruence|].
  rewrite Hkc, Hkey in Hm. injection Hm as <-.
  rewrite Hg in Hgb. injection Hgb as <-. lia.
Qed.

Lemma unsorted_keys_nodup cfg g target tgt :
  List.NoDup
    (map (fun it => dedup_key cfg (message it)) (unsorted_items cfg g target tgt)).
Proof.
  assert (Hinj : forall a b,
    In a (unsorted_items cfg g target tgt) ->
    In b (unsorted_items cfg g target tgt) ->
    dedup_key cfg (message a) = dedup_key cfg (message b) ->
    log_id a = log_id b).
  { intros a b Ha Hb Hab.
    apply unsorted_items_of in Ha as (la & ka & _ & Hma & _ & Hta & Hka).
    apply unsorted_items_of in Hb as (lb & kb & _ & Hmb & _ & Htb & Hkb).
    unfold key_of in *. rewrite <- Hma in Hka. rewrite <- Hmb in Hkb.
    assert (ka = kb) by congruence. subst kb. congruence. }
  revert Hinj. unfold unsorted_items.
  set (F := fun lid => match get_log g lid with
                       | Some ln => Some (make_item cfg g target tgt _ _ lid ln)
                       | None => None end).
  assert (Hid : forall lid it, F lid = Some it -> log_id it = lid).
  { intros lid it. unfold F. destruct (get_log g lid); [|discriminate].
    intros H. injection H as <-. reflexivity. }
  pose proof (NoDup_elements (dedup_ids cfg g target)) as Hnd.
  apply NoDup_ListNoDup in Hnd.
  induction Hnd as [|lid l Hnot Hnd IH]; [intros _; constructor|].
  cbn [omap list_omap]. destruct (F lid) as [it|] eqn:HF; intros Hinj.
  - cbn [map]. constructor.
    + intros Hin. apply in_map_iff in Hin as (it' & Hk & Hin').
      assert (Hl : log_id it' = log_id it).
      { apply Hinj; [right; assumption|left; reflexivity|assumption]. }
      apply Hnot.
      apply list_elem_of_In, list_elem_of_omap in Hin' as (lid' & Hlid' & HF').
      apply Hid in HF'. apply Hid in HF. apply list_elem_of_In. congruence.
    + apply IH. intros a b Ha Hb. apply Hinj; right; assumption.
  - apply IH. assumption.
Qed.

(** C7.  In the list that [dual_path_retrieve] returns no two items have
    the same dedup key, no item has an empty key, and every item is a
    candidate whose timestamp is the largest among the resident candidates
    with its key. *)
Theorem retrieval_dedup
    (cfg : RecallConfig) (g : DynamicLogEntityGraph) (target : Z) :
  let items := dual_path_retrieve cfg g target in
  List.NoDup (map (fun it => dedup_key cfg (message it)) items) /\
  List.Forall (fun it => dedup_key cfg (message it) <> []) items /\
  List.Forall (best_of_its_key cfg g target) items.
Proof.
  cbv zeta. unfold dual_path_retrieve.
  destruct (get_log g target) as [tgt|]; [|repeat split; constructor].
  destruct (slice_to_take (evidence_budget_nmax cfg)
              (sort_items (unsorted_items cfg g target tgt))) as [k ->].
  assert (Hbest : forall it,
    In it (take k (sort_items (unsorted_items cfg g target tgt))) ->
    best_of_its_key cfg g target it).
  { intros it Hit. apply take_In in Hit. apply sort_by_In in Hit.
    apply item_of_best, (unsorted_items_of cfg g target tgt). assumption. }
  split; [|split].
  - rewrite map_take. apply take_NoDup.
    eapply Permutation_NoDup; [|apply (unsorted_keys_nodup cfg g target tgt)].
    apply Permutation_map. symmetry. apply sort_by_perm.
  - apply List.Forall_forall. intros it Hit. apply (Hbest it Hit).
  - apply List.Forall_forall. assumption.
Qed.


(** Three logs in a chain, with no entity. *)
Definition chain_graph (c : RecallConfig) : DynamicLogEntityGraph :=
  add_log 3 1002 (lit "link down") [] 0
    (add_log 2 1001 (lit "fan failure") [] 2
       (add_log 1 1000 (lit "disk full") [] 0 (new_graph c))).

Lemma retrieval_bounds_witness :
  let items := dual_path_retrieve default_config (chain_graph default_config) 2 in
  Z.of_nat (length items) <= 30 /\
  List.Forall item_in_range items /\
  StronglySorted item_ge items.
Proof.
  destruct (retrieval_bounds default_config (chain_graph default_config) 2)
    as (H1 & H2 & H3).
  cbv zeta. split; [apply H1; cbn; lia|]. split; assumption.
Defined.

(** C6, as stated, fails for a negative budget: [items[:-1]] drops the
    last item only, so the log in the middle of a chain of three gets one
    item, which is more than the budget of -1. *)
Lemma retrieval_negative_budget :
  let cfg := custom_config 900 None (5 / 100) 15 (-1) in
  let items := dual_path_retrieve cfg (chain_graph cfg) 2 in
  length items = 1%nat /\
  ~ Z.of_nat (length items) <= evidence_budget_nmax cfg.
Proof.
  cbv zeta.
  set (cfg := custom_config 900 None (5 / 100) 15 (-1)).
  assert (H : length (dual_path_retrieve cfg (chain_graph cfg) 2) = 1%nat).
  { unfold dual_path_retrieve.
    destruct (get_log (chain_graph cfg) 2) as [tgt|] eqn:Hg;
      [|vm_compute in Hg; discriminate].
    unfold slice_to. change (0 <=? evidence_budget_nmax cfg) with false.
    cbv iota. rewrite length_take.
    unfold sort_items.
    rewrite (Permutation_length (sort_by_perm _ _)).
    assert (Hl : length (unsorted_items cfg (chain_graph cfg) 2 tgt) = 2%nat).
    { unfold unsorted_items. 
      assert (Hd : elements (dedup_ids cfg (chain_graph cfg) 2) = [1; 3]
                   \/ elements (dedup_ids cfg (chain_graph cfg) 2) = [3; 1])
        by (vm_compute; auto).
      assert (H1 : get_log (chain_graph cfg) 1 <> None) by (vm_compute; discriminate).
      assert (H3 : get_log (chain_graph cfg) 3 <> None) by (vm_compute; discriminate).
      destruct Hd as [-> | ->]; cbn [omap list_omap];
        destruct (get_log (chain_graph cfg) 1); try contradiction;
        destruct (get_log (chain_graph cfg) 3); try contradiction;
        reflexivity. }
    rewrite Hl. reflexivity. }
  rewrite H. split; [reflexivity|]. cbn. lia.
Qed.

End RetrievalFacts.

(* ===================================================================== *)
(** * The entity blacklist *)
(* ===================================================================== *)

Module BlacklistFacts.
Import Text Config Float Trigger EntityExtraction Graph Pipeline Configs GraphFacts.

(** A semantic extractor whose model, asked for the entities that the
    candidates miss, adds the address of the message. *)
Definition adds_loopback : SemanticEntityExtractor :=
  fun _ _ => mkValidation ∅ {[lit "127.0.0.1"]} ∅.

Definition loopback_message : str := lit "connection refused by 127.0.0.1".
Definition loopback_record : LogRecord := mkRecord 1 1000 loopback_message 0.

Lemma loopback_extraction :
  fst (extract_entities semantic_config (new_stat semantic_config) 1000
         loopback_message (Some adds_loopback))
  = mkExtraction ∅ {[lit "127.0.0.1"]} ∅ ∅.
Proof. vm_compute. reflexivity. Qed.

(** C8: with the semantic channel on, an entity of the blacklist that the
    model adds stays in [esem], which [extract_entities] does not filter
    (it filters [final] and [estat_validated]), and the output shows it in
    [entities_sem]. *)
Theorem blacklisted_entity_in_entities_sem :
  is_blacklisted_entity semantic_config (lit "127.0.0.1") = true /\
  exists s,
    process_record (new_pipeline semantic_config adds_loopback) loopback_record
    = Some s /\
    entities_sem (step_output s) = [lit "127.0.0.1"] /\
    entities_final (step_output s) = [].
Proof.
  split; [vm_compute; reflexivity|].
  unfold process_record.
  change (Pipeline.cfg (new_pipeline semantic_config adds_loopback))
    with semantic_config.
  change (semantic_extractor (new_pipeline semantic_config adds_loopback))
    with (Some adds_loopback).
  change (stat_extractor (new_pipeline semantic_config adds_loopback))
    with (new_stat semantic_config).
  change (graph (new_pipeline semantic_config adds_loopback))
    with (new_graph semantic_config).
  change (Pipeline.ts_sec loopback_record) with 1000.
  change (Pipeline.message loopback_record) with loopback_message.
  change (Pipeline.log_id loopback_record) with 1.
  pose proof loopback_extraction as Hx.
  destruct (extract_entities _ _ _ _ _) as [ent_res se].
  cbn [fst] in Hx. subst ent_res. cbn [final estat esem estat_validated].
  rewrite elements_empty, add_log_single, tick_single_log.
  destruct (check _ _ _) as [trig te].
  destruct (triggered trig).
  - unfold Packaging.build_evidence_pack, get_log, single_log_graph.
    cbn [logs]. rewrite lookup_singleton_eq.
    eexists. split; [reflexivity|]. cbn [step_output entities_sem entities_final].
    split; vm_compute; reflexivity.
  - eexists. split; [reflexivity|]. cbn [step_output entities_sem entities_final].
    split; vm_compute; reflexivity.
Qed.

End BlacklistFacts.

(* ===================================================================== *)
(** * The temporal chain *)
(* ===================================================================== *)

Module ChainFacts.
Import Text Config Float Graph Configs FloatFacts GraphFacts.

(** ** Sequences of operations *)

Inductive Op : Type :=
  | AddLog (lid ts : Z) (msg : str) (ents : list str) (sev : Z)
  | Tick (now : Z).

Definition apply_op (g : DynamicLogEntityGraph) (o : Op) : DynamicLogEntityGraph :=
  match o with
  | AddLog lid ts msg ents sev => add_log lid ts msg ents sev g
  | Tick now => tick now g
  end.

Definition run (ops : list Op) (g : DynamicLogEntityGraph) : DynamicLogEntityGraph :=
  fold_left apply_op ops g.

Definition op_time (o : Op) : Z :=
  match o with
  | AddLog _ ts _ _ _ => ts
  | Tick now => now
  end.

Definition op_id (o : Op) : option Z :=
  match o with
  | AddLog lid _ _ _ _ => Some lid
  | Tick _ => None
  end.

(** The timestamps of the calls do not decrease, and the identifiers of
    the logs grow. *)
Definition well_ordered (ops : list Op) : Prop :=
  StronglySorted Z.le (map op_time ops) /\
  StronglySorted Z.lt (omap op_id ops).

(** ** Walks *)

(** The logs that one meets from [cur] by following [toward], at most
    [fuel] of them. *)
Fixpoint walk (toward : LogNode -> option Z) (fuel : nat)
    (g : DynamicLogEntityGraph) (cur : option Z) : list Z :=
  match fuel, cur with
  | S fuel', Some x =>
      match logs g !! x with
      | Some ln => x :: walk toward fuel' g (toward ln)
      | None => []
      end
  | _, _ => []
  end.

(** ** The fields that the chain lives in *)

Definition chain_fields (g : DynamicLogEntityGraph) :=
  (cfg g, step g, logs g, log_window g, last_log_id g).

Lemma store_deque_chain e dq g : chain_fields (store_deque e dq g) = chain_fields g.
Proof. unfold store_deque. destruct dq; reflexivity. Qed.

Lemma unlink_removed_chain lid e g :
  chain_fields (unlink_removed lid e g) = chain_fields g.
Proof.
  unfold unlink_removed. destruct (entity_to_logs g !! e) as [[|x dq]|];
    try reflexivity. apply store_deque_chain.
Qed.

Lemma unlink_pruned_chain lid e g :
  chain_fields (unlink_pruned lid e g) = chain_fields g.
Proof.
  unfold unlink_pruned. destruct (entity_to_logs g !! e) as [[|x dq]|];
    try reflexivity. apply store_deque_chain.
Qed.

Lemma link_entity_chain lid ts e g :
  chain_fields (link_entity lid ts e g) = chain_fields g.
Proof. reflexivity. Qed.

Lemma drop_entity_chain e g : chain_fields (drop_entity e g) = chain_fields g.
Proof. reflexivity. Qed.

Lemma foldr_chain {A : Type} (f : A -> DynamicLogEntityGraph -> DynamicLogEntityGraph)
    (l : list A) g :
  (forall x g, chain_fields (f x g) = chain_fields g) ->
  chain_fields (foldr f g l) = chain_fields g.
Proof.
  intros H. induction l as [|x l IH]; [reflexivity|].
  simpl. rewrite H. assumption.
Qed.

Lemma fold_left_chain {A : Type}
    (f : DynamicLogEntityGraph -> A -> DynamicLogEntityGraph) (l : list A) g :
  (forall x g, chain_fields (f g x) = chain_fields g) ->
  chain_fields (fold_left f l g) = chain_fields g.
Proof.
  intros H. revert g. induction l as [|x l IH]; intros g; [reflexivity|].
  simpl. rewrite IH. apply H.
Qed.

Lemma prune_entities_chain g :
  chain_fields (_prune_entities_by_activity g) = chain_fields g.
Proof.
  unfold _prune_entities_by_activity.
  destruct (Rleb _ 0); [reflexivity|].
  destruct (negb _); [reflexivity|].
  apply fold_left_chain. intros. apply drop_entity_chain.
Qed.

Lemma chain_fields_inv g1 g2 :
  chain_fields g1 = chain_fields g2 ->
  cfg g1 = cfg g2 /\ step g1 = step g2 /\ logs g1 = logs g2 /\
  log_window g1 = log_window g2 /\ last_log_id g1 = last_log_id g2.
Proof. unfold chain_fields. intros H. injection H as -> -> -> -> ->. auto. Qed.


(** ** Linked lists of logs *)
















(** ** The invariant *)




(** ** [add_log] keeps the invariant *)

Lemma sorted_snoc {A : Type} (R : A -> A -> Prop) (l : list A) (a : A) :
  StronglySorted R l -> (forall x, In x l -> R x a) ->
  StronglySorted R (l ++ [a]).
Proof.
  induction 1 as [|x l Hs IH Hx]; intros Ha; simpl.
  - constructor; constructor.
  - constructor.
    + apply IH. intros y Hy. apply Ha. right. assumption.
    + apply List.Forall_forall. intros y Hy. apply in_app_or in Hy as [Hy|[<-|[]]].
      * rewrite List.Forall_forall in Hx. auto.
      * apply Ha. left. reflexivity.
Qed.



Lemma add_log_chain lid ts msg ents sev g :
  chain_fields (add_log lid ts msg ents sev g)
  = chain_fields (append_log lid ts msg sev g).
Proof.
  unfold add_log. rewrite foldr_chain; [reflexivity|].
  intros. apply link_entity_chain.
Qed.



(** ** [_evict_logs] keeps the invariant *)

Lemma remove_log_chain lid g :
  chain_fields (_remove_log lid g)
  = chain_fields
      (match logs g !! lid with
       | None => g
       | Some ln =>
           with_logs
             (mkGraph (cfg g) (step g) (logs g) (entities g) (log_to_entities g)
                (entity_to_logs g) (log_window g)
                (if bool_decide (last_log_id g = Some lid) then prev_log_id ln
                 else last_log_id g))
             (match next_log_id ln with
              | Some n =>
                  alter (set_prev (prev_log_id ln)) n
                    (match prev_log_id ln with
                     | Some p => alter (set_next (next_log_id ln)) p
                                   (delete lid (logs g))
                     | None => delete lid (logs g)
                     end)
              | None =>
                  match prev_log_id ln with
                  | Some p => alter (set_next (next_log_id ln)) p
                                (delete lid (logs g))
                  | None => delete lid (logs g)
                  end
              end)
       end).
Proof.
  unfold _remove_log. rewrite foldr_chain by (intros; apply unlink_removed_chain).
  destruct (logs g !! lid); reflexivity.
Qed.


Lemma with_window_same g : with_window g (log_window g) = g.
Proof. destruct g. reflexivity. Qed.


Lemma evict_loop_cfg cutoff w :
  forall g, cfg (evict_loop cutoff w g) = cfg g.
Proof.
  induction w as [|x w IH]; intros g; [reflexivity|].
  cbn [evict_loop]. destruct (logs g !! x) as [ln|]; [|reflexivity].
  destruct (ts_sec ln <? cutoff); [|reflexivity].
  rewrite IH.
  pose proof (remove_log_chain x (with_window g w)) as H.
  apply chain_fields_inv in H as (-> & _).
  cbn [logs with_window]. destruct (logs g !! x); reflexivity.
Qed.

Lemma evict_logs_cfg now g : cfg (_evict_logs now g) = cfg g.
Proof.
  unfold _evict_logs. destruct (_ <=? 0); [reflexivity|]. apply evict_loop_cfg.
Qed.

(** ** [_prune_edges] under the default decay *)






(** ** [tick] keeps the invariant *)


(** ** Sequences keep the invariant *)

Lemma add_log_cfg lid ts msg ents sev g :
  cfg (add_log lid ts msg ents sev g) = cfg g.
Proof.
  pose proof (add_log_chain lid ts msg ents sev g) as H.
  apply chain_fields_inv in H as (-> & _). reflexivity.
Qed.



(** ** Walks along a linked list *)








Definition quiet : str := lit "heartbeat ok".




(** ** An explicit decay cuts the chain *)











(** The identifiers have to grow: a second [add_log] with the identifier
    of the newest log links its node to itself. *)
Lemma repeated_id_loops :
  let g := add_log 1 1001 quiet [] 0
             (add_log 1 1000 quiet [] 0 (new_graph default_config)) in
  get_log g 1 = Some (mkLog 1 1001 quiet 0 (Some 1) (Some 1)) /\
  walk next_log_id 3 g (Some 1) = [1; 1; 1].
Proof. vm_compute. split; reflexivity. Qed.

End ChainFacts.

(* ===================================================================== *)
(** * The blacklist in the graph and in the pack *)
(* ===================================================================== *)

Module IncidenceFacts.
Import Text Config Float EntityExtraction Graph ChainFacts PyListFacts.

(** The graph has the configuration [c], and no entity that [c]
    blacklists occurs in its three maps of entities. *)
Definition clean_inc (c : RecallConfig) (g : DynamicLogEntityGraph) : Prop :=
  cfg g = c /\
  (forall lid s e, log_to_entities g !! lid = Some s -> e ∈ s ->
     is_blacklisted_entity c e = false) /\
  (forall e l, entity_to_logs g !! e = Some l -> is_blacklisted_entity c e = false) /\
  (forall e en, entities g !! e = Some en -> is_blacklisted_entity c e = false).

Lemma foldr_keeps {A : Type} (P : DynamicLogEntityGraph -> Prop)
    (f : A -> DynamicLogEntityGraph -> DynamicLogEntityGraph) (Q : A -> Prop)
    (l : list A) g :
  (forall x g, Q x -> P g -> P (f x g)) -> List.Forall Q l -> P g ->
  P (foldr f g l).
Proof.
  intros H Hl Hg. induction Hl as [|x l Hx Hl IH]; simpl; auto.
Qed.

Lemma fold_left_keeps {A : Type} (P : DynamicLogEntityGraph -> Prop)
    (f : DynamicLogEntityGraph -> A -> DynamicLogEntityGraph) (l : list A) :
  (forall x g, P g -> P (f g x)) -> forall g, P g -> P (fold_left f l g).
Proof.
  intros H. induction l as [|x l IH]; intros g Hg; simpl; auto.
Qed.

Lemma everything {A : Type} (l : list A) : List.Forall (fun _ => True) l.
Proof. apply List.Forall_forall. auto. Qed.

Lemma kept_entities_clean c ents e :
  e ∈ kept_entities c ents -> is_blacklisted_entity c e = false.
Proof.
  unfold kept_entities. rewrite elem_of_list_to_set, list_elem_of_filter.
  intros [[_ H] _]. assumption.
Qed.

Lemma link_entity_clean c lid ts e g :
  is_blacklisted_entity c e = false -> clean_inc c g ->
  clean_inc c (link_entity lid ts e g).
Proof.
  intros He (Hc & H1 & H2 & H3). unfold clean_inc, link_entity, with_incidence.
  cbn [cfg log_to_entities entity_to_logs entities].
  split; [assumption|]. split; [assumption|]. split.
  - intros e' l Hl. rewrite lookup_insert in Hl.
    destruct (decide (e = e')) as [<-|Hne]; eauto.
  - intros e' en Hl. rewrite lookup_insert in Hl.
    destruct (decide (e = e')) as [<-|Hne]; eauto.
Qed.

Lemma add_log_clean c lid ts msg ents sev g :
  clean_inc c g -> clean_inc c (add_log lid ts msg ents sev g).
Proof.
  intros (Hc & H1 & H2 & H3). unfold add_log.
  change (cfg (append_log lid ts msg sev g)) with (cfg g). rewrite Hc.
  apply (foldr_keeps (clean_inc c) _
           (fun e => is_blacklisted_entity c e = false)).
  - intros e g'. apply link_entity_clean.
  - apply List.Forall_forall. intros e He.
    apply (kept_entities_clean c ents). apply elem_of_elements, list_elem_of_In.
    assumption.
  - unfold clean_inc, with_incidence, append_log.
    cbn [cfg log_to_entities entity_to_logs entities].
    split; [assumption|]. split; [|split; assumption].
    intros lid' s e Hl He. rewrite lookup_insert in Hl.
    destruct (decide (lid = lid')) as [<-|Hne]; [|eauto].
    injection Hl as <-. apply (kept_entities_clean c ents). assumption.
Qed.

Lemma store_deque_clean c e dq g :
  is_Some (entity_to_logs g !! e) -> clean_inc c g ->
  clean_inc c (store_deque e dq g).
Proof.
  intros [l0 Hl0] (Hc & H1 & H2 & H3). unfold clean_inc, store_deque.
  destruct dq as [|x dq]; unfold with_incidence;
    cbn [cfg log_to_entities entity_to_logs entities];
    (split; [assumption|]); (split; [assumption|]); split.
  - intros e' l Hl. apply lookup_delete_Some in Hl as [_ Hl]. eauto.
  - intros e' en Hl. apply lookup_delete_Some in Hl as [_ Hl]. eauto.
  - intros e' l Hl. rewrite lookup_insert in Hl.
    destruct (decide (e = e')) as [<-|Hne]; eauto.
  - assumption.
Qed.

Lemma unlink_removed_clean c lid e g :
  clean_inc c g -> clean_inc c (unlink_removed lid e g).
Proof.
  intros H. unfold unlink_removed.
  destruct (entity_to_logs g !! e) as [[|x dq]|] eqn:E; try assumption.
  apply store_deque_clean; [rewrite E; eauto|assumption].
Qed.

Lemma unlink_pruned_clean c lid e g :
  clean_inc c g -> clean_inc c (unlink_pruned lid e g).
Proof.
  intros H. unfold unlink_pruned.
  destruct (entity_to_logs g !! e) as [[|x dq]|] eqn:E; try assumption.
  apply store_deque_clean; [rewrite E; eauto|assumption].
Qed.

Lemma remove_log_clean c lid g :
  clean_inc c g -> clean_inc c (_remove_log lid g).
Proof.
  intros (Hc & H1 & H2 & H3). unfold _remove_log.
  apply (foldr_keeps (clean_inc c) _ (fun _ => True)).
  - intros e g' _. apply unlink_removed_clean.
  - apply everything.
  - destruct (logs g !! lid); unfold clean_inc;
      cbn [cfg log_to_entities entity_to_logs entities];
      (split; [assumption|]); (split; [|split; assumption]);
      intros lid' s e Hl He; apply lookup_delete_Some in Hl as [_ Hl]; eauto.
Qed.

Lemma evict_loop_clean c cutoff w :
  forall g, clean_inc c g -> clean_inc c (evict_loop cutoff w g).
Proof.
  induction w as [|x w IH]; intros g Hg; cbn [evict_loop].
  - destruct Hg as (Hc & H1 & H2 & H3). repeat split; assumption.
  - destruct (logs g !! x) as [ln|];
      [destruct (ts_sec ln <? cutoff)|];
      try (destruct Hg as (Hc & H1 & H2 & H3); repeat split; assumption).
    apply IH, remove_log_clean.
    destruct Hg as (Hc & H1 & H2 & H3). repeat split; assumption.
Qed.

Lemma evict_logs_clean c now g :
  clean_inc c g -> clean_inc c (_evict_logs now g).
Proof.
  intros H. unfold _evict_logs. destruct (_ <=? 0); [assumption|].
  apply evict_loop_clean. assumption.
Qed.

Lemma prune_incidence_clean c cutoff lid g :
  clean_inc c g -> clean_inc c (prune_incidence cutoff lid g).
Proof.
  intros H. unfold prune_incidence.
  destruct (logs g !! lid) as [ln|]; [|assumption].
  destruct (cutoff <=? ts_sec ln); [assumption|].
  destruct (log_to_entities g !! lid) as [ents|]; [|assumption].
  destruct (bool_decide (ents = ∅)); [assumption|].
  assert (H' : clean_inc c (foldr (unlink_pruned lid) g (elements ents))).
  { apply (foldr_keeps (clean_inc c) _ (fun _ => True));
      [intros e g' _; apply unlink_pruned_clean|apply everything|assumption]. }
  destruct H' as (Hc & H1 & H2 & H3). unfold clean_inc, with_incidence.
  cbn [cfg log_to_entities entity_to_logs entities].
  split; [assumption|]. split; [|split; assumption].
  intros lid' s e Hl He. rewrite lookup_insert in Hl.
  destruct (decide (lid = lid')) as [<-|Hne]; [|eauto].
  injection Hl as <-. apply not_elem_of_empty in He. contradiction.
Qed.

Lemma prune_chain_clean c cutoff lid g :
  clean_inc c g -> clean_inc c (prune_chain cutoff lid g).
Proof.
  intros H. unfold prune_chain.
  destruct (logs g !! lid) as [ln|]; [|assumption].
  destruct (prev_log_id ln); [|assumption].
  destruct (ts_sec ln <? cutoff); [|assumption].
  destruct H as (Hc & H1 & H2 & H3). repeat split; assumption.
Qed.

Lemma prune_edges_clean c now g :
  clean_inc c g -> clean_inc c (_prune_edges now g).
Proof.
  intros H. unfold _prune_edges.
  destruct (prune_age_limit (cfg g)); [|assumption].
  unfold prune_loops.
  apply fold_left_keeps; [intros; apply prune_chain_clean; assumption|].
  apply fold_left_keeps; [intros; apply prune_incidence_clean; assumption|].
  assumption.
Qed.

Lemma drop_entity_clean c e g : clean_inc c g -> clean_inc c (drop_entity e g).
Proof.
  intros (Hc & H1 & H2 & H3). unfold clean_inc, drop_entity, with_incidence.
  cbn [cfg log_to_entities entity_to_logs entities].
  split; [assumption|]. split; [|split].
  - induction (get_logs_for_entity g e) as [|x l IH]; [exact H1|].
    cbn [foldr]. intros lid s e' Hl He'.
    apply lookup_alter_Some in Hl as [(-> & s0 & Hs0 & ->)|[_ Hl]].
    + apply elem_of_difference in He' as [He' _]. eauto.
    + eauto.
  - intros e' l Hl. apply lookup_delete_Some in Hl as [_ Hl]. eauto.
  - intros e' en Hl. apply lookup_delete_Some in Hl as [_ Hl]. eauto.
Qed.

Lemma prune_entities_clean c g :
  clean_inc c g -> clean_inc c (_prune_entities_by_activity g).
Proof.
  intros H. unfold _prune_entities_by_activity.
  destruct (Rleb _ 0); [assumption|].
  destruct (negb _); [assumption|].
  apply fold_left_keeps; [intros; apply drop_entity_clean; assumption|assumption].
Qed.

Lemma tick_clean c now g : clean_inc c g -> clean_inc c (tick now g).
Proof.
  intros H. unfold tick.
  apply prune_entities_clean, prune_edges_clean, evict_logs_clean. assumption.
Qed.

(** The part of C8 that holds: after every sequence of [add_log] and
    [tick], whatever the entities that the calls pass, no map of the graph
    mentions an entity of the blacklist. *)
Lemma incidence_never_blacklisted (c : RecallConfig) (ops : list Op) :
  clean_inc c (run ops (new_graph c)).
Proof.
  unfold run. apply fold_left_keeps.
  - intros [lid ts msg ents sev|now] g Hg; cbn [apply_op];
      [apply add_log_clean|apply tick_clean]; assumption.
  - unfold clean_inc, new_graph. cbn. repeat split; intros *;
      rewrite lookup_empty; discriminate.
Qed.

Lemma log_nodes_are_logs g ids l id ty v :
  ~ In (Packaging.EntityN id ty v) (Packaging.log_nodes g ids l).
Proof.
  unfold Packaging.log_nodes. induction l as [|lid l IH]; [intros []|].
  cbn [omap list_omap]. destruct (get_log g lid); [|assumption].
  intros [H|H]; [discriminate|auto].
Qed.

(** The entity nodes of a pack are entities of the graph. *)
Lemma pack_entity_nodes_clean c cfg g target evidence pack id ty v :
  clean_inc c g ->
  Packaging.build_evidence_pack cfg g target evidence = Some pack ->
  In (Packaging.EntityN id ty v) (Packaging.nodes (Packaging.graphpack pack)) ->
  is_blacklisted_entity c v = false.
Proof.
  intros (_ & H1 & _) Hb Hin. unfold Packaging.build_evidence_pack in Hb.
  destruct (get_log g target); [|discriminate]. injection Hb as <-.
  cbn [Packaging.graphpack Packaging.nodes] in Hin.
  apply in_app_or in Hin as [Hin|Hin].
  { exfalso.
    exact (log_nodes_are_logs g (Packaging.log_ids target evidence)
             (target :: map Retrieval.log_id evidence) id ty v Hin). }
  unfold Packaging.entity_nodes, Packaging.entity_ids in Hin.
  rewrite map_map in Hin. apply in_map_iff in Hin as ([i e] & Heq & Hin).
  cbn [fst snd] in Heq. injection Heq as _ _ <-.
  assert (He : In e (PyList.sorted_strs
                       (Packaging.pack_entities g (Packaging.log_ids target evidence)))).
  { clear -Hin. revert Hin. generalize 1.
    induction (PyList.sorted_strs _) as [|x l IH]; intros n; [intros []|].
    cbn [Packaging.enumerate]. intros [Heq|Hin].
    - injection Heq as _ ->. left. reflexivity.
    - right. eapply IH. eassumption. }
  unfold PyList.sorted_strs in He. apply sort_by_In in He.
  apply list_elem_of_In, elem_of_elements in He.
  unfold Packaging.pack_entities in He.
  assert (Hfold : forall ids s,
    e ∈ fold_left (fun s lid => get_entities_for_log g lid ∪ s) ids s ->
    e ∈ s \/ exists lid, e ∈ get_entities_for_log g lid).
  { induction ids as [|x ids IH]; intros s Hs; [left; assumption|].
    cbn [fold_left] in Hs. apply IH in Hs as [Hs|Hs]; [|right; assumption].
    apply elem_of_union in Hs as [Hs|Hs]; eauto. }
  apply Hfold in He as [He|[lid He]]; [apply not_elem_of_empty in He; contradiction|].
  unfold get_entities_for_log in He.
  destruct (log_to_entities g !! lid) as [s|] eqn:E;
    [|apply not_elem_of_empty in He; contradiction].
  eapply H1; eassumption.
Qed.

(** The three lists of entities that [extract_entities] filters or that
    come from the statistical extractor alone. *)
Lemma extract_token_clean c counter ents tok :
  (forall e, e ∈ ents -> is_blacklisted_entity c e = false) ->
  forall e, e ∈ extract_token c counter ents tok ->
  is_blacklisted_entity c e = false.
Proof.
  intros H e. unfold extract_token.
  destruct (_ || _); [apply H|].
  destruct (should_drop_token c tok); [apply H|].
  set (ents' := match ipv4_group tok with Some _ => _ | None => _ end).
  assert (H' : forall e, e ∈ ents' -> is_blacklisted_entity c e = false).
  { unfold ents'. destruct (ipv4_group tok) as [ip|]; [|exact H].
    destruct (nonempty ip); cbn [andb]; [|exact H].
    destruct (is_blacklisted_entity c ip) eqn:Hip; cbn [negb]; [exact H|].
    intros e' He'. apply elem_of_union in He' as [He'|He']; [|auto].
    apply elem_of_singleton in He'. subst e'. assumption. }
  destruct (is_blacklisted_entity c tok) eqn:Htok; [apply H'|].
  destruct (_ && _); [|apply H'].
  intros He. apply elem_of_union in He as [He|He]; [|auto].
  apply elem_of_singleton in He. subst e. assumption.
Qed.

Lemma extract_clean ts msg se e :
  e ∈ fst (extract ts msg se) -> is_blacklisted_entity (se_cfg se) e = false.
Proof.
  unfold extract. cbn [fst].
  set (counter := Recurrence.push _ _ _).
  assert (H : forall toks ents,
    (forall e, e ∈ ents -> is_blacklisted_entity (se_cfg se) e = false) ->
    forall e, e ∈ fold_left (extract_token (se_cfg se) counter) toks ents ->
    is_blacklisted_entity (se_cfg se) e = false).
  { induction toks as [|tok toks IH]; intros ents Hents; [exact Hents|].
    cbn [fold_left]. apply IH. apply extract_token_clean. assumption. }
  apply H. intros e' He'. apply not_elem_of_empty in He'. contradiction.
Qed.

Lemma extract_entities_filtered cfg se ts msg semantic e :
  se_cfg se = cfg ->
  let r := fst (extract_entities cfg se ts msg semantic) in
  e ∈ estat r \/ e ∈ estat_validated r \/ e ∈ final r ->
  is_blacklisted_entity cfg e = false.
Proof.
  intros Hcfg. cbv zeta. unfold extract_entities.
  pose proof (extract_clean ts msg se e) as Hstat. rewrite Hcfg in Hstat.
  destruct (extract ts msg se) as [st se'].
  destruct (match semantic with Some _ => _ | None => _ end) as [validated sem].
  cbn [fst estat estat_validated final]. unfold not_blacklisted.
  intros [H|[H|H]]; [auto| |]; apply elem_of_filter in H as [H _]; assumption.
Qed.

End IncidenceFacts.

(* ===================================================================== *)
(** * More on recall/text.py *)
(* ===================================================================== *)

Module TextMore.
Import Text TextFacts.

(** ** Normalisation *)

Lemma stripped_normalize msg ci : stripped (normalize_message_for_dedup msg ci).
Proof.
  unfold normalize_message_for_dedup. apply stripped_ws_sub.
  destruct ci; [apply stripped_lower|]; apply stripped_strip.
Qed.

(** X1.  [normalize_message_for_dedup] is idempotent, with and without
    the folding of case: a dedup key is its own dedup key. *)
Theorem normalize_idempotent (msg : str) (ci : bool) :
  normalize_message_for_dedup (normalize_message_for_dedup msg ci) ci
  = normalize_message_for_dedup msg ci.
Proof.
  unfold normalize_message_for_dedup at 1.
  rewrite strip_stripped by apply stripped_normalize.
  unfold normalize_message_for_dedup. destruct ci.
  - rewrite (lower_ws_sub false), lower_idem.
    apply ws_sub_idem. intros H. exact H.
  - apply ws_sub_idem. intros H. exact H.
Qed.

(** X2.  A template key is already normalised for the dedup that keeps
    the case: it has no whitespace at its ends, and between two words it
    has one space. *)
Theorem template_key_is_normalized (msg : str) :
  normalize_message_for_dedup (mask_for_template_key msg) false
  = mask_for_template_key msg.
Proof.
  unfold normalize_message_for_dedup.
  rewrite strip_stripped by apply stripped_mask.
  unfold mask_for_template_key. apply ws_sub_idem. intros H. exact H.
Qed.

(** ** Tokens *)

Definition no_space (t : str) : Prop :=
  List.Forall (fun c => is_space c = false) t.

Lemma ws_split_aux_no_space in_ws cur s :
  no_space cur ->
  List.Forall no_space (ws_split_aux in_ws cur s).
Proof.
  revert in_ws cur. induction s as [|c s IH]; intros in_ws cur Hcur.
  - constructor; [|constructor]. unfold no_space in *.
    apply List.Forall_forall. intros x Hx. apply in_rev in Hx.
    rewrite List.Forall_forall in Hcur. auto.
  - cbn [ws_split_aux]. destruct (is_space c) eqn:Hc.
    + destruct in_ws; [apply IH; assumption|].
      constructor; [|apply IH; constructor].
      unfold no_space in *. apply List.Forall_forall. intros x Hx.
      apply in_rev in Hx. rewrite List.Forall_forall in Hcur. auto.
    + apply IH. constructor; assumption.
Qed.

Lemma trim_edge_suffix t : exists pre, t = pre ++ trim_edge t.
Proof.
  induction t as [|c t [pre IH]]; [exists []; reflexivity|].
  cbn [trim_edge]. destruct (is_edge_char c).
  - exists []. reflexivity.
  - exists (c :: pre). cbn. rewrite <- IH. reflexivity.
Qed.

Lemma trim_edge_head t c r :
  trim_edge t = c :: r -> is_edge_char c = true.
Proof.
  induction t as [|d t IH]; [discriminate|].
  cbn [trim_edge]. destruct (is_edge_char d) eqn:Hd; [|assumption].
  intros H. injection H as <- _. assumption.
Qed.

Lemma trim_token_In t c : In c (trim_token t) -> In c t.
Proof.
  unfold trim_token. intros H.
  destruct (trim_edge_suffix (rev (trim_edge (rev t)))) as [p1 H1].
  destruct (trim_edge_suffix (rev t)) as [p2 H2].
  assert (Hc : In c (rev (trim_edge (rev t)))).
  { rewrite H1. apply in_or_app. right. assumption. }
  apply in_rev in Hc. apply in_rev. rewrite H2. apply in_or_app. right.
  assumption.
Qed.

Lemma trim_token_ends t :
  trim_token t <> [] ->
  exists a b, head (trim_token t) = Some a /\ last (trim_token t) = Some b /\
              is_edge_char a = true /\ is_edge_char b = true.
Proof.
  unfold trim_token. intros Hne.
  set (r1 := trim_edge (rev t)) in *.
  destruct (trim_edge (rev r1)) as [|a r] eqn:E; [contradiction|].
  exists a. 
  assert (Ha : is_edge_char a = true) by (eapply trim_edge_head; eassumption).
  destruct (trim_edge_suffix (rev r1)) as [pre Hpre]. rewrite E in Hpre.
  destruct r1 as [|b r1'] eqn:E1.
  { destruct pre; discriminate. }
  assert (Hb : is_edge_char b = true) by (eapply trim_edge_head; eassumption).
  exists b. split; [reflexivity|]. split; [|auto].
  assert (Hl : last (rev (b :: r1')) = Some b).
  { cbn [rev]. apply last_snoc. }
  rewrite Hpre in Hl. rewrite last_app in Hl. cbn in Hl.
  destruct (last (a :: r)) eqn:El; [assumption|].
  apply last_None in El. discriminate.
Qed.

(** X3.  Every token of [tokenize_for_entity_candidates] is a piece of
    the message without whitespace, is not empty, and begins and ends with
    a letter, a digit or one of [/ . _ - :]. *)
Theorem tokens_are_trimmed (msg t : str) :
  In t (tokenize_for_entity_candidates msg) ->
  t <> [] /\
  List.Forall (fun c => is_space c = false) t /\
  exists a b, head t = Some a /\ last t = Some b /\
              is_edge_char a = true /\ is_edge_char b = true.
Proof.
  unfold tokenize_for_entity_candidates. destruct msg as [|c0 msg]; [intros []|].
  set (s := strip (c0 :: msg)). intros Hin.
  apply list_elem_of_In, list_elem_of_filter in Hin as [Hne Hin].
  apply list_elem_of_fmap in Hin as (p & -> & Hp).
  apply list_elem_of_filter in Hp as [_ Hp]. apply list_elem_of_In in Hp.
  assert (Hnot : trim_token p <> []) by (destruct (trim_token p); [discriminate|discriminate]).
  split; [assumption|]. split; [|apply trim_token_ends; assumption].
  pose proof (ws_split_aux_no_space false [] s (List.Forall_nil _)) as Hall.
  rewrite List.Forall_forall in Hall. specialize (Hall p Hp).
  unfold no_space in Hall. rewrite List.Forall_forall in Hall.
  apply List.Forall_forall. intros c Hc. apply Hall.
  apply trim_token_In. assumption.
Qed.

Lemma tokens_are_trimmed_witness :
  lit "node-7" <> [] /\
  List.Forall (fun c => is_space c = false) (lit "node-7") /\
  exists a b, head (lit "node-7") = Some a /\ last (lit "node-7") = Some b /\
              is_edge_char a = true /\ is_edge_char b = true.
Proof.
  apply (tokens_are_trimmed (lit " (node-7), is up ") (lit "node-7")).
  vm_compute. left. reflexivity.
Defined.

(** ** Complexity *)

Lemma transitions_range cs last s :
  0 <= transitions cs last s <= Z.of_nat (length s).
Proof.
  revert last. induction s as [|c s IH]; intros last; cbn [transitions length].
  - lia.
  - cbv zeta. specialize (IH (char_type cs c)). destruct (_ =? last); lia.
Qed.

(** The class of a character when the case is ignored. *)
Definition fold_type (ty : Z) : Z := if ty =? 3 then 1 else ty.

Lemma char_type_fold c : char_type false c = fold_type (char_type true c).
Proof.
  unfold char_type, fold_type. destruct (is_digit c); [reflexivity|].
  destruct (is_alpha c); [|reflexivity].
  cbn [andb]. destruct (is_upper c); reflexivity.
Qed.

Lemma transitions_fold last s :
  transitions false (fold_type last) s <= transitions true last s.
Proof.
  revert last. induction s as [|c s IH]; intros last; cbn [transitions];
    cbv zeta; [lia|].
  rewrite char_type_fold. specialize (IH (char_type true c)).
  destruct (char_type true c =? last) eqn:E.
  - apply Z.eqb_eq in E. rewrite <- E, Z.eqb_refl. lia.
  - destruct (fold_type (char_type true c) =? fold_type last); lia.
Qed.

(** X4.  The complexity of a token is at least 0 and at most its length
    less one (0 for a token of fewer than two characters), and telling
    upper case from lower case never lowers it. *)
Theorem token_complexity_range (token : str) (cs : bool) :
  0 <= token_complexity token cs <= Z.max 0 (Z.of_nat (length token) - 1) /\
  token_complexity token false <= token_complexity token true.
Proof.
  split.
  - unfold token_complexity. destruct token as [|c [|d r]]; cbn [length]; try lia.
    pose proof (transitions_range cs (char_type cs c) (d :: r)) as H.
    cbn [length] in H. lia.
  - unfold token_complexity. destruct token as [|c [|d r]]; try lia.
    rewrite (char_type_fold c). apply transitions_fold.
Qed.

End TextMore.

(* ===================================================================== *)
(** * Properties of recall/recurrence.py *)
(* ===================================================================== *)

Module RecurrenceFacts.
Import Text Float Recurrence FloatFacts.

(** ** The recurrence counter *)

(** What the counter queues for a log. *)
Definition entry (p : Z * list str) : Z * gset str := (p.1, unique_tokens p.2).

(** The number of queued token sets that hold [t]. *)
Definition occurrences (q : list (Z * gset str)) (t : str) : Z :=
  Z.of_nat (length (List.filter (fun e => bool_decide (t ∈ e.2)) q)).

(** The counts are the occurrences in the queue. *)
Definition counts_ok (q : list (Z * gset str)) (counts : gmap str Z) : Prop :=
  forall t, count_of counts t = occurrences q t.

(** The pushes of a run, the oldest first. *)
Definition feed (c : TokenRecurrenceCounter) (pushes : list (Z * list str))
  : TokenRecurrenceCounter :=
  fold_left (fun c p => push p.1 p.2 c) pushes c.

(** The logs that a window of [w] seconds ending at [now] holds; a window
    that is not positive holds every log. *)
Definition in_window (w now : Z) (p : Z * list str) : bool :=
  (w <=? 0) || (now - w <=? p.1).

Definition one_if (b : bool) : Z := if b then 1 else 0.

Lemma count_of_incr t u m :
  count_of (incr t m) u = count_of m u + one_if (bool_decide (u = t)).
Proof.
  unfold incr, count_of, one_if. case_bool_decide as E.
  - subst u. rewrite lookup_insert_eq. reflexivity.
  - rewrite lookup_insert_ne by congruence. cbn. lia.
Qed.

Lemma count_of_decr t u m :
  1 <= count_of m t ->
  count_of (decr t m) u = count_of m u - one_if (bool_decide (u = t)).
Proof.
  intros H. unfold decr, one_if. case_bool_decide as E.
  - subst u. destruct (_ <=? 0) eqn:L.
    + apply Z.leb_le in L. unfold count_of at 1. rewrite lookup_delete_eq.
      cbn. lia.
    + unfold count_of at 1. rewrite lookup_insert_eq. reflexivity.
  - destruct (_ <=? 0).
    + unfold count_of. rewrite lookup_delete_ne by congruence. lia.
    + unfold count_of at 1. rewrite lookup_insert_ne by congruence.
      unfold count_of. lia.
Qed.

Lemma one_if_cons (u a : str) l :
  a ∉ l ->
  one_if (bool_decide (u ∈ a :: l))
  = one_if (bool_decide (u = a)) + one_if (bool_decide (u ∈ l)).
Proof.
  intros Ha. unfold one_if.
  repeat case_bool_decide; subst; rewrite ?elem_of_cons in *;
    try lia; exfalso; tauto.
Qed.

Lemma count_of_foldr_incr l m :
  base.NoDup l ->
  forall u, count_of (foldr incr m l) u
            = count_of m u + one_if (bool_decide (u ∈ l)).
Proof.
  induction 1 as [|a l Ha Hl IH]; intros u; cbn [foldr].
  - unfold one_if. rewrite bool_decide_eq_false_2 by apply not_elem_of_nil. lia.
  - rewrite count_of_incr, IH, one_if_cons by assumption. lia.
Qed.

Lemma count_of_foldr_decr l m :
  base.NoDup l ->
  (forall t, t ∈ l -> 1 <= count_of m t) ->
  forall u, count_of (foldr decr m l) u
            = count_of m u - one_if (bool_decide (u ∈ l)).
Proof.
  induction 1 as [|a l Ha Hl IH]; intros Hpos u; cbn [foldr].
  - unfold one_if. rewrite bool_decide_eq_false_2 by apply not_elem_of_nil. lia.
  - assert (Hpos' : forall t, t ∈ l -> 1 <= count_of m t).
    { intros t Ht. apply Hpos. apply elem_of_cons. auto. }
    specialize (IH Hpos').
    assert (H1 : 1 <= count_of (foldr decr m l) a).
    { rewrite IH. unfold one_if. rewrite bool_decide_eq_false_2 by assumption.
      specialize (Hpos a (list_elem_of_here _ _)). lia. }
    rewrite (count_of_decr _ _ _ H1), IH, (one_if_cons _ _ _ Ha). lia.
Qed.

Lemma occurrences_cons ts s q t :
  occurrences ((ts, s) :: q) t = one_if (bool_decide (t ∈ s)) + occurrences q t.
Proof.
  unfold occurrences, one_if. cbn [List.filter snd].
  destruct (bool_decide (t ∈ s)); cbn [length]; lia.
Qed.

Lemma occurrences_snoc ts s q t :
  occurrences (q ++ [(ts, s)]) t = occurrences q t + one_if (bool_decide (t ∈ s)).
Proof.
  unfold occurrences, one_if. rewrite List.filter_app, length_app.
  cbn [List.filter snd]. destruct (bool_decide (t ∈ s)); cbn [length]; lia.
Qed.

Lemma occurrences_nonneg q t : 0 <= occurrences q t.
Proof. unfold occurrences. lia. Qed.

Lemma one_if_elements (s : gset str) t :
  one_if (bool_decide (t ∈ elements s)) = one_if (bool_decide (t ∈ s)).
Proof.
  unfold one_if. repeat case_bool_decide; try reflexivity;
    rewrite elem_of_elements in *; tauto.
Qed.

Lemma evict_tokens_counts cutoff q counts :
  counts_ok q counts ->
  counts_ok (evict_tokens cutoff q counts).1 (evict_tokens cutoff q counts).2.
Proof.
  revert counts. induction q as [|[ts s] q IH]; intros counts Hok; [exact Hok|].
  cbn [evict_tokens]. destruct (ts <? cutoff); [|exact Hok].
  apply IH. intros t.
  rewrite count_of_foldr_decr.
  - rewrite Hok, occurrences_cons, one_if_elements. lia.
  - apply NoDup_elements.
  - intros u Hu. rewrite Hok, occurrences_cons, <- one_if_elements.
    unfold one_if at 1. rewrite bool_decide_eq_true_2 by assumption.
    pose proof (occurrences_nonneg q u). lia.
Qed.

(** A push keeps the counts equal to the occurrences in the queue. *)
Lemma push_counts ts toks c :
  counts_ok (rc_q c) (rc_counts c) ->
  counts_ok (rc_q (push ts toks c)) (rc_counts (push ts toks c)).
Proof.
  intros Hok. unfold push, rc_evict. cbn [window_sec rc_q rc_counts].
  set (s := unique_tokens toks).
  assert (H1 : counts_ok (rc_q c ++ [(ts, s)])
                 (foldr incr (rc_counts c) (elements s))).
  { intros t. rewrite count_of_foldr_incr by apply NoDup_elements.
    rewrite Hok, occurrences_snoc, one_if_elements. reflexivity. }
  destruct (_ <=? 0); [exact H1|].
  pose proof (evict_tokens_counts (ts - window_sec c) _ _ H1) as H2.
  destruct (evict_tokens _ _ _) as [q counts]. exact H2.
Qed.

Lemma push_window ts toks c : window_sec (push ts toks c) = window_sec c.
Proof.
  unfold push, rc_evict. cbn [window_sec rc_q rc_counts].
  destruct (_ <=? 0); [reflexivity|].
  destruct (evict_tokens _ _ _). reflexivity.
Qed.

(** ** The queue *)

Definition sorted_ts (l : list (Z * list str)) : Prop :=
  StronglySorted (fun p q : Z * list str => p.1 <= q.1) l.

Lemma sorted_ts_filter f l : sorted_ts l -> sorted_ts (List.filter f l).
Proof.
  induction 1 as [|p l Hl IH Hall]; cbn [List.filter]; [constructor|].
  destruct (f p); [|assumption].
  constructor; [assumption|].
  apply List.Forall_forall. intros x Hx.
  rewrite List.Forall_forall in Hall.
  apply List.filter_In in Hx as [Hx _]. auto.
Qed.

Lemma sorted_ts_app l1 l2 : sorted_ts (l1 ++ l2) -> sorted_ts l1.
Proof.
  induction l1 as [|p l1 IH]; cbn [app]; intros H; [constructor|].
  apply StronglySorted_inv in H as [H Hall].
  constructor; [apply IH; exact H|].
  apply List.Forall_forall. intros x Hx.
  rewrite List.Forall_forall in Hall. apply Hall.
  apply in_or_app. auto.
Qed.

Lemma sorted_ts_last l p x : sorted_ts (l ++ [p]) -> In x l -> x.1 <= p.1.
Proof.
  induction l as [|a l IH]; cbn [app]; intros H; [intros []|].
  apply StronglySorted_inv in H as [H Hall]. intros [->|Hx]; [|auto].
  rewrite List.Forall_forall in Hall. apply Hall. apply in_or_app.
  right. left. reflexivity.
Qed.

(** On a queue in the order of time the loop of [_evict] leaves the
    entries that are not older than the cutoff. *)
Lemma evict_tokens_queue cutoff l counts :
  sorted_ts l ->
  (evict_tokens cutoff (map entry l) counts).1
  = map entry (List.filter (fun p => cutoff <=? p.1) l).
Proof.
  intros Hs. revert counts.
  induction Hs as [|p l Hl IH Hall]; intros counts; [reflexivity|].
  cbn [map List.filter]. unfold entry at 1. cbn [evict_tokens].
  destruct (p.1 <? cutoff) eqn:E.
  - apply Z.ltb_lt in E. rewrite (proj2 (Z.leb_gt cutoff p.1)) by lia.
    apply IH.
  - apply Z.ltb_ge in E. rewrite (proj2 (Z.leb_le cutoff p.1)) by lia.
    cbn [fst map]. f_equal. f_equal.
    clear IH Hl. induction l as [|a l IH]; [reflexivity|].
    apply List.Forall_cons_iff in Hall as [Ha Hall]. cbn [List.filter].
    rewrite (proj2 (Z.leb_le cutoff a.1)) by lia. f_equal. auto.
Qed.

Lemma filter_window_twice (c1 c2 : Z) (l : list (Z * list str)) :
  c1 <= c2 ->
  List.filter (fun p => c2 <=? p.1) (List.filter (fun p => c1 <=? p.1) l)
  = List.filter (fun p => c2 <=? p.1) l.
Proof.
  intros H. induction l as [|a l IH]; [reflexivity|]. cbn [List.filter].
  destruct (c1 <=? a.1) eqn:E1; cbn [List.filter].
  - rewrite IH. reflexivity.
  - apply Z.leb_gt in E1. rewrite (proj2 (Z.leb_gt c2 a.1)) by lia. exact IH.
Qed.

Lemma filter_all {A} (f : A -> bool) l :
  (forall x, In x l -> f x = true) -> List.filter f l = l.
Proof.
  induction l as [|a l IH]; intros H; [reflexivity|]. cbn [List.filter].
  rewrite (H a) by (left; reflexivity). f_equal. apply IH.
  intros x Hx. apply H. right. assumption.
Qed.

Lemma feed_snoc c l p : feed c (l ++ [p]) = push p.1 p.2 (feed c l).
Proof. unfold feed. rewrite fold_left_app. reflexivity. Qed.

Lemma feed_window c l : window_sec (feed c l) = window_sec c.
Proof.
  induction l as [|p l IH] using rev_ind; [reflexivity|].
  rewrite feed_snoc, push_window. assumption.
Qed.

Lemma feed_counts w l :
  counts_ok (rc_q (feed (new_counter w) l)) (rc_counts (feed (new_counter w) l)).
Proof.
  induction l as [|p l IH] using rev_ind.
  - intros t. reflexivity.
  - rewrite feed_snoc. apply push_counts. assumption.
Qed.

(** The queue after a run of pushes in the order of time: the logs of the
    window that ends at the last push. *)
Lemma feed_queue w l p :
  sorted_ts (l ++ [p]) ->
  rc_q (feed (new_counter w) (l ++ [p]))
  = map entry (List.filter (in_window w p.1) (l ++ [p])).
Proof.
  revert p. induction l as [|p' l IH] using rev_ind; intros p Hs.
  - cbn [app]. unfold feed. cbn [fold_left]. unfold push, rc_evict, new_counter.
    cbn [window_sec rc_q rc_counts app List.filter]. unfold in_window.
    destruct (w <=? 0) eqn:Hw; [reflexivity|].
    apply Z.leb_gt in Hw.
    pose proof (evict_tokens_queue (p.1 - w) [p]
                  (foldr incr ∅ (elements (unique_tokens p.2)))
                  ltac:(repeat constructor)) as H.
    cbn [map] in H. unfold entry at 1 in H.
    destruct (evict_tokens _ _ _) as [q counts]. cbn [fst rc_q] in *.
    rewrite H. cbn [List.filter orb]. reflexivity.
  - rewrite feed_snoc. specialize (IH p' (sorted_ts_app _ _ Hs)).
    assert (Hle : p'.1 <= p.1).
    { eapply sorted_ts_last; [exact Hs|]. apply in_or_app. right. left.
      reflexivity. }
    unfold push, rc_evict. cbn [window_sec rc_q rc_counts].
    rewrite feed_window. change (window_sec (new_counter w)) with w.
    rewrite IH. unfold in_window.
    destruct (w <=? 0) eqn:Hw; cbn [rc_q orb].
    + rewrite !filter_all by reflexivity.
      rewrite !map_app. reflexivity.
    + apply Z.leb_gt in Hw.
      set (kept := List.filter (fun p0 : Z * list str => p'.1 - w <=? p0.1) (l ++ [p'])).
      change ((p.1, unique_tokens p.2)) with (entry p).
      change [entry p] with (map entry [p]). rewrite <- map_app.
      assert (Hk : kept ++ [p]
                   = List.filter (fun p0 : Z * list str => p'.1 - w <=? p0.1)
                       ((l ++ [p']) ++ [p])).
      { rewrite List.filter_app. cbn [List.filter].
        rewrite (proj2 (Z.leb_le (p'.1 - w) p.1)) by lia. reflexivity. }
      pose proof (evict_tokens_queue (p.1 - w) (kept ++ [p])
                    (foldr incr (rc_counts (feed (new_counter w) (l ++ [p'])))
                       (elements (unique_tokens p.2)))) as H.
      destruct (evict_tokens _ _ _) as [q counts]. cbn [fst rc_q] in *.
      rewrite H by (rewrite Hk; apply sorted_ts_filter; assumption).
      rewrite Hk, filter_window_twice by lia. reflexivity.
Qed.

Lemma occurrences_entries f t (r : list (Z * list str)) :
  occurrences (map entry (List.filter f r)) t
  = Z.of_nat (length (List.filter
       (fun x => f x && bool_decide (t ∈ unique_tokens x.2)) r)).
Proof.
  unfold occurrences. apply f_equal.
  induction r as [|a r IH]; [reflexivity|].
  cbn [List.filter]. destruct (f a); cbn [map List.filter andb].
  - unfold entry at 1. cbn [snd].
    destruct (bool_decide _); cbn [length]; rewrite IH; reflexivity.
  - exact IH.
Qed.

(** X5.  After a run of pushes in the order of time, [rf(t)] is the number
    of the pushed logs that hold the token [t] and are not older than the
    window that ends at the last push; a window that is not positive
    counts every log. *)
Theorem rf_counts_the_window (w : Z) (l : list (Z * list str))
    (p : Z * list str) (t : str) :
  sorted_ts (l ++ [p]) ->
  rf (feed (new_counter w) (l ++ [p])) t
  = Z.of_nat (length (List.filter
       (fun x => in_window w p.1 x && bool_decide (t ∈ unique_tokens x.2))
       (l ++ [p]))).
Proof.
  intros Hs. unfold rf. rewrite feed_counts, (feed_queue w l p Hs).
  apply occurrences_entries.
Qed.

Lemma rf_counts_the_window_witness :
  rf (feed (new_counter 300)
        ([(0, [lit "a"; lit "b"]); (100, [lit "a"])] ++ [(350, [lit "a"; lit "a"])]))
     (lit "a") = 2.
Proof.
  rewrite (rf_counts_the_window 300 [(0, [lit "a"; lit "b"]); (100, [lit "a"])]
             (350, [lit "a"; lit "a"]) (lit "a")).
  - vm_compute. reflexivity.
  - repeat constructor; cbn; lia.
Defined.

(** ** The burst detector *)

(** X6.  The burst detector fires only for a template key that is not
    empty and that the window holds at least twice, whatever [alpha] and
    [sigma] are. *)
Theorem burst_needs_two_in_window
    (d : TemplateBurstDetector) (ts : Z) (key : str) :
  (push_and_check ts key d).1 = true ->
  key <> [] /\ 2 <= count_of (win_counts (push_and_check ts key d).2) key.
Proof.
  unfold push_and_check. destruct key as [|c key]; [discriminate|].
  cbn [nonempty negb]. destruct (bd_evict _ _ _ _) as [q counts].
  set (st := ema_update _ _ _).
  destruct (Rleb _ 1) eqn:E1; [discriminate|]. cbn [fst snd win_counts].
  intros E2. split; [discriminate|].
  apply Rltb_spec in E2.
  assert (E3 : ~ (mean st + sigma d * sqrt (Rmax (var st) 0) <= 1)%R).
  { intros H. apply Rleb_spec in H. congruence. }
  assert (H : (1 < IZR (count_of counts (c :: key)))%R) by lra.
  apply lt_IZR in H. lia.
Qed.


(** The detector of the default configuration after one log of the key. *)
Definition seen_once (key : str) : TemplateBurstDetector :=
  mkDetector 300 (1 / 100) 3 [(0, key)] {[key := 1]} {[key := mkEma 1 0 true]}.

Lemma sqrt_small : (sqrt (99 / 10000) < 1 / 10)%R.
Proof.
  replace (1 / 10)%R with (sqrt (1 / 100)).
  - apply sqrt_lt_1; lra.
  - replace (1 / 100)%R with ((1 / 10) * (1 / 10))%R by lra.
    apply sqrt_square. lra.
Qed.

(** The second log of a key, one second after the first, is a burst. *)
Lemma second_log_fires :
  (push_and_check 1 (lit "a") (seen_once (lit "a"))).1 = true.
Proof.
  unfold push_and_check, seen_once.
  cbn [nonempty negb lit list_ascii_of_string bd_q win_counts Recurrence.burst_window_sec
       ema_alpha sigma ema].
  assert (H : bd_evict 1 ([(0, lit "a")] ++ [(1, lit "a")])
                (incr (lit "a") {[lit "a" := 1]}) 300
              = ([(0, lit "a"); (1, lit "a")], {[lit "a" := 2]})).
  { vm_compute. reflexivity. }
  cbn [lit list_ascii_of_string] in H. rewrite H.
  assert (Hc : count_of ({[lit "a" := 2]} : gmap str Z) (lit "a") = 2)
    by (vm_compute; reflexivity).
  cbn [lit list_ascii_of_string] in Hc. rewrite Hc.
  rewrite lookup_singleton_eq. cbn [default from_option Datatypes.id].
  unfold ema_update. cbn [initialized mean var].
  set (m := ((1 - 1 / 100) * 1 + 1 / 100 * 2)%R).
  set (v := ((1 - 1 / 100) * 0 + 1 / 100 * (2 - 1) * (2 - m))%R).
  assert (Hv : v = (99 / 10000)%R) by (unfold v, m; field).
  assert (Hs : (sqrt (Rmax v 0) < 1 / 10)%R).
  { rewrite Rmax_left by lra. rewrite Hv. apply sqrt_small. }
  assert (Hp : (0 <= sqrt (Rmax v 0))%R) by apply sqrt_pos.
  rewrite Rleb_false by (unfold m; lra).
  cbn [fst]. apply Rltb_true. unfold m. lra.
Qed.

Lemma burst_needs_two_in_window_witness :
  2 <= count_of (win_counts (push_and_check 1 (lit "a") (seen_once (lit "a"))).2)
         (lit "a").
Proof.
  apply (burst_needs_two_in_window (seen_once (lit "a")) 1 (lit "a")).
  apply second_log_fires.
Defined.
End RecurrenceFacts.

(* ===================================================================== *)
(** * Properties of recall/metrics.py *)
(* ===================================================================== *)

Module MetricsFacts.
Import Float Metrics FloatFacts.

Definition counted (m : Metrics) : Prop :=
  0 <= tp m /\ 0 <= fp m /\ 0 <= tn m /\ 0 <= fn m.

Lemma count_pair_counted m x : counted m -> counted (count_pair m x).
Proof.
  intros (H1 & H2 & H3 & H4). destruct x as [t p]. unfold count_pair, counted.
  destruct (t =? 1), (p =? 1); cbn [tp fp tn fn]; lia.
Qed.

Lemma count_pair_total m x : total (count_pair m x) = total m + 1.
Proof.
  destruct x as [t p]. unfold count_pair, total.
  destruct (t =? 1), (p =? 1); cbn [tp fp tn fn]; lia.
Qed.

Lemma fold_count_pair l m :
  counted m ->
  counted (fold_left count_pair l m) /\
  total (fold_left count_pair l m) = total m + Z.of_nat (length l).
Proof.
  revert m. induction l as [|x l IH]; intros m Hm; cbn [fold_left length].
  - split; [assumption|lia].
  - destruct (IH _ (count_pair_counted m x Hm)) as [H1 H2].
    split; [assumption|]. rewrite H2, count_pair_total. lia.
Qed.

Lemma compute_metrics_counted t p : counted (compute_metrics t p).
Proof.
  unfold compute_metrics. apply fold_count_pair. unfold counted. cbn. lia.
Qed.

(** X7.  [compute_metrics] counts every pair of [zip(true_labels,
    pred_labels)] in exactly one of the four cells: no cell is negative,
    and [total] is the length of the shorter list. *)
Theorem compute_metrics_total (true_labels pred_labels : list Z) :
  let m := compute_metrics true_labels pred_labels in
  0 <= tp m /\ 0 <= fp m /\ 0 <= tn m /\ 0 <= fn m /\
  total m = Z.of_nat (Nat.min (length true_labels) (length pred_labels)).
Proof.
  cbv zeta. unfold compute_metrics.
  destruct (fold_count_pair (combine true_labels pred_labels) (mkMetrics 0 0 0 0))
    as [(H1 & H2 & H3 & H4) H5]; [unfold counted; cbn; lia|].
  rewrite H5, length_combine. unfold total. cbn [tp fp tn fn].
  split; [assumption|]. split; [assumption|]. split; [assumption|].
  split; [assumption|]. lia.
Qed.

Lemma ratio_range a b : 0 <= a -> 0 <= b ->
  (0 <= (if a + b =? 0 then 0 else IZR a / IZR (a + b)) <= 1)%R.
Proof.
  intros Ha Hb. destruct (a + b =? 0) eqn:E; [lra|].
  apply Z.eqb_neq in E.
  assert (Hd : (0 < IZR (a + b))%R) by (apply IZR_lt; lia).
  assert (Hn : (0 <= IZR a)%R) by (apply IZR_le; lia).
  assert (Hle : (IZR a <= IZR (a + b))%R) by (apply IZR_le; lia).
  split.
  - apply Rmult_le_pos; [assumption|]. left. apply Rinv_0_lt_compat. assumption.
  - apply Rmult_le_reg_r with (IZR (a + b)); [assumption|].
    unfold Rdiv. rewrite Rmult_assoc, Rinv_l by lra. lra.
Qed.

Lemma precision_range m : counted m -> (0 <= precision m <= 1)%R.
Proof. intros (H1 & H2 & _). apply ratio_range; assumption. Qed.

Lemma recall_range m : counted m -> (0 <= recall m <= 1)%R.
Proof. intros (H1 & _ & _ & H4). apply ratio_range; assumption. Qed.

(** The harmonic mean in closed form. *)
Lemma f1_closed m :
  counted m ->
  f1 m = if 2 * tp m + fp m + fn m =? 0 then 0%R
         else (IZR (2 * tp m) / IZR (2 * tp m + fp m + fn m))%R.
Proof.
  intros (H1 & H2 & H3 & H4). unfold f1, precision, recall.
  destruct (Z.eq_dec (tp m) 0) as [E0|E0].
  - rewrite E0. cbn [Z.add Z.mul].
    assert (Hz : forall d, (if d =? 0 then 0 else 0 / IZR d)%R = 0%R).
    { intros d. destruct (d =? 0); [reflexivity|]. unfold Rdiv. lra. }
    rewrite !Hz.
    replace (Reqb (0 + 0) 0) with true
      by (symmetry; apply Reqb_spec; lra).
    reflexivity.
  - rewrite (proj2 (Z.eqb_neq (tp m + fp m) 0)) by lia.
    rewrite (proj2 (Z.eqb_neq (tp m + fn m) 0)) by lia.
    rewrite (proj2 (Z.eqb_neq (2 * tp m + fp m + fn m) 0)) by lia.
    rewrite !plus_IZR, mult_IZR.
    assert (Ht : (0 < IZR (tp m))%R) by (apply IZR_lt; lia).
    assert (Hp : (0 <= IZR (fp m))%R) by (apply IZR_le; lia).
    assert (Hn : (0 <= IZR (fn m))%R) by (apply IZR_le; lia).
    set (a := IZR (tp m)) in *. set (b := IZR (fp m)) in *.
    set (c := IZR (fn m)) in *.
    assert (Hs : (a / (a + b) + a / (a + c) <> 0)%R).
    { assert (0 < a / (a + b))%R
        by (apply Rdiv_lt_0_compat; lra).
      assert (0 < a / (a + c))%R
        by (apply Rdiv_lt_0_compat; lra).
      lra. }
    destruct (Reqb _ 0) eqn:E; [apply Reqb_spec in E; contradiction|].
    field. repeat split; try lra. nra.
Qed.

(** X8.  On the counts of [compute_metrics], [precision], [recall] and
    [f1] lie between 0 and 1, and [f1] is [2 tp / (2 tp + fp + fn)], or 0
    when that denominator is 0. *)
Theorem metrics_ratios (true_labels pred_labels : list Z) :
  let m := compute_metrics true_labels pred_labels in
  (0 <= precision m <= 1)%R /\ (0 <= recall m <= 1)%R /\ (0 <= f1 m <= 1)%R /\
  f1 m = if 2 * tp m + fp m + fn m =? 0 then 0%R
         else (IZR (2 * tp m) / IZR (2 * tp m + fp m + fn m))%R.
Proof.
  cbv zeta. pose proof (compute_metrics_counted true_labels pred_labels) as Hc.
  set (m := compute_metrics true_labels pred_labels) in *.
  split; [apply precision_range; assumption|].
  split; [apply recall_range; assumption|].
  split; [|apply f1_closed; assumption].
  rewrite (f1_closed m Hc). destruct Hc as (H1 & H2 & H3 & H4).
  replace (2 * tp m + fp m + fn m) with (2 * tp m + (fp m + fn m)) by lia.
  apply ratio_range; lia.
Qed.

(** The labels that [process] predicts when the decision model is off:
    the decision stays [NORMAL], so every [pred_label_int] is 0. *)
Definition silent_predictions (true_labels : list Z) : list Z :=
  map (fun _ => 0) true_labels.

Lemma fold_silent l m :
  tp (fold_left count_pair (combine l (silent_predictions l)) m) = tp m /\
  fp (fold_left count_pair (combine l (silent_predictions l)) m) = fp m.
Proof.
  revert m. induction l as [|t l IH]; intros m; [split; reflexivity|].
  cbn [silent_predictions map combine fold_left].
  destruct (IH (count_pair m (t, 0))) as [H1 H2].
  unfold silent_predictions in *. rewrite H1, H2.
  unfold count_pair. cbn [Z.eqb]. destruct (t =? 1); split; reflexivity.
Qed.

(** X9.  With the decision model off the metrics of a run have no
    positive: [tp = fp = 0], so [precision], [recall] and [f1] are 0
    whatever the true labels are. *)
Theorem silent_run_scores_zero (true_labels : list Z) :
  let m := compute_metrics true_labels (silent_predictions true_labels) in
  tp m = 0 /\ fp m = 0 /\
  precision m = 0%R /\ recall m = 0%R /\ f1 m = 0%R /\
  tn m + fn m = Z.of_nat (length true_labels).
Proof.
  cbv zeta.
  pose proof (compute_metrics_counted true_labels (silent_predictions true_labels)) as Hc.
  destruct (fold_silent true_labels (mkMetrics 0 0 0 0)) as [Ht Hf].
  destruct (fold_count_pair (combine true_labels (silent_predictions true_labels))
              (mkMetrics 0 0 0 0)) as [_ Htot]; [unfold counted; cbn; lia|].
  fold (compute_metrics true_labels (silent_predictions true_labels)) in Ht, Hf, Htot.
  set (m := compute_metrics true_labels (silent_predictions true_labels)) in *.
  cbn [tp fp] in Ht, Hf.
  assert (Hp : precision m = 0%R).
  { unfold precision. rewrite Ht, Hf. reflexivity. }
  assert (Hr : recall m = 0%R).
  { unfold recall. rewrite Ht.
    destruct (_ =? 0); [reflexivity|]. unfold Rdiv. lra. }
  repeat split; try assumption.
  - unfold f1. rewrite Hp, Hr.
    replace (Reqb (0 + 0) 0) with true by (symmetry; apply Reqb_spec; lra).
    reflexivity.
  - unfold total in Htot. cbn [tp fp tn fn] in Htot.
    rewrite length_combine in Htot. unfold silent_predictions in Htot.
    rewrite length_map in Htot. lia.
Qed.

End MetricsFacts.

(* ===================================================================== *)
(** * More on recall/trigger.py and recall/entity_extraction.py *)
(* ===================================================================== *)

Module TriggerMore.
Import Text Config Recurrence Trigger.

(** X10.  When every trigger keyword is also a fatal or an error keyword,
    as in the default configuration, a log that the severity trigger
    selects has a severity level of 2 or 3. *)
Theorem severity_trigger_means_error
    (te : TriggerEngine) (ts : Z) (msg : str) :
  (forall kw, In kw (trigger_keywords (te_cfg te)) ->
     In kw (severity_keywords_fatal (te_cfg te)) \/
     In kw (severity_keywords_error (te_cfg te))) ->
  by_ (check ts msg te).1 = lit "severity" ->
  2 <= severity_level (te_cfg te) msg.
Proof.
  intros Hkw. unfold check.
  destruct (severity_fires (te_cfg te) msg) eqn:Hs.
  - intros _. unfold severity_fires in Hs.
    apply andb_true_iff in Hs as [_ Hs].
    apply existsb_exists in Hs as (kw & Hin & Hc).
    unfold severity_level.
    destruct (existsb _ (severity_keywords_fatal (te_cfg te))) eqn:Hf; [lia|].
    destruct (existsb _ (severity_keywords_error (te_cfg te))) eqn:He; [lia|].
    exfalso. destruct (Hkw kw Hin) as [H|H].
    + assert (Ht : existsb (fun kw => contains kw (lower msg))
                     (severity_keywords_fatal (te_cfg te)) = true)
        by (apply existsb_exists; exists kw; auto).
      congruence.
    + assert (Ht : existsb (fun kw => contains kw (lower msg))
                     (severity_keywords_error (te_cfg te)) = true)
        by (apply existsb_exists; exists kw; auto).
      congruence.
  - destruct (enable_burst_trigger (te_cfg te)).
    + destruct (push_and_check _ _ _) as [[|] b]; cbn [fst by_]; discriminate.
    + cbn [fst by_]. discriminate.
Qed.

Lemma severity_trigger_means_error_witness :
  2 <= severity_level default_config (lit "Kernel PANIC at node-7").
Proof.
  apply (severity_trigger_means_error (new_engine default_config) 1000
           (lit "Kernel PANIC at node-7")).
  - intros kw Hin. cbn in Hin.
    repeat (destruct Hin as [<-|Hin]; [cbn; tauto|]). destruct Hin.
  - vm_compute. reflexivity.
Defined.

End TriggerMore.

Module ExtractionFacts.
Import Text Regex Config Recurrence EntityExtraction.

Lemma extract_token_sound cfg c ents tok e :
  e ∈ extract_token cfg c ents tok ->
  e ∈ ents \/
  (min_token_len cfg <= Z.of_nat (length tok) /\
   should_drop_token cfg tok = false /\
   is_blacklisted_entity cfg e = false /\
   ((e = tok /\ theta_tc cfg < token_complexity tok false /\
     theta_rf cfg < rf c tok) \/
    ipv4_group tok = Some e)).
Proof.
  unfold extract_token.
  destruct (negb (nonempty tok) || _) eqn:Hlen; [auto|].
  apply orb_false_iff in Hlen as [_ Hlen]. apply Z.ltb_ge in Hlen.
  destruct (should_drop_token cfg tok) eqn:Hdrop; [auto|].
  set (ents' := match ipv4_group tok with Some _ => _ | None => _ end).
  assert (Hip : e ∈ ents' -> e ∈ ents \/
                (is_blacklisted_entity cfg e = false /\ ipv4_group tok = Some e)).
  { unfold ents'. destruct (ipv4_group tok) as [ip|]; [|auto].
    destruct (nonempty ip && negb (is_blacklisted_entity cfg ip)) eqn:Hok; [|auto].
    apply andb_true_iff in Hok as [_ Hok]. apply negb_true_iff in Hok.
    intros [He|He]%elem_of_union; [|auto].
    apply elem_of_singleton in He. subst e. auto. }
  destruct (is_blacklisted_entity cfg tok) eqn:Hbl.
  - intros He. destruct (Hip He) as [H|[H1 H2]]; [auto|]. right. tauto.
  - cbv zeta. destruct (_ && _) eqn:Hth.
    + apply andb_true_iff in Hth as [H1 H2].
      apply Z.ltb_lt in H1. apply Z.ltb_lt in H2.
      intros [He|He]%elem_of_union.
      * apply elem_of_singleton in He. subst e. right. tauto.
      * destruct (Hip He) as [H|[H3 H4]]; [auto|]. right. tauto.
    + intros He. destruct (Hip He) as [H|[H3 H4]]; [auto|]. right. tauto.
Qed.

Lemma fold_extract_sound cfg c toks e :
  forall ents,
    e ∈ fold_left (extract_token cfg c) toks ents ->
    e ∈ ents \/
    (is_blacklisted_entity cfg e = false /\
     exists tok, In tok toks /\
       min_token_len cfg <= Z.of_nat (length tok) /\
       should_drop_token cfg tok = false /\
       ((e = tok /\ theta_tc cfg < token_complexity tok false /\
         theta_rf cfg < rf c tok) \/
        ipv4_group tok = Some e)).
Proof.
  induction toks as [|tok toks IH]; intros ents; cbn [fold_left]; [auto|].
  intros He. destruct (IH _ He) as [H|(Hb & tok' & Hin & Hrest)].
  - apply extract_token_sound in H as [H|(H1 & H2 & H3 & H4)]; [auto|].
    right. split; [assumption|]. exists tok. split; [left; reflexivity|].
    tauto.
  - right. split; [assumption|]. exists tok'. split; [right; assumption|].
    assumption.
Qed.

(** X11.  Every entity of [StatisticalEntityExtractor.extract] comes from a
    token of the message that is long enough and not dropped: it is the
    token itself, whose complexity is above [theta_tc] and whose
    recurrence, counted after the push of this message, is above
    [theta_rf]; or it is the address of a token of the shape
    [ip] or [ip:port].  It is never on the blacklist. *)
Theorem statistical_entities_sound
    (se : StatisticalEntityExtractor) (ts : Z) (msg e : str) :
  e ∈ (extract ts msg se).1 ->
  let cfg := se_cfg se in
  let counter := rf_counter (extract ts msg se).2 in
  is_blacklisted_entity cfg e = false /\
  exists tok,
    In tok (tokenize_for_entity_candidates msg) /\
    min_token_len cfg <= Z.of_nat (length tok) /\
    should_drop_token cfg tok = false /\
    ((e = tok /\ theta_tc cfg < token_complexity tok false /\
      theta_rf cfg < rf counter tok) \/
     ipv4_group tok = Some e).
Proof.
  unfold extract. cbn [fst snd rf_counter]. cbv zeta.
  intros He. apply fold_extract_sound in He as [Hn|Hr]; [|exact Hr].
  apply elem_of_empty in Hn. destruct Hn.
Qed.

Lemma statistical_entities_sound_witness :
  is_blacklisted_entity default_config (lit "10.0.0.5") = false.
Proof.
  refine (proj1 (statistical_entities_sound (new_stat default_config) 1000
                   (lit "connect to 10.0.0.5:80 refused") (lit "10.0.0.5") _)).
  apply (bool_decide_unpack _). vm_compute. exact I.
Defined.

(** X12.  Every entity of [final] is off the blacklist of [cfg], and it is
    a statistical entity or a value of the model's reply that
    [_in_message_or_ip_port] finds in the message; [estat_validated] is a
    part of [final]. *)
Theorem final_entities_grounded
    (cfg : RecallConfig) (se : StatisticalEntityExtractor) (ts : Z)
    (msg : str) (semantic : option SemanticEntityExtractor) (e : str) :
  let r := (extract_entities cfg se ts msg semantic).1 in
  (e ∈ final r ->
   is_blacklisted_entity cfg e = false /\
   (e ∈ estat r \/ in_message_or_ip_port e msg = true)) /\
  (e ∈ estat_validated r -> e ∈ final r).
Proof.
  cbv zeta. unfold extract_entities.
  destruct (extract ts msg se) as [st se'].
  set (pair := match semantic with Some _ => _ | None => _ end).
  assert (Hpair : (e ∈ pair.1 -> e ∈ st \/ in_message_or_ip_port e msg = true) /\
                  (e ∈ pair.2 -> in_message_or_ip_port e msg = true)).
  { unfold pair. destruct semantic as [sem|]; cbn [fst snd].
    - destruct (_ && _); cbn [fst snd].
      + unfold validate_and_supplement, filter_reply. cbn [keep add].
        split.
        * case_bool_decide as Hk; [auto|].
          intros [H _]%elem_of_filter. auto.
        * intros [H _]%elem_of_filter. assumption.
      + split; [auto|]. intros H. apply elem_of_empty in H. destruct H.
    - split; [auto|]. intros H. apply elem_of_empty in H. destruct H. }
  destruct pair as [sv sm]. cbn [fst snd final estat estat_validated] in *.
  destruct Hpair as [H1 H2]. unfold not_blacklisted. split.
  - intros [Hb [H|H]%elem_of_union]%elem_of_filter; split; auto.
  - intros [Hb H]%elem_of_filter. apply elem_of_filter. split; [assumption|].
    apply elem_of_union. auto.
Qed.

(** X13.  When the semantic channel is off, or the pipeline has no
    semantic extractor, and the statistical extractor has the
    configuration of the call: [esem] is empty, and [estat_validated]
    and [final] are [estat]. *)
Theorem without_semantic_channel
    (cfg : RecallConfig) (se : StatisticalEntityExtractor) (ts : Z)
    (msg : str) (semantic : option SemanticEntityExtractor) :
  semantic = None \/ enable_semantic_channel cfg = false ->
  se_cfg se = cfg ->
  let r := (extract_entities cfg se ts msg semantic).1 in
  esem r = ∅ /\ estat_validated r = estat r /\ final r = estat r.
Proof.
  intros Hoff Hcfg. cbv zeta. unfold extract_entities.
  pose proof (fun e => IncidenceFacts.extract_clean ts msg se e) as Hclean.
  rewrite Hcfg in Hclean.
  destruct (extract ts msg se) as [st se']. cbn [fst] in Hclean.
  set (pair := match semantic with Some _ => _ | None => _ end).
  assert (Hpair : pair = (st, ∅)).
  { unfold pair. destruct Hoff as [->|Hoff]; [reflexivity|]. rewrite Hoff.
    destruct semantic; reflexivity. }
  rewrite Hpair. cbn [fst esem estat estat_validated final].
  assert (Hf : not_blacklisted cfg st = st).
  { unfold not_blacklisted. apply set_eq. intros x.
    rewrite elem_of_filter. split; [tauto|]. auto. }
  split; [reflexivity|]. split; [assumption|].
  rewrite union_empty_r_L. assumption.
Qed.

Lemma without_semantic_channel_witness :
  esem (extract_entities default_config (new_stat default_config) 1000
          (lit "connect to 10.0.0.5:80 refused") None).1 = ∅.
Proof.
  apply (without_semantic_channel default_config (new_stat default_config) 1000
           (lit "connect to 10.0.0.5:80 refused") None).
  - left. reflexivity.
  - reflexivity.
Defined.

End ExtractionFacts.

(* ===================================================================== *)
(** * The resident logs of recall/dynamic_graph.py *)
(* ===================================================================== *)

Module ResidentFacts.
Import Text Config Float Graph FloatFacts GraphFacts ChainFacts.

(** ** What the graph never rewrites in a log *)

(** The fields of a log that are set when it is added. *)
Definition core (ln : LogNode) : Z * Z * str * Z :=
  (log_id ln, ts_sec ln, message ln, severity ln).

Definition core_ts (c : Z * Z * str * Z) : Z := c.1.1.2.

Definition node_core (g : DynamicLogEntityGraph) (z : Z) : option (Z * Z * str * Z) :=
  core <$> logs g !! z.

Lemma node_core_Some g z c :
  node_core g z = Some c <-> exists ln, get_log g z = Some ln /\ core ln = c.
Proof.
  unfold node_core, get_log. destruct (logs g !! z) as [ln|]; cbn.
  - split; [intros [= <-]; eauto|]. intros (ln' & [= <-] & <-). reflexivity.
  - split; [discriminate|]. intros (ln' & H & _). discriminate.
Qed.

Lemma node_core_fields g1 g2 z :
  chain_fields g1 = chain_fields g2 -> node_core g1 z = node_core g2 z.
Proof.
  intros H. apply chain_fields_inv in H as (_ & _ & H & _). unfold node_core.
  rewrite H. reflexivity.
Qed.

Lemma lookup_alter_core (f : LogNode -> LogNode) k (m : gmap Z LogNode) z :
  (forall n, core (f n) = core n) ->
  core <$> alter f k m !! z = core <$> m !! z.
Proof.
  intros Hf. destruct (decide (k = z)) as [->|Hne].
  - rewrite lookup_alter_eq. destruct (m !! z); cbn; [rewrite Hf|]; reflexivity.
  - rewrite lookup_alter_ne by assumption. reflexivity.
Qed.

Lemma core_set_prev p n : core (set_prev p n) = core n.
Proof. reflexivity. Qed.

Lemma core_set_next p n : core (set_next p n) = core n.
Proof. reflexivity. Qed.

(** ** [add_log] *)

Lemma add_log_core lid ts msg ents sev g z :
  node_core (add_log lid ts msg ents sev g) z
  = if decide (z = lid) then Some (lid, ts, msg, sev) else node_core g z.
Proof.
  rewrite (node_core_fields _ _ z (add_log_chain lid ts msg ents sev g)).
  unfold node_core, append_log. cbn [logs].
  set (node := mkLog lid ts msg sev None None).
  assert (H1 : core <$> (<[lid := node]> (logs g)) !! z
               = if decide (z = lid) then Some (lid, ts, msg, sev)
                 else core <$> logs g !! z).
  { destruct (decide (z = lid)) as [->|Hne].
    - rewrite lookup_insert_eq. reflexivity.
    - rewrite lookup_insert_ne by congruence. reflexivity. }
  destruct (last_log_id g) as [l|]; [|exact H1].
  destruct (<[lid := node]> (logs g) !! l) as [prev|]; [|exact H1].
  rewrite !lookup_alter_core by (intros; reflexivity). exact H1.
Qed.

(** ** [_remove_log] and [_evict_logs] *)

Lemma remove_log_core x g z :
  node_core (_remove_log x g) z
  = if decide (z = x) then None else node_core g z.
Proof.
  rewrite (node_core_fields _ _ z (remove_log_chain x g)).
  unfold node_core. destruct (logs g !! x) as [ln|] eqn:Hx.
  - cbn [logs with_logs].
    assert (H0 : core <$> delete x (logs g) !! z
                 = if decide (z = x) then None else core <$> logs g !! z).
    { destruct (decide (z = x)) as [->|Hne].
      - rewrite lookup_delete_eq. reflexivity.
      - rewrite lookup_delete_ne by congruence. reflexivity. }
    destruct (next_log_id ln), (prev_log_id ln);
      rewrite ?lookup_alter_core by (intros; reflexivity); exact H0.
  - destruct (decide (z = x)) as [->|Hne]; [rewrite Hx|]; reflexivity.
Qed.

Lemma remove_log_window x g : log_window (_remove_log x g) = log_window g.
Proof.
  pose proof (remove_log_chain x g) as H.
  apply chain_fields_inv in H as (_ & _ & _ & H & _). rewrite H.
  destruct (logs g !! x); reflexivity.
Qed.

(** The loop leaves the logs that are not older than the cutoff as they
    are. *)
Lemma evict_loop_core cutoff w :
  forall g z,
    (forall c, node_core g z = Some c -> cutoff <= core_ts c) ->
    node_core (evict_loop cutoff w g) z = node_core g z.
Proof.
  induction w as [|x w IH]; intros g z Hz; [reflexivity|].
  cbn [evict_loop]. destruct (logs g !! x) as [ln|] eqn:Hx; [|reflexivity].
  destruct (ts_sec ln <? cutoff) eqn:Hlt; [|reflexivity].
  apply Z.ltb_lt in Hlt.
  assert (Hne : z <> x).
  { intros ->. specialize (Hz (core ln)). unfold node_core in Hz.
    rewrite Hx in Hz. specialize (Hz eq_refl). cbn in Hz. lia. }
  assert (Hr : node_core (_remove_log x (with_window g w)) z = node_core g z).
  { rewrite remove_log_core. destruct (decide (z = x)); [contradiction|].
    reflexivity. }
  rewrite IH; [exact Hr|]. rewrite Hr. exact Hz.
Qed.

(** The loop adds no log and rewrites none. *)
Lemma evict_loop_sub cutoff w :
  forall g z c,
    node_core (evict_loop cutoff w g) z = Some c -> node_core g z = Some c.
Proof.
  induction w as [|x w IH]; intros g z c; [auto|].
  cbn [evict_loop]. destruct (logs g !! x) as [ln|] eqn:Hx; [|auto].
  destruct (ts_sec ln <? cutoff); [|auto].
  intros H. apply IH in H. rewrite remove_log_core in H.
  destruct (decide (z = x)); [discriminate|]. exact H.
Qed.

(** ** [_prune_edges] *)

Lemma with_incidence_chain g ents l2e e2l :
  chain_fields (with_incidence g ents l2e e2l) = chain_fields g.
Proof. reflexivity. Qed.

Lemma prune_incidence_chain cutoff lid g :
  chain_fields (prune_incidence cutoff lid g) = chain_fields g.
Proof.
  unfold prune_incidence. destruct (logs g !! lid); [|reflexivity].
  destruct (_ <=? _); [reflexivity|].
  destruct (log_to_entities g !! lid); [|reflexivity].
  destruct (bool_decide _); [reflexivity|].
  rewrite with_incidence_chain.
  apply foldr_chain. intros. apply unlink_pruned_chain.
Qed.

Lemma prune_chain_core cutoff lid g z :
  node_core (prune_chain cutoff lid g) z = node_core g z.
Proof.
  unfold prune_chain. destruct (logs g !! lid) as [ln|]; [|reflexivity].
  destruct (prev_log_id ln); [|reflexivity].
  destruct (_ <? _); [|reflexivity].
  unfold node_core. cbn [logs with_logs].
  rewrite !lookup_alter_core by (intros; reflexivity). reflexivity.
Qed.

Lemma prune_chain_window cutoff lid g :
  log_window (prune_chain cutoff lid g) = log_window g /\
  cfg (prune_chain cutoff lid g) = cfg g.
Proof.
  unfold prune_chain. destruct (logs g !! lid) as [ln|]; [|auto].
  destruct (prev_log_id ln); [|auto]. destruct (_ <? _); auto.
Qed.

Lemma fold_prune_chain_core cutoff l :
  forall g z,
    node_core (fold_left (fun g lid => prune_chain cutoff lid g) l g) z
    = node_core g z.
Proof.
  induction l as [|x l IH]; intros g z; [reflexivity|].
  cbn [fold_left]. rewrite IH. apply prune_chain_core.
Qed.

Lemma fold_prune_chain_window cutoff l :
  forall g,
    log_window (fold_left (fun g lid => prune_chain cutoff lid g) l g)
    = log_window g /\
    cfg (fold_left (fun g lid => prune_chain cutoff lid g) l g) = cfg g.
Proof.
  induction l as [|x l IH]; intros g; [auto|].
  cbn [fold_left]. destruct (IH (prune_chain cutoff x g)) as [-> ->].
  apply prune_chain_window.
Qed.

Lemma prune_loops_core cutoff g z :
  node_core (prune_loops cutoff g) z = node_core g z.
Proof.
  unfold prune_loops. rewrite fold_prune_chain_core.
  apply node_core_fields, fold_left_chain. intros.
  apply prune_incidence_chain.
Qed.

Lemma prune_loops_window cutoff g :
  log_window (prune_loops cutoff g) = log_window g /\
  cfg (prune_loops cutoff g) = cfg g.
Proof.
  unfold prune_loops.
  set (g1 := fold_left (fun g lid => prune_incidence cutoff lid g) (log_window g) g).
  assert (H : chain_fields g1 = chain_fields g)
    by (apply fold_left_chain; intros; apply prune_incidence_chain).
  apply chain_fields_inv in H as (Hc & _ & _ & Hw & _).
  destruct (fold_prune_chain_window cutoff (log_window g1) g1) as [-> ->].
  auto.
Qed.

Lemma prune_edges_core now g z :
  node_core (_prune_edges now g) z = node_core g z.
Proof.
  unfold _prune_edges. destruct (prune_age_limit (cfg g)); [|reflexivity].
  apply prune_loops_core.
Qed.

Lemma prune_edges_window now g :
  log_window (_prune_edges now g) = log_window g /\
  cfg (_prune_edges now g) = cfg g.
Proof.
  unfold _prune_edges. destruct (prune_age_limit (cfg g)); [|auto].
  apply prune_loops_window.
Qed.

(** ** [tick] *)

Lemma tick_core_evict now g z :
  node_core (tick now g) z = node_core (_evict_logs now g) z.
Proof.
  unfold tick.
  rewrite (node_core_fields _ _ z (prune_entities_chain _)).
  apply prune_edges_core.
Qed.

Lemma tick_core now g z :
  (0 < graph_window_t_sec (cfg g) ->
   forall c, node_core g z = Some c ->
             now - graph_window_t_sec (cfg g) <= core_ts c) ->
  node_core (tick now g) z = node_core g z.
Proof.
  intros H. rewrite tick_core_evict. unfold _evict_logs.
  destruct (_ <=? 0) eqn:HT; [reflexivity|]. apply Z.leb_gt in HT.
  apply evict_loop_core. auto.
Qed.

Lemma tick_sub now g z c :
  node_core (tick now g) z = Some c -> node_core g z = Some c.
Proof.
  rewrite tick_core_evict. unfold _evict_logs.
  destruct (_ <=? 0); [auto|]. apply evict_loop_sub.
Qed.

(** X14.  A [tick] never adds a log and never rewrites the identifier,
    the timestamp, the message or the severity of one; and it keeps
    every log that is not older than the window, under every decay. *)
Theorem tick_keeps_the_window
    (g : DynamicLogEntityGraph) (now lid : Z) :
  (forall ln', get_log (tick now g) lid = Some ln' ->
     exists ln, get_log g lid = Some ln /\ core ln = core ln') /\
  (forall ln, get_log g lid = Some ln ->
     graph_window_t_sec (cfg g) <= 0 \/
     now - graph_window_t_sec (cfg g) <= ts_sec ln ->
     exists ln', get_log (tick now g) lid = Some ln' /\ core ln' = core ln).
Proof.
  split.
  - intros ln' H. apply node_core_Some.
    apply tick_sub with (now := now). apply node_core_Some. eauto.
  - intros ln Hln Hin. apply node_core_Some. rewrite tick_core.
    + apply node_core_Some. eauto.
    + intros HT c Hc. apply node_core_Some in Hc as (ln0 & H0 & <-).
      rewrite Hln in H0. injection H0 as <-. cbn. lia.
Qed.

Lemma tick_keeps_the_window_witness :
  exists ln',
    get_log (tick 1900 (single_log_graph default_config 7 1000 (lit "ok") 0)) 7
    = Some ln' /\
    core ln' = core (mkLog 7 1000 (lit "ok") 0 None None).
Proof.
  apply (proj2 (tick_keeps_the_window
                  (single_log_graph default_config 7 1000 (lit "ok") 0) 1900 7)).
  - apply lookup_singleton_eq.
  - right. cbn. lia.
Defined.

Lemma tick_add_log_core g lid ts msg ents sev :
  node_core (tick ts (add_log lid ts msg ents sev g)) lid
  = Some (lid, ts, msg, sev).
Proof.
  rewrite tick_core.
  - rewrite add_log_core. destruct (decide (lid = lid)); [reflexivity|].
    contradiction.
  - intros HT c. rewrite add_log_core.
    destruct (decide (lid = lid)); [|contradiction].
    intros [= <-]. cbn. lia.
Qed.

(** X15.  The log that [add_log] has just stored is in the graph after
    the [tick] at its own timestamp, with the fields that it was given,
    whatever the graph held before. *)
Theorem added_log_is_resident
    (g : DynamicLogEntityGraph) (lid ts : Z) (msg : str) (ents : list str)
    (sev : Z) :
  exists ln,
    get_log (tick ts (add_log lid ts msg ents sev g)) lid = Some ln /\
    log_id ln = lid /\ ts_sec ln = ts /\ message ln = msg /\ severity ln = sev.
Proof.
  pose proof (tick_add_log_core g lid ts msg ents sev) as H.
  apply node_core_Some in H as (ln & Hln & Hc). exists ln.
  split; [assumption|]. unfold core in Hc. injection Hc as -> -> -> ->. auto.
Qed.

End ResidentFacts.

(* ===================================================================== *)
(** * The window of recall/dynamic_graph.py *)
(* ===================================================================== *)

Module WindowFacts.
Import Text Config Float Graph FloatFacts GraphFacts ChainFacts ResidentFacts.

(** The logs that the calls of [ops] add, with their timestamps, in the
    order of the calls. *)
Definition added (ops : list Op) : list (Z * Z) :=
  omap (fun o => match o with
                 | AddLog lid ts _ _ _ => Some (lid, ts)
                 | Tick _ => None
                 end) ops.

(** The logs that a window of [T] seconds ending at [now] holds; a window
    that is not positive holds every log. *)
Definition in_window (T now : Z) (p : Z * Z) : bool :=
  (T <=? 0) || (now - T <=? p.2).

(** The window lists [ch], the logs with their timestamps; these logs
    and no others are in the graph. *)
Definition window_inv (g : DynamicLogEntityGraph) (ch : list (Z * Z)) : Prop :=
  log_window g = map fst ch /\
  (forall x t, In (x, t) ch -> exists c, node_core g x = Some c /\ core_ts c = t) /\
  (forall z, is_Some (node_core g z) -> In z (map fst ch)) /\
  List.NoDup (map fst ch) /\
  StronglySorted Z.le (map snd ch).

Lemma window_inv_same g1 g2 ch :
  log_window g1 = log_window g2 ->
  (forall z, node_core g1 z = node_core g2 z) ->
  window_inv g2 ch -> window_inv g1 ch.
Proof.
  intros Hw Hc (H1 & H2 & H3 & H4 & H5). unfold window_inv.
  rewrite Hw. split; [assumption|]. split; [|split; [|auto]].
  - intros x t Hin. rewrite Hc. auto.
  - intros z. rewrite Hc. auto.
Qed.

Lemma add_log_window lid ts msg ents sev g :
  log_window (add_log lid ts msg ents sev g) = log_window g ++ [lid].
Proof.
  pose proof (add_log_chain lid ts msg ents sev g) as H.
  apply chain_fields_inv in H as (_ & _ & _ & H & _). exact H.
Qed.

Lemma add_log_window_inv g ch lid ts msg ents sev :
  window_inv g ch ->
  ~ In lid (map fst ch) ->
  (forall t, In t (map snd ch) -> t <= ts) ->
  window_inv (add_log lid ts msg ents sev g) (ch ++ [(lid, ts)]).
Proof.
  intros (H1 & H2 & H3 & H4 & H5) Hfresh Hts. unfold window_inv.
  rewrite add_log_window, H1, !map_app. cbn [map fst snd].
  split; [reflexivity|]. split; [|split; [|split]].
  - intros x t Hin. rewrite add_log_core. apply in_app_or in Hin as [Hin|Hin].
    + destruct (decide (x = lid)) as [->|Hne]; [|auto].
      exfalso. apply Hfresh. apply in_map_iff. exists (lid, t). auto.
    + destruct Hin as [Heq|[]]. injection Heq as <- <-.
      destruct (decide (lid = lid)); [|contradiction].
      eexists. split; reflexivity.
  - intros z. rewrite add_log_core. intros Hz. apply in_or_app.
    destruct (decide (z = lid)) as [->|Hne]; [right; left; reflexivity|].
    left. auto.
  - apply NoDup_ListNoDup, NoDup_app. split; [apply NoDup_ListNoDup; assumption|].
    split; [|apply NoDup_singleton].
    intros x Hx Hx'. apply list_elem_of_In in Hx.
    apply list_elem_of_singleton in Hx'. subst x. contradiction.
  - apply sorted_snoc; assumption.
Qed.

Lemma filter_sorted_all cutoff (ch : list (Z * Z)) x t :
  StronglySorted Z.le (map snd ((x, t) :: ch)) -> cutoff <= t ->
  List.filter (fun p => cutoff <=? p.2) ch = ch.
Proof.
  intros Hs Ht. cbn [map snd] in Hs. apply StronglySorted_inv in Hs as [_ Hall].
  rewrite List.Forall_forall in Hall.
  apply RecurrenceFacts.filter_all. intros [y u] Hin. cbn [snd].
  apply Z.leb_le.
  assert (H : In u (map snd ch)) by (apply in_map_iff; exists (y, u); auto).
  specialize (Hall u H). lia.
Qed.

(** The loop of [_evict_logs] leaves the logs that are not older than the
    cutoff. *)
Lemma evict_loop_window_inv cutoff ch :
  forall g, window_inv g ch ->
  window_inv (evict_loop cutoff (map fst ch) g)
    (List.filter (fun p => cutoff <=? p.2) ch).
Proof.
  induction ch as [|[x t] ch IH]; intros g Hinv.
  - cbn [map evict_loop List.filter]. pose proof Hinv as (Hw & _).
    cbn [map] in Hw. rewrite <- Hw, with_window_same. assumption.
  - pose proof Hinv as (Hw & H2 & H3 & H4 & H5).
    destruct (H2 x t (or_introl eq_refl)) as (c & Hc & Hct).
    apply node_core_Some in Hc as (ln & Hln & Hcore). unfold get_log in Hln.
    assert (Hts : ts_sec ln = t) by (rewrite <- Hct, <- Hcore; reflexivity).
    cbn [map fst evict_loop List.filter snd]. rewrite Hln, Hts.
    destruct (t <? cutoff) eqn:Hlt.
    + apply Z.ltb_lt in Hlt. rewrite (proj2 (Z.leb_gt cutoff t)) by lia.
      apply IH. cbn [map fst snd] in H4, H5.
      apply List.NoDup_cons_iff in H4 as [Hx H4].
      apply StronglySorted_inv in H5 as [H5 _].
      unfold window_inv. rewrite remove_log_window. cbn [log_window with_window].
      split; [reflexivity|]. split; [|split; [|auto]].
      * intros y u Hin. rewrite remove_log_core.
        destruct (decide (y = x)) as [->|Hne].
        -- exfalso. apply Hx. apply in_map_iff. exists (x, u). auto.
        -- apply (H2 y u). right. assumption.
      * intros z. rewrite remove_log_core.
        destruct (decide (z = x)) as [->|Hne]; [intros [? [=]]|].
        intros Hz. destruct (H3 z Hz) as [Heq|Hin]; [|assumption].
        cbn in Heq. congruence.
    + apply Z.ltb_ge in Hlt. rewrite (proj2 (Z.leb_le cutoff t)) by lia.
      rewrite (filter_sorted_all cutoff ch x t H5 Hlt).
      change (x :: map fst ch) with (map fst ((x, t) :: ch)).
      rewrite <- Hw, with_window_same. assumption.
Qed.

Lemma tick_cfg now g : cfg (tick now g) = cfg g.
Proof.
  unfold tick.
  pose proof (prune_entities_chain (_prune_edges now (_evict_logs now g))) as H.
  apply chain_fields_inv in H as (-> & _).
  destruct (prune_edges_window now (_evict_logs now g)) as [_ ->].
  apply evict_logs_cfg.
Qed.

Lemma tick_window now g : log_window (tick now g) = log_window (_evict_logs now g).
Proof.
  unfold tick.
  pose proof (prune_entities_chain (_prune_edges now (_evict_logs now g))) as H.
  apply chain_fields_inv in H as (_ & _ & _ & -> & _).
  apply prune_edges_window.
Qed.

(** A [tick] leaves the logs of the window that ends at [now]. *)
Lemma tick_window_inv now g ch :
  window_inv g ch ->
  window_inv (tick now g)
    (List.filter (in_window (graph_window_t_sec (cfg g)) now) ch).
Proof.
  intros Hinv.
  apply (window_inv_same _ (_evict_logs now g));
    [apply tick_window|apply tick_core_evict|].
  unfold _evict_logs, in_window.
  destruct (_ <=? 0) eqn:HT.
  - rewrite RecurrenceFacts.filter_all by reflexivity. assumption.
  - cbn [orb]. pose proof Hinv as (Hw & _). rewrite Hw.
    apply evict_loop_window_inv. assumption.
Qed.

(** ** Runs *)

(** The window after the calls of [ops], as a list. *)
Definition window_step (T : Z) (ch : list (Z * Z)) (o : Op) : list (Z * Z) :=
  match o with
  | AddLog lid ts _ _ _ => ch ++ [(lid, ts)]
  | Tick now => List.filter (in_window T now) ch
  end.

Definition window_of (T : Z) (ops : list Op) : list (Z * Z) :=
  fold_left (window_step T) ops [].

Lemma window_of_snoc T ops o :
  window_of T (ops ++ [o]) = window_step T (window_of T ops) o.
Proof. unfold window_of. rewrite fold_left_app. reflexivity. Qed.

Lemma added_snoc ops o :
  added (ops ++ [o])
  = added ops ++ match o with
                 | AddLog lid ts _ _ _ => [(lid, ts)]
                 | Tick _ => []
                 end.
Proof.
  unfold added. rewrite omap_app. destruct o; reflexivity.
Qed.

Lemma window_of_added T ops p : In p (window_of T ops) -> In p (added ops).
Proof.
  induction ops as [|o ops IH] using rev_ind; [intros []|].
  rewrite window_of_snoc, added_snoc.
  destruct o as [lid ts msg ents sev|now]; cbn [window_step].
  - intros [H|H]%in_app_or; apply in_or_app; auto.
  - intros [H _]%List.filter_In. rewrite app_nil_r. auto.
Qed.

Lemma added_ids ops x t :
  In (x, t) (added ops) -> In x (omap op_id ops) /\ In t (map op_time ops).
Proof.
  induction ops as [|o ops IH]; [intros []|].
  destruct o as [lid ts msg ents sev|now]; cbn.
  - intros [[= <- <-]|H]; [auto|]. destruct (IH H). auto.
  - intros H. destruct (IH H). auto.
Qed.

Lemma sorted_app_inv {A : Type} (R : A -> A -> Prop) (l1 l2 : list A) :
  StronglySorted R (l1 ++ l2) ->
  StronglySorted R l1 /\ StronglySorted R l2 /\
  (forall x y, In x l1 -> In y l2 -> R x y).
Proof.
  induction l1 as [|a l1 IH]; cbn [app]; intros H.
  - split; [constructor|]. split; [assumption|]. intros x y [].
  - apply StronglySorted_inv in H as [H Hall].
    destruct (IH H) as (H1 & H2 & H3).
    rewrite List.Forall_forall in Hall.
    split; [|split; [assumption|]].
    + constructor; [assumption|]. apply List.Forall_forall. intros x Hx.
      apply Hall. apply in_or_app. auto.
    + intros x y [<-|Hx] Hy; [|auto]. apply Hall. apply in_or_app. auto.
Qed.

Lemma well_ordered_snoc ops o :
  well_ordered (ops ++ [o]) ->
  well_ordered ops /\
  (forall u, In u (map op_time ops) -> u <= op_time o) /\
  (forall y lid, In y (omap op_id ops) -> op_id o = Some lid -> y < lid).
Proof.
  intros [Ht Hi]. rewrite map_app in Ht. rewrite omap_app in Hi.
  apply sorted_app_inv in Ht as (Ht1 & _ & Ht2).
  apply sorted_app_inv in Hi as (Hi1 & _ & Hi2).
  split; [split; assumption|]. split.
  - intros u Hu. apply Ht2; [assumption|]. left. reflexivity.
  - intros y lid Hy Hid. apply Hi2; [assumption|].
    cbn. rewrite Hid. left. reflexivity.
Qed.

Lemma run_snoc ops o g : run (ops ++ [o]) g = apply_op (run ops g) o.
Proof. unfold run. rewrite fold_left_app. reflexivity. Qed.

Lemma run_cfg ops g : cfg (run ops g) = cfg g.
Proof.
  induction ops as [|o ops IH] using rev_ind; [reflexivity|].
  rewrite run_snoc. destruct o; cbn [apply_op];
    [rewrite add_log_cfg|rewrite tick_cfg]; assumption.
Qed.

(** After every well-ordered sequence of calls the window is the list
    [window_of]. *)
Lemma run_window_inv c ops :
  well_ordered ops ->
  window_inv (run ops (new_graph c)) (window_of (graph_window_t_sec c) ops).
Proof.
  induction ops as [|o ops IH] using rev_ind; intros Hord.
  - unfold window_inv, window_of, run, new_graph, node_core. cbn.
    split; [reflexivity|]. split; [intros x t []|].
    split; [|split; constructor].
    intros z [x Hx]. rewrite lookup_empty in Hx. discriminate.
  - apply well_ordered_snoc in Hord as (Hord & Htimes & Hids).
    specialize (IH Hord). rewrite run_snoc, window_of_snoc.
    destruct o as [lid ts msg ents sev|now]; cbn [apply_op window_step].
    + apply add_log_window_inv; [assumption| |].
      * intros Hin. apply in_map_iff in Hin as ([x t] & Hx & Hin).
        cbn in Hx. subst x. apply window_of_added, added_ids in Hin as [Hin _].
        specialize (Hids lid lid Hin eq_refl). lia.
      * intros t Hin. apply in_map_iff in Hin as ([x u] & Hx & Hin).
        cbn in Hx. subst u. apply window_of_added, added_ids in Hin as [_ Hin].
        apply (Htimes t Hin).
    + pose proof (tick_window_inv now _ _ IH) as H.
      rewrite run_cfg in H. exact H.
Qed.

Lemma in_window_mono T n now p :
  n <= now -> in_window T now p = true -> in_window T n p = true.
Proof.
  unfold in_window. intros Hle. destruct (T <=? 0); [reflexivity|].
  cbn [orb]. rewrite !Z.leb_le. lia.
Qed.

Lemma filter_filter_mono {A : Type} (f h : A -> bool) (l : list A) :
  (forall x, f x = true -> h x = true) ->
  List.filter f (List.filter h l) = List.filter f l.
Proof.
  intros H. induction l as [|a l IH]; [reflexivity|]. cbn [List.filter].
  destruct (h a) eqn:Eh; cbn [List.filter].
  - rewrite IH. reflexivity.
  - rewrite IH. destruct (f a) eqn:Ef; [|reflexivity].
    rewrite (H a Ef) in Eh. discriminate.
Qed.

(** Seen through a window that ends after the calls, the window is made
    of the logs that were added. *)
Lemma window_of_filter T ops now :
  (forall u, In u (map op_time ops) -> u <= now) ->
  List.filter (in_window T now) (window_of T ops)
  = List.filter (in_window T now) (added ops).
Proof.
  induction ops as [|o ops IH] using rev_ind; intros Hnow; [reflexivity|].
  rewrite window_of_snoc, added_snoc.
  assert (Hnow' : forall u, In u (map op_time ops) -> u <= now).
  { intros u Hu. apply Hnow. rewrite map_app. apply in_or_app. auto. }
  specialize (IH Hnow').
  destruct o as [lid ts msg ents sev|n]; cbn [window_step].
  - rewrite !List.filter_app, IH. reflexivity.
  - rewrite app_nil_r, <- IH. apply filter_filter_mono.
    intros p. apply in_window_mono. apply Hnow. rewrite map_app.
    apply in_or_app. right. left. reflexivity.
Qed.

(** The window after a [tick] that ends a well-ordered sequence. *)
Lemma after_tick_inv c ops now :
  well_ordered (ops ++ [Tick now]) ->
  window_inv (run (ops ++ [Tick now]) (new_graph c))
    (List.filter (in_window (graph_window_t_sec c) now) (added ops)).
Proof.
  intros Hord. pose proof (run_window_inv c _ Hord) as Hinv.
  apply well_ordered_snoc in Hord as (_ & Htimes & _). cbn [op_time] in Htimes.
  rewrite window_of_snoc in Hinv. cbn [window_step] in Hinv.
  rewrite (window_of_filter _ ops now Htimes) in Hinv. exact Hinv.
Qed.

Lemma window_inv_residents g ch :
  window_inv g ch ->
  log_window g = map fst ch /\
  (forall lid, is_Some (get_log g lid) <-> In lid (map fst ch)) /\
  (forall lid ts, In (lid, ts) ch ->
     exists ln, get_log g lid = Some ln /\ ts_sec ln = ts).
Proof.
  intros (H1 & H2 & H3 & _ & _).
  split; [assumption|]. split.
  - intros lid. split.
    + intros [ln Hln]. apply H3. exists (core ln). apply node_core_Some. eauto.
    + intros Hin. apply in_map_iff in Hin as ([x t] & Hx & Hin).
      cbn in Hx. subst x. destruct (H2 lid t Hin) as (cr & Hc & _).
      apply node_core_Some in Hc as (ln & Hln & _). eauto.
  - intros lid ts Hin. destruct (H2 lid ts Hin) as (cr & Hc & Hts).
    apply node_core_Some in Hc as (ln & Hln & <-). exists ln.
    split; [assumption|]. rewrite <- Hts. reflexivity.
Qed.

(** X16.  After calls of [add_log] and [tick] whose timestamps do not
    decrease and whose log identifiers grow, the last call being the
    [tick] at [now]: the window lists, in the order of their arrival, the
    added logs that are not older than [now - graph_window_t_sec]; these
    logs and no others are in the graph, each with its timestamp.  This
    holds under every decay. *)
Theorem residents_after_tick (c : RecallConfig) (ops : list Op) (now : Z) :
  well_ordered (ops ++ [Tick now]) ->
  let g := run (ops ++ [Tick now]) (new_graph c) in
  let kept := List.filter (in_window (graph_window_t_sec c) now) (added ops) in
  log_window g = map fst kept /\
  (forall lid, is_Some (get_log g lid) <-> In lid (map fst kept)) /\
  (forall lid ts, In (lid, ts) kept ->
     exists ln, get_log g lid = Some ln /\ ts_sec ln = ts).
Proof.
  intros Hord. cbv zeta. apply window_inv_residents, after_tick_inv, Hord.
Qed.

Lemma residents_after_tick_witness :
  log_window
    (run ([AddLog 1 1000 quiet [] 0; Tick 1000; AddLog 2 1500 quiet [] 0;
           AddLog 3 2000 quiet [] 0] ++ [Tick 2400])
       (new_graph default_config))
  = [2; 3].
Proof.
  refine (proj1 (residents_after_tick default_config
                   [AddLog 1 1000 quiet [] 0; Tick 1000;
                    AddLog 2 1500 quiet [] 0; AddLog 3 2000 quiet [] 0]
                   2400 _)).
  split; cbn; repeat (constructor; [|repeat constructor; lia]); constructor.
Defined.

End WindowFacts.

(* ===================================================================== *)
(** * The two incidence maps of recall/dynamic_graph.py *)
(* ===================================================================== *)

Module SymmetryFacts.
Import Text Config Float Graph FloatFacts GraphFacts ChainFacts ResidentFacts.

(** The fields that the incidence lives in. *)
Definition incidence_fields (g : DynamicLogEntityGraph) :=
  (entities g, log_to_entities g, entity_to_logs g).

(** The deques are kept well: none is empty, an entity has a node when
    it has a deque, and no deque lists a log twice. *)
Definition deques_ok (g : DynamicLogEntityGraph) : Prop :=
  (forall e dq, entity_to_logs g !! e = Some dq -> dq <> []) /\
  (forall e, is_Some (entities g !! e) <-> is_Some (entity_to_logs g !! e)) /\
  (forall e, NoDup (get_logs_for_entity g e)).

(** The two maps agree on every log but [lid], and the deques that list
    [lid] are those of the entities that [P] accepts. *)
Definition mid (g : DynamicLogEntityGraph) (lid : Z) (P : str -> Prop) : Prop :=
  (forall l e, l <> lid ->
     e ∈ get_entities_for_log g l <-> l ∈ get_logs_for_entity g e) /\
  (forall e, lid ∈ get_logs_for_entity g e <-> P e) /\
  deques_ok g.

(** The two maps agree. *)
Definition sym (g : DynamicLogEntityGraph) : Prop :=
  (forall l e, e ∈ get_entities_for_log g l <-> l ∈ get_logs_for_entity g e) /\
  deques_ok g.

Lemma sym_mid g lid : sym g -> mid g lid (fun e => e ∈ get_entities_for_log g lid).
Proof.
  intros [Hs Hd]. split; [|split; [|assumption]].
  - intros l e _. apply Hs.
  - intros e. symmetry. apply Hs.
Qed.

Lemma mid_sym g lid P :
  mid g lid P -> (forall e, e ∈ get_entities_for_log g lid <-> P e) -> sym g.
Proof.
  intros (Ho & Hr & Hd) Hrow. split; [|assumption].
  intros l e. destruct (decide (l = lid)) as [->|Hne]; [|auto].
  rewrite Hrow, Hr. reflexivity.
Qed.

Lemma mid_ext g lid (P Q : str -> Prop) :
  mid g lid P -> (forall e, P e <-> Q e) -> mid g lid Q.
Proof.
  intros (Ho & Hr & Hd) H. split; [assumption|]. split; [|assumption].
  intros e. rewrite Hr. apply H.
Qed.

(** Writing the row of [lid] in [log_to_entities] keeps [mid]. *)
Lemma mid_row g1 g2 lid P :
  entities g1 = entities g2 -> entity_to_logs g1 = entity_to_logs g2 ->
  (forall l, l <> lid -> log_to_entities g1 !! l = log_to_entities g2 !! l) ->
  mid g2 lid P -> mid g1 lid P.
Proof.
  intros He Hd Hl (Ho & Hr & H1 & H2 & H3).
  unfold mid, deques_ok, get_entities_for_log, get_logs_for_entity in *.
  rewrite He, Hd. split; [|split; [|repeat split]]; try assumption.
  - intros l e Hne. rewrite (Hl l Hne). auto.
  - apply H2.
  - apply H2.
Qed.

Lemma sym_fields g1 g2 :
  incidence_fields g1 = incidence_fields g2 -> sym g2 -> sym g1.
Proof.
  unfold incidence_fields. intros [= He Hl Hd].
  unfold sym, deques_ok, get_entities_for_log, get_logs_for_entity.
  rewrite He, Hl, Hd. auto.
Qed.

(** ** Deques *)

Lemma elem_of_without lid dq x : x ∈ without lid dq <-> x ∈ dq /\ x <> lid.
Proof. unfold without. rewrite list_elem_of_filter. tauto. Qed.

Lemma without_absent lid dq : lid ∉ dq -> without lid dq = dq.
Proof.
  unfold without. induction dq as [|x dq IH]; intros H; [reflexivity|].
  rewrite not_elem_of_cons in H. destruct H as [Hne Hin].
  rewrite filter_cons_True by congruence. rewrite IH by assumption. reflexivity.
Qed.

Lemma without_pop_heads lid dq : without lid (pop_heads lid dq) = without lid dq.
Proof.
  unfold without. induction dq as [|x dq IH]; [reflexivity|].
  cbn [pop_heads]. destruct (x =? lid) eqn:E.
  - apply Z.eqb_eq in E. subst x. rewrite IH.
    rewrite (filter_cons_False _ lid dq) by tauto. reflexivity.
  - reflexivity.
Qed.

(** The two unlinking loops store the same deque. *)
Lemma unlink_removed_pruned lid e g :
  unlink_removed lid e g = unlink_pruned lid e g.
Proof.
  unfold unlink_removed, unlink_pruned.
  destruct (entity_to_logs g !! e) as [[|x dq]|]; try reflexivity.
  f_equal. set (d := x :: dq).
  assert (H1 : (if bool_decide (lid ∈ pop_heads lid d)
                then without lid (pop_heads lid d) else pop_heads lid d)
               = without lid d).
  { case_bool_decide as H.
    - apply without_pop_heads.
    - rewrite <- (without_absent lid _ H). apply without_pop_heads. }
  rewrite H1. clear H1. case_bool_decide as H; [reflexivity|].
  apply without_absent. assumption.
Qed.

Lemma unlink_pruned_l2e lid e g :
  log_to_entities (unlink_pruned lid e g) = log_to_entities g.
Proof.
  unfold unlink_pruned, store_deque.
  destruct (entity_to_logs g !! e) as [[|x dq]|]; try reflexivity.
  destruct (if bool_decide _ then _ else _); reflexivity.
Qed.

(** What an unlinking stores, when the deques are kept well. *)
Lemma unlink_pruned_lookup lid e g :
  deques_ok g ->
  let g' := unlink_pruned lid e g in
  (forall e', get_logs_for_entity g' e'
              = if decide (e' = e) then without lid (get_logs_for_entity g e)
                else get_logs_for_entity g e') /\
  (forall e' dq, entity_to_logs g' !! e' = Some dq -> dq <> []) /\
  (forall e', is_Some (entities g' !! e') <-> is_Some (entity_to_logs g' !! e')).
Proof.
  intros (Hne & Hnodes & Hnd). cbv zeta. unfold unlink_pruned.
  destruct (entity_to_logs g !! e) as [dq|] eqn:Hdq.
  - pose proof (Hne e dq Hdq) as Hdq0.
    destruct dq as [|x dq]; [contradiction|]. set (d := x :: dq) in *.
    assert (Hw : (if bool_decide (lid ∈ d) then without lid d else d)
                 = without lid d).
    { case_bool_decide as H; [reflexivity|]. symmetry.
      apply without_absent. assumption. }
    rewrite Hw. clear Hw.
    assert (Hg : get_logs_for_entity g e = d)
      by (unfold get_logs_for_entity; rewrite Hdq; reflexivity).
    rewrite Hg. unfold store_deque.
    destruct (without lid d) as [|y w] eqn:Ew; unfold get_logs_for_entity;
      cbn [entity_to_logs entities with_incidence].
    + split; [|split].
      * intros e'. destruct (decide (e' = e)) as [->|Hn].
        -- rewrite lookup_delete_eq. reflexivity.
        -- rewrite lookup_delete_ne by congruence. reflexivity.
      * intros e' dq'. destruct (decide (e' = e)) as [->|Hn].
        -- rewrite lookup_delete_eq. discriminate.
        -- rewrite lookup_delete_ne by congruence. apply Hne.
      * intros e'. destruct (decide (e' = e)) as [->|Hn].
        -- rewrite !lookup_delete_eq. split; intros [? [=]].
        -- rewrite !lookup_delete_ne by congruence. apply Hnodes.
    + split; [|split].
      * intros e'. destruct (decide (e' = e)) as [->|Hn].
        -- rewrite lookup_insert_eq. reflexivity.
        -- rewrite lookup_insert_ne by congruence. reflexivity.
      * intros e' dq'. destruct (decide (e' = e)) as [->|Hn].
        -- rewrite lookup_insert_eq. intros [= <-]. discriminate.
        -- rewrite lookup_insert_ne by congruence. apply Hne.
      * intros e'. destruct (decide (e' = e)) as [->|Hn].
        -- rewrite lookup_insert_eq. rewrite Hnodes, Hdq.
           split; intros _; eexists; reflexivity.
        -- rewrite lookup_insert_ne by congruence. apply Hnodes.
  - split; [|split; assumption].
    intros e'. destruct (decide (e' = e)) as [->|Hn]; [|reflexivity].
    unfold get_logs_for_entity. rewrite Hdq. reflexivity.
Qed.

Lemma unlink_pruned_mid lid e g P :
  mid g lid P -> mid (unlink_pruned lid e g) lid (fun e' => P e' /\ e' <> e).
Proof.
  intros (Ho & Hr & Hd).
  destruct (unlink_pruned_lookup lid e g Hd) as (Hget & Hne & Hnodes).
  pose proof (unlink_pruned_l2e lid e g) as Hl.
  split; [|split; [|split; [|split]]]; try assumption.
  - intros l e' Hn. unfold get_entities_for_log at 1. rewrite Hl.
    fold (get_entities_for_log g l). rewrite Hget.
    destruct (decide (e' = e)) as [->|Hn']; [|auto].
    rewrite elem_of_without. rewrite Ho by assumption. tauto.
  - intros e'. rewrite Hget. destruct (decide (e' = e)) as [->|Hn'].
    + rewrite elem_of_without. tauto.
    + rewrite Hr. tauto.
  - intros e'. rewrite Hget. destruct Hd as (_ & _ & Hnd).
    destruct (decide (e' = e)); [|apply Hnd].
    unfold without. apply NoDup_filter, Hnd.
Qed.

Lemma foldr_unlink_mid lid l g P :
  mid g lid P ->
  mid (foldr (unlink_pruned lid) g l) lid (fun e => P e /\ e ∉ l) /\
  log_to_entities (foldr (unlink_pruned lid) g l) = log_to_entities g.
Proof.
  intros H. induction l as [|a l [IH1 IH2]]; cbn [foldr].
  - split; [|reflexivity]. eapply mid_ext; [exact H|].
    intros e. rewrite elem_of_nil. tauto.
  - split.
    + eapply mid_ext; [apply unlink_pruned_mid; exact IH1|].
      intros e. cbn beta. rewrite not_elem_of_cons. tauto.
    + rewrite unlink_pruned_l2e. assumption.
Qed.

Lemma foldr_unlink_removed lid l g :
  foldr (unlink_removed lid) g l = foldr (unlink_pruned lid) g l.
Proof.
  induction l as [|a l IH]; [reflexivity|]. cbn [foldr].
  rewrite IH. apply unlink_removed_pruned.
Qed.

(** ** [_remove_log] *)

Lemma remove_log_sym lid g : sym g -> sym (_remove_log lid g).
Proof.
  intros Hs. unfold _remove_log. rewrite foldr_unlink_removed.
  set (ents := default ∅ (log_to_entities g !! lid)).
  set (g1 := match logs g !! lid with Some _ => _ | None => _ end).
  assert (He : entities g1 = entities g) by (unfold g1; destruct (logs g !! lid); reflexivity).
  assert (Hd : entity_to_logs g1 = entity_to_logs g)
    by (unfold g1; destruct (logs g !! lid); reflexivity).
  assert (Hl : log_to_entities g1 = delete lid (log_to_entities g))
    by (unfold g1; destruct (logs g !! lid); reflexivity).
  assert (Hm : mid g1 lid (fun e => e ∈ ents)).
  { apply (mid_row g1 g); [assumption|assumption| |apply sym_mid; assumption].
    intros l Hne. rewrite Hl. apply lookup_delete_ne. congruence. }
  destruct (foldr_unlink_mid lid (elements ents) g1 _ Hm) as [H1 H2].
  apply (mid_sym _ lid _ H1). intros e.
  unfold get_entities_for_log. rewrite H2, Hl, lookup_delete_eq. cbn.
  rewrite elem_of_elements. split; [intros H; apply elem_of_empty in H; destruct H|tauto].
Qed.

Lemma remove_log_l2e lid g :
  log_to_entities (_remove_log lid g) = delete lid (log_to_entities g).
Proof.
  unfold _remove_log. rewrite foldr_unlink_removed.
  set (g1 := match logs g !! lid with Some _ => _ | None => _ end).
  assert (Hm : log_to_entities (foldr (unlink_pruned lid) g1
                 (elements (default ∅ (log_to_entities g !! lid))))
               = log_to_entities g1).
  { generalize (elements (default ∅ (log_to_entities g !! lid))). intros l.
    induction l as [|a l IH]; [reflexivity|]. cbn [foldr].
    rewrite unlink_pruned_l2e. assumption. }
  rewrite Hm. unfold g1. destruct (logs g !! lid); reflexivity.
Qed.

(** ** [_evict_logs] *)

Lemma evict_loop_sym cutoff w : forall g, sym g -> sym (evict_loop cutoff w g).
Proof.
  induction w as [|x w IH]; intros g Hs; [exact Hs|].
  cbn [evict_loop]. destruct (logs g !! x) as [ln|]; [|exact Hs].
  destruct (_ <? _); [|exact Hs].
  apply IH, remove_log_sym. exact Hs.
Qed.

Lemma evict_logs_sym now g : sym g -> sym (_evict_logs now g).
Proof.
  intros Hs. unfold _evict_logs. destruct (_ <=? 0); [assumption|].
  apply evict_loop_sym. assumption.
Qed.

(** ** [_prune_edges] *)

Lemma prune_incidence_sym cutoff lid g : sym g -> sym (prune_incidence cutoff lid g).
Proof.
  intros Hs. unfold prune_incidence.
  destruct (logs g !! lid) as [ln|]; [|assumption].
  destruct (_ <=? _); [assumption|].
  destruct (log_to_entities g !! lid) as [ents|] eqn:Hl; [|assumption].
  destruct (bool_decide _); [assumption|].
  assert (Hm : mid g lid (fun e => e ∈ ents)).
  { eapply mid_ext; [apply sym_mid; exact Hs|].
    intros e. unfold get_entities_for_log. rewrite Hl. reflexivity. }
  destruct (foldr_unlink_mid lid (elements ents) g _ Hm) as [H1 H2].
  set (g' := foldr (unlink_pruned lid) g (elements ents)) in *.
  apply (mid_sym _ lid (fun e => e ∈ ents /\ e ∉ elements ents)).
  - apply (mid_row _ g'); [reflexivity|reflexivity| |assumption].
    intros l Hne. cbn [log_to_entities with_incidence].
    apply lookup_insert_ne. congruence.
  - intros e. unfold get_entities_for_log. cbn [log_to_entities with_incidence].
    rewrite lookup_insert_eq. cbn. rewrite elem_of_elements.
    split; [intros H; apply elem_of_empty in H; destruct H|tauto].
Qed.

Lemma prune_chain_incidence cutoff lid g :
  incidence_fields (prune_chain cutoff lid g) = incidence_fields g.
Proof.
  unfold prune_chain. destruct (logs g !! lid) as [ln|]; [|reflexivity].
  destruct (prev_log_id ln); [|reflexivity]. destruct (_ <? _); reflexivity.
Qed.

Lemma fold_left_sym {A : Type}
    (f : DynamicLogEntityGraph -> A -> DynamicLogEntityGraph) (l : list A) :
  (forall g x, sym g -> sym (f g x)) ->
  forall g, sym g -> sym (fold_left f l g).
Proof.
  intros Hf. induction l as [|x l IH]; intros g Hs; [exact Hs|].
  cbn [fold_left]. apply IH, Hf, Hs.
Qed.

Lemma prune_edges_sym now g : sym g -> sym (_prune_edges now g).
Proof.
  intros Hs. unfold _prune_edges.
  destruct (prune_age_limit (cfg g)); [|assumption]. unfold prune_loops.
  apply fold_left_sym.
  - intros g' x H. apply (sym_fields _ g'); [apply prune_chain_incidence|exact H].
  - apply fold_left_sym; [|assumption].
    intros g' x H. apply prune_incidence_sym. exact H.
Qed.

(** ** [_prune_entities_by_activity] *)

Lemma foldr_discard_lookup (e : str) (l : list Z) (m : gmap Z (gset str)) z x :
  x ∈ default ∅ (foldr (fun lid m => alter (fun s => s ∖ {[e]}) lid m) m l !! z)
  <-> x ∈ default ∅ (m !! z) /\ (z ∈ l -> x <> e).
Proof.
  induction l as [|a l IH]; cbn [foldr].
  - rewrite elem_of_nil. tauto.
  - destruct (decide (a = z)) as [->|Hne].
    + rewrite lookup_alter_eq.
      set (o := foldr _ m l !! z) in *.
      assert (Ho : x ∈ default ∅ ((fun s : gset str => s ∖ {[e]}) <$> o)
                   <-> x ∈ default ∅ o /\ x <> e).
      { destruct o; cbn.
        - rewrite elem_of_difference, elem_of_singleton. reflexivity.
        - rewrite elem_of_empty. tauto. }
      rewrite Ho, IH, elem_of_cons. tauto.
    + rewrite lookup_alter_ne by assumption. rewrite IH, elem_of_cons.
      split; [|tauto]. intros [H1 H2]. split; [assumption|].
      intros [->|H]; [congruence|auto].
Qed.

Lemma foldr_discard_keys (e : str) (l : list Z) (m : gmap Z (gset str)) z :
  is_Some (foldr (fun lid m => alter (fun s => s ∖ {[e]}) lid m) m l !! z)
  <-> is_Some (m !! z).
Proof.
  induction l as [|a l IH]; cbn [foldr]; [reflexivity|].
  destruct (decide (a = z)) as [->|Hne].
  - rewrite lookup_alter_eq, <- IH. rewrite fmap_is_Some. reflexivity.
  - rewrite lookup_alter_ne by assumption. exact IH.
Qed.

Lemma drop_entity_sym e g : sym g -> sym (drop_entity e g).
Proof.
  intros (Hs & Hne & Hnodes & Hnd).
  assert (Hget : forall e', get_logs_for_entity (drop_entity e g) e'
                 = if decide (e' = e) then [] else get_logs_for_entity g e').
  { intros e'. unfold get_logs_for_entity, drop_entity.
    cbn [entity_to_logs with_incidence].
    destruct (decide (e' = e)) as [->|Hn].
    - rewrite lookup_delete_eq. reflexivity.
    - rewrite lookup_delete_ne by congruence. reflexivity. }
  assert (Hent : forall l x, x ∈ get_entities_for_log (drop_entity e g) l
                 <-> x ∈ get_entities_for_log g l /\
                     (l ∈ get_logs_for_entity g e -> x <> e)).
  { intros l x. unfold get_entities_for_log at 1, drop_entity.
    cbn [log_to_entities with_incidence]. apply foldr_discard_lookup. }
  split; [|split; [|split]].
  - intros l e'. rewrite Hent, Hget.
    destruct (decide (e' = e)) as [->|Hn].
    + rewrite elem_of_nil. split; [|intros []].
      intros [H1 H2]. apply H2; [|reflexivity]. apply Hs. assumption.
    + rewrite <- (Hs l e'). tauto.
  - intros e' dq. unfold drop_entity. cbn [entity_to_logs with_incidence].
    destruct (decide (e' = e)) as [->|Hn].
    + rewrite lookup_delete_eq. discriminate.
    + rewrite lookup_delete_ne by congruence. apply Hne.
  - intros e'. unfold drop_entity. cbn [entity_to_logs entities with_incidence].
    destruct (decide (e' = e)) as [->|Hn].
    + rewrite !lookup_delete_eq. split; intros [? [=]].
    + rewrite !lookup_delete_ne by congruence. apply Hnodes.
  - intros e'. rewrite Hget. destruct (decide (e' = e)); [constructor|apply Hnd].
Qed.

Lemma prune_entities_sym g : sym g -> sym (_prune_entities_by_activity g).
Proof.
  intros Hs. unfold _prune_entities_by_activity.
  destruct (Rleb _ 0); [assumption|]. destruct (negb _); [assumption|].
  apply fold_left_sym; [|assumption].
  intros g' e H. apply drop_entity_sym. exact H.
Qed.

Lemma tick_sym now g : sym g -> sym (tick now g).
Proof.
  intros Hs. unfold tick.
  apply prune_entities_sym, prune_edges_sym, evict_logs_sym. assumption.
Qed.

(** ** [add_log] *)

Lemma link_entity_mid lid ts e g P :
  mid g lid P -> ~ P e ->
  mid (link_entity lid ts e g) lid (fun e' => P e' \/ e' = e).
Proof.
  intros (Ho & Hr & Hne & Hnodes & Hnd) HP.
  assert (Hget : forall e', get_logs_for_entity (link_entity lid ts e g) e'
                 = if decide (e' = e) then get_logs_for_entity g e ++ [lid]
                   else get_logs_for_entity g e').
  { intros e'. unfold get_logs_for_entity at 1, link_entity.
    cbn [entity_to_logs with_incidence].
    destruct (decide (e' = e)) as [->|Hn].
    - rewrite lookup_insert_eq. reflexivity.
    - rewrite lookup_insert_ne by congruence. reflexivity. }
  split; [|split; [|split; [|split]]].
  - intros l e' Hn. rewrite Hget.
    change (get_entities_for_log (link_entity lid ts e g) l)
      with (get_entities_for_log g l).
    destruct (decide (e' = e)) as [->|Hn']; [|auto].
    rewrite elem_of_app, list_elem_of_singleton, (Ho l e Hn). tauto.
  - intros e'. rewrite Hget. destruct (decide (e' = e)) as [->|Hn'].
    + rewrite elem_of_app, list_elem_of_singleton. tauto.
    + rewrite Hr. tauto.
  - intros e' dq. unfold link_entity. cbn [entity_to_logs with_incidence].
    destruct (decide (e' = e)) as [->|Hn].
    + rewrite lookup_insert_eq. intros [= <-].
      destruct (get_logs_for_entity g e); discriminate.
    + rewrite lookup_insert_ne by congruence. apply Hne.
  - intros e'. unfold link_entity. cbn [entity_to_logs entities with_incidence].
    destruct (decide (e' = e)) as [->|Hn].
    + rewrite !lookup_insert_eq. split; intros _; eexists; reflexivity.
    + rewrite !lookup_insert_ne by congruence. apply Hnodes.
  - intros e'. rewrite Hget. destruct (decide (e' = e)) as [->|Hn]; [|apply Hnd].
    apply NoDup_app. split; [apply Hnd|]. split; [|apply NoDup_singleton].
    intros x Hx Hx'. apply list_elem_of_singleton in Hx'. subst x.
    apply HP, Hr. assumption.
Qed.

Lemma foldr_link_mid lid ts l g :
  NoDup l ->
  mid g lid (fun _ => False) ->
  mid (foldr (link_entity lid ts) g l) lid (fun e => e ∈ l) /\
  log_to_entities (foldr (link_entity lid ts) g l) = log_to_entities g.
Proof.
  intros Hl Hm. induction Hl as [|a l Ha Hl [IH1 IH2]]; cbn [foldr].
  - split; [|reflexivity]. eapply mid_ext; [exact Hm|].
    intros e. rewrite elem_of_nil. tauto.
  - split; [|exact IH2].
    eapply mid_ext; [apply link_entity_mid; [exact IH1|exact Ha]|].
    intros e. cbn beta. rewrite elem_of_cons. tauto.
Qed.

Lemma add_log_l2e lid ts msg ents sev g :
  log_to_entities (add_log lid ts msg ents sev g)
  = <[lid := kept_entities (cfg g) ents]> (log_to_entities g).
Proof.
  unfold add_log.
  set (g1 := with_incidence _ _ _ _).
  assert (H : forall l, log_to_entities (foldr (link_entity lid ts) g1 l)
                        = log_to_entities g1).
  { induction l as [|a l IH]; [reflexivity|]. exact IH. }
  rewrite H. reflexivity.
Qed.

(** A log whose identifier has no row yet keeps the maps in agreement. *)
Lemma add_log_sym lid ts msg ents sev g :
  sym g -> log_to_entities g !! lid = None ->
  sym (add_log lid ts msg ents sev g).
Proof.
  intros Hs Hfresh. pose proof (add_log_l2e lid ts msg ents sev g) as Hl2e.
  unfold add_log in *.
  set (g0 := append_log lid ts msg sev g) in *.
  set (S := kept_entities (cfg g0) ents) in *.
  set (g1 := with_incidence g0 (entities g0) (<[lid := S]> (log_to_entities g0))
               (entity_to_logs g0)) in *.
  assert (Hm0 : mid g lid (fun _ => False)).
  { eapply mid_ext; [apply sym_mid; exact Hs|].
    intros e. unfold get_entities_for_log. rewrite Hfresh. cbn.
    rewrite elem_of_empty. tauto. }
  assert (Hm1 : mid g1 lid (fun _ => False)).
  { apply (mid_row g1 g); [reflexivity|reflexivity| |exact Hm0].
    intros l Hne. unfold g1. cbn [log_to_entities with_incidence].
    apply lookup_insert_ne. congruence. }
  destruct (foldr_link_mid lid ts (elements S) g1 (NoDup_elements S) Hm1)
    as [H1 H2].
  apply (mid_sym _ lid _ H1). intros e.
  unfold get_entities_for_log. rewrite H2. unfold g1.
  cbn [log_to_entities with_incidence]. rewrite lookup_insert_eq. cbn.
  rewrite elem_of_elements. reflexivity.
Qed.

(** ** Rows and residents *)

(** Every row of [log_to_entities] is the row of a log of the graph. *)
Definition rows_resident (g : DynamicLogEntityGraph) : Prop :=
  forall l, is_Some (log_to_entities g !! l) -> is_Some (node_core g l).

Lemma rows_resident_same g1 g2 :
  log_to_entities g1 = log_to_entities g2 ->
  (forall z, node_core g1 z = node_core g2 z) ->
  rows_resident g2 -> rows_resident g1.
Proof. intros Hl Hc H l. rewrite Hl, Hc. apply H. Qed.

Lemma add_log_rows lid ts msg ents sev g :
  rows_resident g -> rows_resident (add_log lid ts msg ents sev g).
Proof.
  intros H l. rewrite add_log_l2e, add_log_core.
  destruct (decide (l = lid)) as [->|Hne]; [intros _; eexists; reflexivity|].
  rewrite lookup_insert_ne by congruence. apply H.
Qed.

Lemma remove_log_rows x g : rows_resident g -> rows_resident (_remove_log x g).
Proof.
  intros H l. rewrite remove_log_l2e, remove_log_core.
  destruct (decide (l = x)) as [->|Hne].
  - rewrite lookup_delete_eq. intros [? [=]].
  - rewrite lookup_delete_ne by congruence. apply H.
Qed.

Lemma evict_loop_rows cutoff w :
  forall g, rows_resident g -> rows_resident (evict_loop cutoff w g).
Proof.
  induction w as [|x w IH]; intros g H; [exact H|].
  cbn [evict_loop]. destruct (logs g !! x) as [ln|]; [|exact H].
  destruct (_ <? _); [|exact H].
  apply IH, remove_log_rows. exact H.
Qed.

Lemma foldr_unlink_l2e lid l g :
  log_to_entities (foldr (unlink_pruned lid) g l) = log_to_entities g.
Proof.
  induction l as [|a l IH]; [reflexivity|]. cbn [foldr].
  rewrite unlink_pruned_l2e. assumption.
Qed.

Lemma prune_incidence_rows cutoff lid g :
  rows_resident g -> rows_resident (prune_incidence cutoff lid g).
Proof.
  intros H l.
  rewrite (node_core_fields _ _ l (prune_incidence_chain cutoff lid g)).
  unfold prune_incidence. destruct (logs g !! lid) as [ln|]; [|apply H].
  destruct (_ <=? _); [apply H|].
  destruct (log_to_entities g !! lid) as [ents|] eqn:Hl; [|apply H].
  destruct (bool_decide _); [apply H|].
  cbn [log_to_entities with_incidence]. rewrite foldr_unlink_l2e.
  destruct (decide (l = lid)) as [->|Hne].
  - intros _. apply H. rewrite Hl. eexists. reflexivity.
  - rewrite lookup_insert_ne by congruence. apply H.
Qed.

Lemma fold_left_rows {A : Type}
    (f : DynamicLogEntityGraph -> A -> DynamicLogEntityGraph) (l : list A) :
  (forall g x, rows_resident g -> rows_resident (f g x)) ->
  forall g, rows_resident g -> rows_resident (fold_left f l g).
Proof.
  intros Hf. induction l as [|x l IH]; intros g Hs; [exact Hs|].
  cbn [fold_left]. apply IH, Hf, Hs.
Qed.

Lemma prune_chain_rows cutoff lid g :
  rows_resident g -> rows_resident (prune_chain cutoff lid g).
Proof.
  intros H. apply (rows_resident_same _ g); [|apply prune_chain_core|exact H].
  pose proof (prune_chain_incidence cutoff lid g) as Hi.
  unfold incidence_fields in Hi. congruence.
Qed.

Lemma drop_entity_rows e g : rows_resident g -> rows_resident (drop_entity e g).
Proof.
  intros H l. unfold drop_entity at 1. cbn [log_to_entities with_incidence].
  rewrite foldr_discard_keys. apply H.
Qed.

Lemma tick_rows now g : rows_resident g -> rows_resident (tick now g).
Proof.
  intros H. unfold tick, _prune_entities_by_activity, _prune_edges, _evict_logs.
  set (g1 := if _ <=? 0 then g else _).
  assert (H1 : rows_resident g1).
  { unfold g1. destruct (_ <=? 0); [assumption|]. apply evict_loop_rows, H. }
  set (g2 := match prune_age_limit (cfg g1) with Some _ => _ | None => _ end).
  assert (H2 : rows_resident g2).
  { unfold g2. destruct (prune_age_limit (cfg g1)); [|assumption].
    unfold prune_loops. apply fold_left_rows.
    - intros g' x. apply prune_chain_rows.
    - apply fold_left_rows; [|assumption].
      intros g' x. apply prune_incidence_rows. }
  destruct (Rleb _ 0); [assumption|]. destruct (negb _); [assumption|].
  apply fold_left_rows; [|assumption]. intros g' e. apply drop_entity_rows.
Qed.

(** ** Runs *)

Lemma run_residents_added c ops z :
  is_Some (node_core (run ops (new_graph c)) z) -> In z (omap op_id ops).
Proof.
  induction ops as [|o ops IH] using rev_ind.
  - unfold node_core, run, new_graph. cbn. rewrite lookup_empty.
    intros [? [=]].
  - rewrite WindowFacts.run_snoc, omap_app.
    destruct o as [lid ts msg ents sev|now]; cbn [apply_op].
    + rewrite add_log_core. intros H. apply in_or_app.
      destruct (decide (z = lid)) as [->|Hne]; [right; left; reflexivity|auto].
    + intros [cr H]. apply tick_sub in H. rewrite app_nil_r. apply IH. eauto.
Qed.

Lemma run_sym c ops :
  List.NoDup (omap op_id ops) ->
  sym (run ops (new_graph c)) /\ rows_resident (run ops (new_graph c)).
Proof.
  induction ops as [|o ops IH] using rev_ind; intros Hnd.
  - unfold run, new_graph, sym, deques_ok, rows_resident,
      get_entities_for_log, get_logs_for_entity. cbn.
    split; [split; [|split; [|split]]|].
    + intros l e. rewrite lookup_empty. cbn. rewrite elem_of_empty, elem_of_nil.
      reflexivity.
    + intros e dq. rewrite lookup_empty. discriminate.
    + intros e. rewrite !lookup_empty. split; intros [? [=]].
    + intros e. rewrite lookup_empty. constructor.
    + intros l. rewrite lookup_empty. intros [? [=]].
  - rewrite omap_app in Hnd. rewrite WindowFacts.run_snoc.
    apply NoDup_ListNoDup, NoDup_app in Hnd as (Hnd & Hfresh & _).
    apply NoDup_ListNoDup in Hnd. destruct (IH Hnd) as [Hs Hr].
    destruct o as [lid ts msg ents sev|now]; cbn [apply_op].
    + split; [|apply add_log_rows; assumption].
      apply add_log_sym; [assumption|].
      destruct (log_to_entities (run ops (new_graph c)) !! lid) eqn:E;
        [|reflexivity].
      exfalso. apply (Hfresh lid).
      * apply list_elem_of_In, (run_residents_added c). apply Hr.
        rewrite E. eexists. reflexivity.
      * cbn. left.
    + split; [apply tick_sym|apply tick_rows]; assumption.
Qed.

(** X17.  After calls of [add_log] and [tick] in which no log identifier
    comes twice, the two incidence maps agree: an entity is in the row of
    a log exactly when the log is in the deque of the entity.  An entity
    has a node exactly when its deque is not empty, no deque lists a log
    twice, and every log with a row is in the graph. *)
Theorem incidence_maps_agree (c : RecallConfig) (ops : list Op) :
  List.NoDup (omap op_id ops) ->
  let g := run ops (new_graph c) in
  (forall lid e,
     e ∈ get_entities_for_log g lid <-> In lid (get_logs_for_entity g e)) /\
  (forall e, is_Some (entities g !! e) <-> get_logs_for_entity g e <> []) /\
  (forall e, List.NoDup (get_logs_for_entity g e)) /\
  (forall lid e, e ∈ get_entities_for_log g lid -> is_Some (get_log g lid)).
Proof.
  intros Hnd. cbv zeta.
  destruct (run_sym c ops Hnd) as [(Hs & Hne & Hnodes & Hdq) Hr].
  set (g := run ops (new_graph c)) in *.
  split; [|split; [|split]].
  - intros lid e. rewrite Hs. apply list_elem_of_In.
  - intros e. rewrite Hnodes. unfold get_logs_for_entity.
    destruct (entity_to_logs g !! e) as [dq|] eqn:E; cbn.
    + split; [intros _; apply (Hne e dq E)|intros _; eexists; reflexivity].
    + split; [intros [? [=]]|congruence].
  - intros e. apply NoDup_ListNoDup, Hdq.
  - intros lid e He. unfold get_entities_for_log in He.
    destruct (log_to_entities g !! lid) as [s|] eqn:E.
    + assert (H : is_Some (node_core g lid))
        by (apply Hr; rewrite E; eexists; reflexivity).
      destruct H as [cr H]. apply node_core_Some in H as (ln & Hln & _). eauto.
    + cbn in He. apply elem_of_empty in He. destruct He.
Qed.

Lemma incidence_maps_agree_witness :
  List.NoDup
    (get_logs_for_entity
       (run [AddLog 1 1000 (lit "up node-1 10.0.0.5") [lit "10.0.0.5"] 0;
             Tick 1000;
             AddLog 2 1001 (lit "down node-1 10.0.0.5") [lit "10.0.0.5"] 0;
             Tick 1001]
          (new_graph default_config)) (lit "10.0.0.5")).
Proof.
  refine (proj1 (proj2 (proj2 (incidence_maps_agree default_config
    [AddLog 1 1000 (lit "up node-1 10.0.0.5") [lit "10.0.0.5"] 0; Tick 1000;
     AddLog 2 1001 (lit "down node-1 10.0.0.5") [lit "10.0.0.5"] 0; Tick 1001]
    _))) (lit "10.0.0.5")).
  cbn. repeat constructor; cbn; intuition lia.
Defined.

End SymmetryFacts.

(* ===================================================================== *)
(** * The decay of recall/dynamic_graph.py *)
(* ===================================================================== *)

Module DecayFacts.
Import Text Config Float Graph FloatFacts GraphFacts ChainFacts.

Lemma Rleb_false_inv x y : Rleb x y = false -> (y < x)%R.
Proof.
  intros H. destruct (Rle_dec x y) as [Hle|Hgt]; [|lra].
  apply Rleb_true in Hle. congruence.
Qed.

(** X18.  The weight of an edge does not grow with its age: of two edges
    read at the same time the older one weighs no more; and an edge that
    is not older than the reading weighs 1. *)
Theorem edge_weight_decays (c : RecallConfig) (ts1 ts2 now : Z) :
  ts1 <= ts2 ->
  (_edge_weight c ts1 now <= _edge_weight c ts2 now)%R /\
  (now <= ts2 -> _edge_weight c ts2 now = 1%R).
Proof.
  intros Hle. unfold _edge_weight.
  destruct (Rleb (_lambda c) 0) eqn:E; [split; [lra|reflexivity]|].
  apply Rleb_false_inv in E. split.
  - assert (H : (IZR (Z.max 0 (now - ts2)) <= IZR (Z.max 0 (now - ts1)))%R)
      by (apply IZR_le; lia).
    destruct (Req_dec (IZR (Z.max 0 (now - ts2))) (IZR (Z.max 0 (now - ts1))))
      as [->|Hne]; [lra|].
    left. apply exp_increasing. nra.
  - intros Hnow. rewrite Z.max_l by lia. rewrite Rmult_0_r. apply exp_0.
Qed.

Lemma edge_weight_decays_witness :
  (_edge_weight default_config 10 100 <= _edge_weight default_config 20 100)%R.
Proof.
  apply (edge_weight_decays default_config 10 20 100). lia.
Defined.

End DecayFacts.

(* ===================================================================== *)
(** * Properties of recall/data.py *)
(* ===================================================================== *)

Module DataFacts.
Import Text PyList Pipeline Data PyListFacts.

(** What the loader reads from a line: everything but the identifier. *)
Definition content (r : LogRecord) : Z * str * Z :=
  (Pipeline.ts_sec r, Pipeline.message r, true_label r).

Lemma number_from_ids i l :
  map Pipeline.log_id (number_from i l)
  = map (fun k => i + Z.of_nat k) (seq 0 (length l)).
Proof.
  revert i. induction l as [|r l IH]; intros i; [reflexivity|].
  cbn [number_from map length seq Pipeline.log_id]. f_equal; [lia|].
  rewrite IH, <- seq_shift, map_map. apply map_ext. intros k. lia.
Qed.

Lemma number_from_content i l :
  map content (number_from i l) = map content l.
Proof.
  revert i. induction l as [|r l IH]; intros i; [reflexivity|].
  cbn [number_from map]. rewrite IH. reflexivity.
Qed.

Lemma number_from_ts i l :
  map Pipeline.ts_sec (number_from i l) = map Pipeline.ts_sec l.
Proof.
  revert i. induction l as [|r l IH]; intros i; [reflexivity|].
  cbn [number_from map]. rewrite IH. reflexivity.
Qed.

Lemma number_from_length i l : length (number_from i l) = length l.
Proof.
  revert i. induction l as [|r l IH]; intros i; [reflexivity|].
  cbn [number_from length]. rewrite IH. reflexivity.
Qed.

Definition ts_le (x y : LogRecord) : Prop := Pipeline.ts_sec x <= Pipeline.ts_sec y.

Lemma sort_records_sorted l : StronglySorted ts_le (sort_records l).
Proof.
  unfold sort_records. apply sort_by_sorted; unfold ts_le.
  - intros x y H. apply Z.leb_le in H. assumption.
  - intros x y H. apply Z.leb_gt in H. lia.
  - intros x y z. lia.
Qed.

Lemma sorted_map_ts l :
  StronglySorted ts_le l -> StronglySorted Z.le (map Pipeline.ts_sec l).
Proof.
  induction 1 as [|x l Hs IH Hx]; cbn [map]; constructor; [assumption|].
  rewrite List.Forall_forall in *. intros t Ht.
  apply in_map_iff in Ht as (y & <- & Hy). apply (Hx y Hy).
Qed.

(** The sort is stable: the records of one timestamp stay in the order of
    the file. *)
Lemma insert_stable t x l :
  List.filter (fun r => Pipeline.ts_sec r =? t)
    (insert_by (fun x y => Pipeline.ts_sec x <=? Pipeline.ts_sec y) x l)
  = List.filter (fun r => Pipeline.ts_sec r =? t) (x :: l).
Proof.
  induction l as [|y l IH]; [reflexivity|]. cbn [insert_by].
  destruct (Pipeline.ts_sec x <=? Pipeline.ts_sec y) eqn:E; [reflexivity|].
  apply Z.leb_gt in E. cbn [List.filter] in *.
  destruct (Pipeline.ts_sec y =? t) eqn:Ey.
  - apply Z.eqb_eq in Ey. rewrite IH.
    rewrite (proj2 (Z.eqb_neq (Pipeline.ts_sec x) t)) by lia. reflexivity.
  - rewrite IH. reflexivity.
Qed.

Lemma sort_records_stable t l :
  List.filter (fun r => Pipeline.ts_sec r =? t) (sort_records l)
  = List.filter (fun r => Pipeline.ts_sec r =? t) l.
Proof.
  unfold sort_records, sort_by. induction l as [|x l IH]; [reflexivity|].
  cbn [foldr]. rewrite insert_stable. cbn [List.filter]. rewrite IH.
  reflexivity.
Qed.

Lemma filter_map_content t l :
  List.filter (fun c : Z * str * Z => c.1.1 =? t) (map content l)
  = map content (List.filter (fun r => Pipeline.ts_sec r =? t) l).
Proof.
  induction l as [|x l IH]; [reflexivity|]. cbn [map List.filter].
  change ((content x).1.1) with (Pipeline.ts_sec x).
  destruct (Pipeline.ts_sec x =? t); cbn [map]; rewrite IH; reflexivity.
Qed.

Lemma parse_line_label line r :
  parse_line line = Some r -> true_label r = 0 \/ true_label r = 1.
Proof.
  unfold parse_line. destruct (negb _); [discriminate|].
  destruct (find_space _); [|discriminate].
  intros [= <-]. cbn [true_label]. destruct (bool_decide _); auto.
Qed.

(** X20.  The loader returns the records of the lines that it keeps,
    sorted by timestamp, the records of one timestamp in the order of the
    file, and numbered 0, 1, 2, ... in that order; a label is 0 or 1. *)
Theorem loader_orders_records (lines : list str) :
  let recs := read_labeled_loghub_lines lines in
  let parsed := omap parse_line lines in
  map Pipeline.log_id recs = map Z.of_nat (seq 0 (length recs)) /\
  StronglySorted Z.le (map Pipeline.ts_sec recs) /\
  Permutation (map content recs) (map content parsed) /\
  (forall t, List.filter (fun c : Z * str * Z => c.1.1 =? t) (map content recs)
             = List.filter (fun c : Z * str * Z => c.1.1 =? t) (map content parsed)) /\
  List.Forall (fun r => true_label r = 0 \/ true_label r = 1) recs.
Proof.
  cbv zeta. unfold read_labeled_loghub_lines.
  set (parsed := omap parse_line lines).
  split; [|split; [|split; [|split]]].
  - rewrite number_from_ids, number_from_length. apply map_ext. intros k. lia.
  - rewrite number_from_ts. apply sorted_map_ts, sort_records_sorted.
  - rewrite number_from_content. apply Permutation_map.
    unfold sort_records. apply sort_by_perm.
  - intros t. rewrite number_from_content, !filter_map_content.
    rewrite sort_records_stable. reflexivity.
  - assert (Hp : List.Forall (fun c : Z * str * Z => c.2 = 0 \/ c.2 = 1)
                   (map content parsed)).
    { apply List.Forall_forall. intros c Hc.
      apply in_map_iff in Hc as (r & <- & Hr).
      apply list_elem_of_In, list_elem_of_omap in Hr as (line & _ & Hl).
      apply (parse_line_label line r Hl). }
    assert (Hq : List.Forall (fun c : Z * str * Z => c.2 = 0 \/ c.2 = 1)
                   (map content (number_from 0 (sort_records parsed)))).
    { rewrite number_from_content. rewrite List.Forall_forall in *.
      intros c Hc. apply Hp. apply in_map_iff in Hc as (r & <- & Hr).
      apply in_map. unfold sort_records in Hr. apply sort_by_In in Hr.
      assumption. }
    rewrite List.Forall_forall in *. intros r Hr.
    apply (Hq (content r)). apply in_map. assumption.
Qed.

Lemma find_space_split s pos :
  find_space s = Some pos ->
  s = take pos s ++ " "%char :: drop (pos + 1) s /\
  List.Forall (fun c => is_blank c = false) (take pos s).
Proof.
  revert pos. induction s as [|c s IH]; intros pos; [discriminate|].
  cbn [find_space]. destruct (is_blank c) eqn:Ec.
  - intros [= <-]. cbn. split; [|constructor].
    unfold is_blank in Ec. apply Ascii.eqb_eq in Ec. subst c. reflexivity.
  - destruct (find_space s) as [q|]; [|discriminate]. cbn. intros [= <-].
    destruct (IH q eq_refl) as [H1 H2]. cbn. split.
    + f_equal. exact H1.
    + constructor; assumption.
Qed.

Lemma find_space_None s :
  find_space s = None -> List.Forall (fun c => is_blank c = false) s.
Proof.
  induction s as [|c s IH]; [constructor|]. cbn [find_space].
  destruct (is_blank c) eqn:Ec; [discriminate|].
  destruct (find_space s); [discriminate|]. intros _. constructor; auto.
Qed.

(** X21.  A line gives a record exactly when, once stripped, it has a
    space.  The stripped line is then the label, a space and the message
    of the record: the label has no space, the message keeps the field of
    the timestamp and all that follows, and the record is normal (0)
    exactly when the label is [-]. *)
Theorem parse_line_splits (line : str) :
  match parse_line line with
  | Some r =>
      exists label,
        strip line = label ++ lit " " ++ Pipeline.message r /\
        List.Forall (fun c => c <> " "%char) label /\
        (true_label r = 0 <-> label = lit "-") /\
        (true_label r = 0 \/ true_label r = 1) /\
        Pipeline.log_id r = -1
  | None => List.Forall (fun c => c <> " "%char) (strip line)
  end.
Proof.
  assert (Hb : forall l, List.Forall (fun c => is_blank c = false) l ->
                         List.Forall (fun c => c <> " "%char) l).
  { intros l H. rewrite List.Forall_forall in *. intros c Hc ->.
    specialize (H _ Hc). discriminate. }
  unfold parse_line. destruct (strip line) as [|c0 s0] eqn:Es.
  - constructor.
  - cbn [nonempty negb]. destruct (find_space (c0 :: s0)) as [pos|] eqn:Ef.
    + destruct (find_space_split _ _ Ef) as [H1 H2].
      exists (take pos (c0 :: s0)). cbn [Pipeline.message true_label Pipeline.log_id].
      split; [exact H1|]. split; [apply Hb; exact H2|].
      case_bool_decide as Hl.
      * split; [tauto|]. split; [auto|reflexivity].
      * split; [split; [discriminate|contradiction]|]. split; [auto|reflexivity].
    + apply Hb, find_space_None. assumption.
Qed.

End DataFacts.

(* ===================================================================== *)
(** * Properties of recall/pipeline.py and recall/data.py *)
(* ===================================================================== *)

Module PipelineFacts.
Import Text Config Float PyList Trigger EntityExtraction Graph Pipeline.
Import ChainFacts ResidentFacts.





End PipelineFacts.

(* ===================================================================== *)
(** * A run of the pipeline on the records of the loader *)
(* ===================================================================== *)

Module RunFacts.
Import Text Config Float PyList Trigger EntityExtraction Graph Pipeline Data.
Import ChainFacts ResidentFacts WindowFacts PipelineFacts DataFacts.









End RunFacts.

(* ===================================================================== *)
(** * More on recall/packaging.py *)
(* ===================================================================== *)

Module PackagingMore.
Import Text Config Float PyList EntityExtraction Graph Packaging FloatFacts PyListFacts.

(** The identifiers [prefix1], [prefix2], ..., [prefixn]. *)
Definition numbered (prefix : string) (n : nat) : list str :=
  map (fun k => local_id prefix (Z.of_nat k + 1)) (seq 0 n).

Lemma numbered_S prefix n :
  numbered prefix (S n) = numbered prefix n ++ [local_id prefix (Z.of_nat n + 1)].
Proof. unfold numbered. rewrite seq_S, map_app. reflexivity. Qed.

Lemma fold_left_keeps_in {A B : Type} (P : A -> Prop) (f : A -> B -> A) (l : list B) :
  (forall a x, In x l -> P a -> P (f a x)) ->
  forall a, P a -> P (fold_left f l a).
Proof.
  induction l as [|x l IH]; intros Hf a Ha; [exact Ha|].
  cbn [fold_left]. apply IH.
  - intros a' y Hy. apply Hf. right. assumption.
  - apply Hf; [left; reflexivity|assumption].
Qed.

(** ** Edges *)

Section Edges.
Variable cfg : RecallConfig.
Variable g : DynamicLogEntityGraph.
Variable ids : gmap Z str.
Variable eids : gmap str str.
Variable now_ts : Z.
Variable ordered : list Z.

(** What an edge of the pack says. *)
Definition edge_wf (e : Edge) : Prop :=
  (edge_type e = lit "struct" /\
   exists lid en,
     In lid ordered /\ en ∈ get_entities_for_log g lid /\
     source e = at_key ids lid /\ eids !! en = Some (target e) /\
     (theta_w cfg <= structural_edge_weight g lid en now_ts)%R /\
     weight e = round6 (structural_edge_weight g lid en now_ts)) \/
  (edge_type e = lit "time" /\
   exists lid ln nxt,
     In lid ordered /\ get_log g lid = Some ln /\ next_log_id ln = Some nxt /\
     In nxt ordered /\
     source e = at_key ids lid /\ target e = at_key ids nxt /\
     (theta_w cfg <= temporal_edge_weight g lid nxt now_ts)%R /\
     weight e = round6 (temporal_edge_weight g lid nxt now_ts)).

Definition acc_ok (acc : EdgeAcc) : Prop :=
  acc.2 = Z.of_nat (length acc.1) + 1 /\
  map edge_id acc.1 = numbered "R" (length acc.1) /\
  List.Forall edge_wf acc.1.

Lemma emit_ok kind src dst w acc :
  acc_ok acc ->
  edge_wf (mkEdge (local_id "R" acc.2) (lit kind) src dst (round6 w)) ->
  acc_ok (emit kind src dst w acc).
Proof.
  intros (H1 & H2 & H3) Hwf. unfold acc_ok, emit. cbn [fst snd].
  rewrite length_app, Nat.add_1_r, map_app, numbered_S, H2. cbn [length map edge_id].
  split; [lia|]. split; [rewrite H1; reflexivity|].
  apply Forall_app. split; [assumption|]. constructor; [assumption|constructor].
Qed.

Lemma Rltb_false_le x y : Rltb x y = false -> (y <= x)%R.
Proof.
  intros H. destruct (Rlt_dec x y) as [Hlt|Hge]; [|lra].
  apply Rltb_true in Hlt. congruence.
Qed.

Lemma struct_edge_ok lid acc e :
  In lid ordered -> e ∈ get_entities_for_log g lid ->
  acc_ok acc -> acc_ok (struct_edge cfg g ids eids now_ts lid acc e).
Proof.
  intros Hlid He Hacc. unfold struct_edge.
  destruct (eids !! e) as [eid|] eqn:Heid; [|assumption].
  destruct (Rltb _ _) eqn:Hw; [assumption|]. apply Rltb_false_le in Hw.
  apply emit_ok; [assumption|]. left. split; [reflexivity|].
  exists lid, e. cbn [source target weight]. auto 10.
Qed.

Lemma time_edge_ok acc lid :
  In lid ordered ->
  acc_ok acc ->
  acc_ok (time_edge cfg g ids (list_to_set ordered) now_ts acc lid).
Proof.
  intros Hlid Hacc. unfold time_edge.
  destruct (get_log g lid) as [ln|] eqn:Hln; [|assumption].
  destruct (next_log_id ln) as [nxt|] eqn:Hn; [|assumption].
  case_bool_decide as Hsel; [|assumption].
  destruct (Rltb _ _) eqn:Hw; [assumption|]. apply Rltb_false_le in Hw.
  apply emit_ok; [assumption|]. right. split; [reflexivity|].
  exists lid, ln, nxt. cbn [source target weight].
  apply elem_of_list_to_set, list_elem_of_In in Hsel. auto 10.
Qed.

Lemma pack_edges_ok :
  acc_ok (time_edges cfg g ids now_ts ordered
            (struct_edges cfg g ids eids now_ts ordered ([], 1))).
Proof.
  unfold time_edges, struct_edges.
  apply fold_left_keeps_in; [intros a x Hx; apply time_edge_ok; assumption|].
  apply fold_left_keeps_in.
  - intros a lid Hlid Ha. apply fold_left_keeps_in; [|assumption].
    intros a' e He. apply struct_edge_ok; [assumption|].
    unfold sorted_strs in He. apply sort_by_In in He.
    apply list_elem_of_In, elem_of_elements in He. assumption.
  - unfold acc_ok. cbn. split; [reflexivity|]. split; [reflexivity|constructor].
Qed.

End Edges.

(** X24.  The edges of a pack are numbered [R1], [R2], ... in the order
    of the list.  A [struct] edge goes from a packed log to an entity of
    its row that has an identifier, a [time] edge from a packed log to
    its [next] when that one is packed too; and the weight, before it is
    rounded, is at least [theta_w]. *)
Theorem pack_edges_numbered
    (cfg : RecallConfig) (g : DynamicLogEntityGraph) (ids : gmap Z str)
    (eids : gmap str str) (now_ts : Z) (ordered : list Z) :
  let es := pack_edges cfg g ids eids now_ts ordered in
  map edge_id es = numbered "R" (length es) /\
  List.Forall (edge_wf cfg g ids eids now_ts ordered) es.
Proof.
  cbv zeta. unfold pack_edges.
  destruct (pack_edges_ok cfg g ids eids now_ts ordered) as (_ & H2 & H3).
  split; assumption.
Qed.

(** ** Identifiers of logs *)

Lemma log_ids_fold (l : list Retrieval.EvidenceItem) :
  forall i (m : gmap Z str),
    let m' := fold_left
                (fun m p => <[Retrieval.log_id p.2 := local_id "L" p.1]> m)
                (enumerate i l) m in
    (forall k, ~ In k (map Retrieval.log_id l) -> m' !! k = m !! k) /\
    (forall k, is_Some (m' !! k)
               <-> is_Some (m !! k) \/ In k (map Retrieval.log_id l)) /\
    (List.NoDup (map Retrieval.log_id l) ->
     forall j it, l !! j = Some it ->
       m' !! Retrieval.log_id it = Some (local_id "L" (i + Z.of_nat j))).
Proof.
  induction l as [|it0 l IH]; intros i m; cbv zeta; cbn [enumerate fold_left map].
  - split; [auto|]. split; [intros k; split; [auto|intros [H|[]]; exact H]|].
    intros _ j it H.
    rewrite lookup_nil in H. discriminate.
  - cbn [fst snd].
    destruct (IH (i + 1) (<[Retrieval.log_id it0 := local_id "L" i]> m))
      as (H1 & H2 & H3). cbv zeta in H1, H2, H3.
    split; [|split].
    + intros k Hk. rewrite H1 by (intros H; apply Hk; right; exact H).
      apply lookup_insert_ne. intros H. apply Hk. left. exact H.
    + intros k. rewrite H2. destruct (decide (Retrieval.log_id it0 = k)) as [->|Hne].
      * rewrite lookup_insert_eq. split.
        -- intros _. right. left. reflexivity.
        -- intros _. left. eexists. reflexivity.
      * rewrite lookup_insert_ne by assumption. split.
        -- intros [H|H]; [left; exact H|right; right; exact H].
        -- intros [H|[H|H]]; [left; exact H|contradiction|right; exact H].
    + intros Hnd j it Hj. apply List.NoDup_cons_iff in Hnd as [Hnot Hnd].
      destruct j as [|j]; cbn in Hj.
      * injection Hj as <-. rewrite H1 by assumption.
        rewrite lookup_insert_eq. f_equal. f_equal. lia.
      * rewrite (H3 Hnd j it Hj). f_equal. f_equal. lia.
Qed.

Lemma log_ids_dom (target : Z) (evidence : list Retrieval.EvidenceItem) k :
  is_Some (log_ids target evidence !! k)
  <-> k = target \/ In k (map Retrieval.log_id evidence).
Proof.
  unfold log_ids.
  destruct (log_ids_fold evidence 1 {[target := lit "L0"]}) as (_ & H2 & _).
  cbv zeta in H2. rewrite H2. destruct (decide (target = k)) as [->|Hne].
  - rewrite lookup_singleton_eq. split.
    + intros _. left. reflexivity.
    + intros _. left. eexists. reflexivity.
  - rewrite lookup_singleton_ne by assumption. split.
    + intros [[? [=]]|H]. right. exact H.
    + intros [->|H]; [contradiction|right; exact H].
Qed.

(** X25.  [id_map_logs] has an entry for the target and for every
    evidence item, and for nothing else.  When the target and the items
    are distinct logs, the target is [L0] and the item at the index [j]
    is [L(j+1)]. *)
Theorem log_ids_numbered (target : Z) (evidence : list Retrieval.EvidenceItem) :
  (forall k, is_Some (log_ids target evidence !! k)
             <-> k = target \/ In k (map Retrieval.log_id evidence)) /\
  (List.NoDup (target :: map Retrieval.log_id evidence) ->
   log_ids target evidence !! target = Some (lit "L0") /\
   forall j it, evidence !! j = Some it ->
     log_ids target evidence !! Retrieval.log_id it
     = Some (local_id "L" (Z.of_nat j + 1))).
Proof.
  split; [apply log_ids_dom|]. unfold log_ids.
  destruct (log_ids_fold evidence 1 {[target := lit "L0"]}) as (H1 & _ & H3).
  cbv zeta in H1, H3.
  intros Hnd. apply List.NoDup_cons_iff in Hnd as [Hnot Hnd]. split.
  - rewrite H1 by assumption. apply lookup_singleton_eq.
  - intros j it Hj. rewrite (H3 Hnd j it Hj). f_equal. f_equal. lia.
Qed.

Definition sample_item (lid : Z) : Retrieval.EvidenceItem :=
  Retrieval.mkItem lid 0 [] 0 1 0 0 ∅ [] None.

Lemma log_ids_numbered_witness :
  log_ids 1 [sample_item 5; sample_item 9] !! 9 = Some (local_id "L" 2).
Proof.
  refine (proj2 (proj2 (log_ids_numbered 1 [sample_item 5; sample_item 9]) _)
            1%nat (sample_item 9) eq_refl).
  cbn. repeat constructor; cbn; intuition lia.
Defined.

(** ** Identifiers of entities *)

Lemma enumerate_snd {A : Type} i (l : list A) : map snd (enumerate i l) = l.
Proof.
  revert i. induction l as [|x l IH]; intros i; [reflexivity|].
  cbn [enumerate map snd]. rewrite IH. reflexivity.
Qed.

Lemma enumerate_fst {A : Type} i (l : list A) :
  map fst (enumerate i l) = map (fun k => Z.of_nat k + i) (seq 0 (length l)).
Proof.
  revert i. induction l as [|x l IH]; intros i; [reflexivity|].
  cbn [enumerate map fst length seq]. f_equal.
  rewrite IH, <- seq_shift, map_map. apply map_ext. intros k. lia.
Qed.

Lemma entity_ids_keys S : map fst (entity_ids S) = sorted_strs S.
Proof. unfold entity_ids. rewrite map_map. apply enumerate_snd. Qed.

Lemma entity_ids_values S :
  map snd (entity_ids S) = numbered "E" (length (entity_ids S)).
Proof.
  unfold entity_ids, numbered. rewrite length_map, map_map. cbn [snd].
  rewrite <- (map_map fst (local_id "E")), enumerate_fst, map_map.
  rewrite <- (length_map fst), enumerate_fst, length_map, length_seq.
  reflexivity.
Qed.

Lemma sorted_strs_In S e : In e (sorted_strs S) <-> e ∈ S.
Proof.
  unfold sorted_strs. rewrite sort_by_In, <- list_elem_of_In.
  apply elem_of_elements.
Qed.

Lemma sorted_strs_NoDup S : NoDup (sorted_strs S).
Proof.
  apply NoDup_ListNoDup.
  eapply Permutation_NoDup; [symmetry; apply sort_by_perm|].
  apply NoDup_ListNoDup, NoDup_elements.
Qed.

Lemma entity_ids_lookup S e id :
  (list_to_map (entity_ids S) : gmap str str) !! e = Some id
  <-> In (e, id) (entity_ids S).
Proof.
  rewrite <- list_elem_of_In. symmetry. apply elem_of_list_to_map.
  change ((entity_ids S).*1) with (map fst (entity_ids S)).
  rewrite entity_ids_keys. apply sorted_strs_NoDup.
Qed.

Lemma entity_ids_dom S e :
  is_Some ((list_to_map (entity_ids S) : gmap str str) !! e) <-> e ∈ S.
Proof.
  rewrite <- sorted_strs_In, <- entity_ids_keys. split.
  - intros [id H]. apply entity_ids_lookup in H.
    apply in_map_iff. exists (e, id). auto.
  - intros H. apply in_map_iff in H as ([e' id] & He & H). cbn in He. subst e'.
    exists id. apply entity_ids_lookup. assumption.
Qed.

Lemma fold_union_elem (g : DynamicLogEntityGraph) (l : list Z) e :
  forall s : gset str,
    e ∈ fold_left (fun s lid => get_entities_for_log g lid ∪ s) l s
    <-> e ∈ s \/ exists lid, In lid l /\ e ∈ get_entities_for_log g lid.
Proof.
  induction l as [|x l IH]; intros s; cbn [fold_left].
  - split; [auto|]. intros [H|(lid & [] & _)]. exact H.
  - rewrite IH, elem_of_union. split.
    + intros [[H|H]|(lid & Hl & H)].
      * right. exists x. split; [left; reflexivity|exact H].
      * left. exact H.
      * right. exists lid. split; [right; exact Hl|exact H].
    + intros [H|(lid & [<-|Hl] & H)].
      * left. right. exact H.
      * left. left. exact H.
      * right. exists lid. auto.
Qed.

Lemma pack_entities_elem g (ids : gmap Z str) e :
  e ∈ pack_entities g ids
  <-> exists lid, is_Some (ids !! lid) /\ e ∈ get_entities_for_log g lid.
Proof.
  unfold pack_entities. rewrite fold_union_elem. split.
  - intros [H|(lid & Hl & H)]; [apply elem_of_empty in H; destruct H|].
    exists lid. split; [|exact H].
    apply list_elem_of_In, elem_of_elements, elem_of_dom in Hl. exact Hl.
  - intros (lid & Hl & H). right. exists lid. split; [|exact H].
    apply list_elem_of_In, elem_of_elements, elem_of_dom. exact Hl.
Qed.

(** The identifiers of the entity nodes, in the order of the nodes. *)
Definition entity_node_ids (ns : list Node) : list str :=
  omap (fun n => match n with
                 | EntityN id _ _ => Some id
                 | LogN _ _ _ => None
                 end) ns.

Lemma log_nodes_no_entity g ids l : entity_node_ids (log_nodes g ids l) = [].
Proof.
  unfold entity_node_ids, log_nodes. induction l as [|lid l IH]; [reflexivity|].
  cbn [omap list_omap]. destruct (get_log g lid); [|exact IH]. exact IH.
Qed.

Lemma entity_nodes_ids elist : entity_node_ids (entity_nodes elist) = map snd elist.
Proof.
  unfold entity_node_ids, entity_nodes.
  induction elist as [|p l IH]; [reflexivity|].
  cbn [map omap list_omap]. cbn in IH. rewrite IH. reflexivity.
Qed.

(** X26.  In a pack an entity has an identifier exactly when it is in the
    row of the target or of an evidence item, and exactly then it has a
    node, with that identifier and its value; the entity nodes are
    numbered [E1], [E2], ... in the order of the list. *)
Theorem packed_entities_get_ids
    (cfg : RecallConfig) (g : DynamicLogEntityGraph) (target : Z)
    (evidence : list Retrieval.EvidenceItem) :
  match build_evidence_pack cfg g target evidence with
  | Some pack =>
      (forall e, is_Some (id_map_entities pack !! e)
                 <-> exists lid,
                       (lid = target \/ In lid (map Retrieval.log_id evidence)) /\
                       e ∈ get_entities_for_log g lid) /\
      (forall e id, id_map_entities pack !! e = Some id
                    <-> In (EntityN id (classify_entity_type e) e)
                          (nodes (graphpack pack))) /\
      let eids := entity_node_ids (nodes (graphpack pack)) in
      eids = numbered "E" (length eids)
  | None => get_log g target = None
  end.
Proof.
  unfold build_evidence_pack. destruct (get_log g target) as [tgt|]; [|reflexivity].
  cbn [id_map_entities graphpack nodes].
  set (ids := log_ids target evidence).
  set (S := pack_entities g ids).
  split; [|split].
  - intros e. rewrite entity_ids_dom. unfold S. rewrite pack_entities_elem.
    split; intros (lid & Hl & H); exists lid; (split; [|exact H]);
      apply log_ids_dom; exact Hl.
  - intros e id. rewrite entity_ids_lookup. split.
    + intros H. apply in_or_app. right. unfold entity_nodes.
      apply in_map_iff. exists (e, id). auto.
    + intros H. apply in_app_or in H as [H|H].
      * exfalso. unfold log_nodes in H.
        apply list_elem_of_In, list_elem_of_omap in H as (lid & _ & H).
        destruct (get_log g lid); discriminate.
      * unfold entity_nodes in H. apply in_map_iff in H as ([e' id'] & He & H).
        cbn in He. injection He as Hid _ Hv. subst e' id'. exact H.
  - cbv zeta. unfold entity_node_ids. rewrite omap_app.
    fold (entity_node_ids (log_nodes g ids (target :: map Retrieval.log_id evidence))).
    fold (entity_node_ids (entity_nodes (entity_ids S))).
    rewrite log_nodes_no_entity, entity_nodes_ids. cbn [app].
    rewrite entity_ids_values. unfold numbered.
    rewrite length_map, length_seq. reflexivity.
Qed.

End PackagingMore.

(* ===================================================================== *)
(** * More on recall/retrieval.py *)
(* ===================================================================== *)

Module RetrievalMore.
Import Text Config Float PyList Graph FloatFacts PyListFacts.
Import Retrieval RetrievalFacts.

(** ** The structural candidates *)

Section Struct.
Variable cfg : RecallConfig.
Variable g : DynamicLogEntityGraph.
Variable target : Z.

(** The tables after the pairs that [P] describes have been visited. *)
Definition tables_ok (t : StructTables) (P : str -> Z -> Prop) : Prop :=
  (forall lid d, t.1 !! lid = Some d -> d = 2) /\
  (forall lid, is_Some (t.1 !! lid) <-> lid <> target /\ exists e, P e lid) /\
  (forall lid e, e ∈ default ∅ (t.2 !! lid) <-> lid <> target /\ P e lid).

Lemma tables_ok_ext t (P Q : str -> Z -> Prop) :
  tables_ok t P -> (forall e l, P e l <-> Q e l) -> tables_ok t Q.
Proof.
  intros (H1 & H2 & H3) H. split; [assumption|]. split.
  - intros lid. rewrite H2. split; intros [Hn [e He]]; (split; [assumption|]);
      exists e; apply H; assumption.
  - intros lid e. rewrite H3, H. reflexivity.
Qed.

Lemma min_dist_two (o : option Z) :
  (forall d, o = Some d -> d = 2) -> _min_dist o (Some 2) = 2.
Proof.
  intros H. destruct o as [d|]; [|reflexivity]. cbn. rewrite (H d eq_refl).
  reflexivity.
Qed.

Lemma struct_visit_ok e t lid P :
  tables_ok t P ->
  tables_ok (struct_visit target e t lid)
    (fun e' l' => P e' l' \/ (e' = e /\ l' = lid)).
Proof.
  intros (H1 & H2 & H3). unfold struct_visit.
  destruct (lid =? target) eqn:E.
  - apply Z.eqb_eq in E. subst lid. split; [assumption|]. split.
    + intros l. rewrite H2. split.
      * intros [Hn [e' He']]. split; [assumption|]. exists e'. auto.
      * intros [Hn [e' [He'|[_ ->]]]]; [|contradiction].
        split; [assumption|]. exists e'. assumption.
    + intros l e'. rewrite H3. split; [tauto|].
      intros [Hn [H|[_ ->]]]; [tauto|contradiction].
  - apply Z.eqb_neq in E. unfold tables_ok. cbn [fst snd]. split; [|split].
    + intros l d. destruct (decide (lid = l)) as [<-|Hne].
      * rewrite lookup_insert_eq. intros [= <-]. apply min_dist_two, H1.
      * rewrite lookup_insert_ne by assumption. apply H1.
    + intros l. destruct (decide (lid = l)) as [<-|Hne].
      * rewrite lookup_insert_eq. split.
        -- intros _. split; [assumption|]. exists e. auto.
        -- intros _. eexists. reflexivity.
      * rewrite lookup_insert_ne by assumption. rewrite H2. split.
        -- intros [Hn [e' He']]. split; [assumption|]. exists e'. auto.
        -- intros [Hn [e' [He'|[_ ->]]]]; [|contradiction].
           split; [assumption|]. exists e'. assumption.
    + intros l e'. destruct (decide (lid = l)) as [<-|Hne].
      * rewrite lookup_insert_eq. cbn [default from_option Datatypes.id].
        rewrite elem_of_union, elem_of_singleton, H3. split.
        -- intros [->|[Hn H]]; auto.
        -- intros [Hn [H|[-> _]]]; auto.
      * rewrite lookup_insert_ne by assumption. rewrite H3. split; [tauto|].
        intros [Hn [H|[_ ->]]]; [tauto|contradiction].
Qed.

Lemma struct_visits_ok e l :
  forall t P,
    tables_ok t P ->
    tables_ok (fold_left (struct_visit target e) l t)
      (fun e' l' => P e' l' \/ (e' = e /\ In l' l)).
Proof.
  induction l as [|lid l IH]; intros t P H; cbn [fold_left].
  - eapply tables_ok_ext; [exact H|]. intros e' l'. cbn. tauto.
  - eapply tables_ok_ext; [apply IH, struct_visit_ok, H|].
    intros e' l'. cbn. split.
    + intros [[H'|[-> ->]]|[-> Hin]]; auto.
    + intros [H'|[-> [<-|Hin]]]; auto.
Qed.

(** The entity [e] gives the candidate [lid]. *)
Definition gives (e : str) (lid : Z) : Prop :=
  entity_degree g e <= degree_threshold_dmax cfg /\
  In lid (get_logs_for_entity g e).

Lemma struct_entity_ok t e P :
  tables_ok t P ->
  tables_ok (struct_entity cfg g target t e)
    (fun e' l' => P e' l' \/ (e' = e /\ gives e' l')).
Proof.
  intros H. unfold struct_entity, gives.
  destruct (_ <? _) eqn:E.
  - apply Z.ltb_lt in E. eapply tables_ok_ext; [exact H|].
    intros e' l'. split; [auto|]. intros [H'|[-> [Hd _]]]; [assumption|lia].
  - apply Z.ltb_ge in E. eapply tables_ok_ext; [apply struct_visits_ok, H|].
    intros e' l'. cbn beta. split.
    + intros [H'|[-> Hin]]; auto.
    + intros [H'|[-> [_ Hin]]]; auto.
Qed.

Lemma struct_entities_ok es :
  forall t P,
    tables_ok t P ->
    tables_ok (fold_left (struct_entity cfg g target) es t)
      (fun e' l' => P e' l' \/ (In e' es /\ gives e' l')).
Proof.
  induction es as [|e es IH]; intros t P H; cbn [fold_left].
  - eapply tables_ok_ext; [exact H|]. intros e' l'. cbn. tauto.
  - eapply tables_ok_ext; [apply IH, struct_entity_ok, H|].
    intros e' l'. cbn. split.
    + intros [[H'|[-> Hg]]|[Hin Hg]]; auto.
    + intros [H'|[[<-|Hin] Hg]]; auto.
Qed.

(** The entity [e] links [lid] to the target. *)
Definition struct_related (lid : Z) (e : str) : Prop :=
  lid <> target /\ e ∈ get_entities_for_log g target /\ gives e lid.

Lemma struct_candidates_ok :
  let st := struct_candidates cfg g target in
  (forall lid d, st.1 !! lid = Some d -> d = 2) /\
  (forall lid, is_Some (st.1 !! lid) <-> exists e, struct_related lid e) /\
  (forall lid e, e ∈ default ∅ (st.2 !! lid) <-> struct_related lid e).
Proof.
  cbv zeta. unfold struct_candidates.
  assert (H0 : tables_ok ((∅, ∅) : StructTables) (fun _ _ => False)).
  { split; [|split].
    - intros lid d. cbn. rewrite lookup_empty. discriminate.
    - intros lid. cbn. rewrite lookup_empty. split; [intros [? [=]]|].
      intros [_ [_ []]].
    - intros lid e. cbn. rewrite lookup_empty. cbn. rewrite elem_of_empty. tauto. }
  destruct (struct_entities_ok (elements (get_entities_for_log g target)) _ _ H0)
    as (H1 & H2 & H3).
  assert (Hin : forall e, In e (elements (get_entities_for_log g target))
                          <-> e ∈ get_entities_for_log g target).
  { intros e. rewrite <- list_elem_of_In. apply elem_of_elements. }
  split; [assumption|]. split.
  - intros lid. rewrite H2. unfold struct_related. split.
    + intros [Hn [e [[]|[He Hg]]]]. exists e. rewrite <- Hin. auto.
    + intros [e (Hn & He & Hg)]. split; [assumption|]. exists e. right.
      rewrite Hin. auto.
  - intros lid e. rewrite H3. unfold struct_related. rewrite <- Hin. tauto.
Qed.

(** ** The temporal candidates *)

Definition hops_ok (k : Z) (m : gmap Z Z) : Prop :=
  forall lid d, m !! lid = Some d -> 1 <= d <= k.

Lemma time_walk_ok toward k n :
  forall d cur m,
    1 <= d -> d + Z.of_nat n - 1 <= k ->
    hops_ok k m -> hops_ok k (time_walk g toward n d cur m).
Proof.
  induction n as [|n IH]; intros d cur m Hd Hk Hm; [exact Hm|].
  cbn [time_walk]. destruct (get_log g cur) as [ln|]; [|exact Hm].
  destruct (toward ln) as [nb|]; [|exact Hm].
  apply IH; [lia|lia|].
  intros lid v. destruct (decide (nb = lid)) as [<-|Hne].
  - rewrite lookup_insert_eq. intros [= <-].
    destruct (m !! nb) as [v0|] eqn:E; cbn.
    + specialize (Hm nb v0 E). lia.
    + lia.
  - rewrite lookup_insert_ne by assumption. apply Hm.
Qed.

Lemma time_candidates_ok : hops_ok (temporal_k cfg) (time_candidates cfg g target).
Proof.
  unfold time_candidates.
  destruct (Z_le_gt_dec (temporal_k cfg) 0) as [Hk|Hk].
  - replace (Z.to_nat (temporal_k cfg)) with O by lia. cbn [time_walk].
    intros lid d. rewrite lookup_empty. discriminate.
  - apply time_walk_ok; [lia|lia|]. apply time_walk_ok; [lia|lia|].
    intros lid d. rewrite lookup_empty. discriminate.
Qed.

(** ** Items *)

(** What an item says about the way its log was found. *)
Definition item_grounded (it : EvidenceItem) : Prop :=
  (lit "struct" ∈ paths it \/ lit "time" ∈ paths it) /\
  (lit "struct" ∈ paths it <-> exists e, struct_related (log_id it) e) /\
  (forall e, In e (shared_entities it) <-> struct_related (log_id it) e) /\
  (lit "struct" ∈ paths it -> dist it <= 2) /\
  (lit "time" ∈ paths it <-> is_Some (time_offset it)) /\
  (lit "time" ∈ paths it -> 1 <= dist it <= temporal_k cfg) /\
  (forall off, time_offset it = Some off ->
     exists tgt, get_log g target = Some tgt /\ off = ts_sec it - Graph.ts_sec tgt).

Lemma make_item_grounded tgt lid ln :
  get_log g target = Some tgt ->
  lid ∈ candidate_ids cfg g target ->
  item_grounded
    (make_item cfg g target tgt (struct_candidates cfg g target)
       (time_candidates cfg g target) lid ln).
Proof.
  intros Htgt Hcand.
  destruct struct_candidates_ok as (S1 & S2 & S3).
  pose proof time_candidates_ok as T1.
  set (st := struct_candidates cfg g target) in *.
  set (tm := time_candidates cfg g target) in *.
  assert (Hpaths : forall s t : bool,
    (lit "struct" ∈ ((if s then {[lit "struct"]} else ∅) ∪
                     (if t then {[lit "time"]} else ∅) : gset str) <-> s = true) /\
    (lit "time" ∈ ((if s then {[lit "struct"]} else ∅) ∪
                   (if t then {[lit "time"]} else ∅) : gset str) <-> t = true)).
  { intros s t. rewrite !elem_of_union.
    destruct s, t; rewrite ?elem_of_singleton, ?elem_of_empty;
      split; split; intros H; try reflexivity; try discriminate; auto;
      destruct H as [H|H]; try discriminate H; try contradiction. }
  unfold candidate_ids in Hcand. fold st tm in Hcand.
  apply elem_of_union in Hcand. rewrite !elem_of_dom in Hcand.
  unfold item_grounded, make_item.
  cbn [paths log_id shared_entities dist time_offset ts_sec].
  destruct (Hpaths (bool_decide (is_Some (st.1 !! lid)))
                   (bool_decide (is_Some (tm !! lid)))) as [Hs Ht].
  rewrite Hs, Ht, !bool_decide_eq_true. clear Hs Ht Hpaths.
  split; [exact Hcand|]. split; [apply S2|]. split.
  - intros e. unfold sorted_strs. rewrite sort_by_In, <- list_elem_of_In.
    rewrite elem_of_elements. apply S3.
  - split; [|split; [|split]].
    + intros [d Hd]. rewrite Hd. rewrite (S1 lid d Hd).
      destruct (tm !! lid) as [d'|] eqn:E; cbn; [|lia].
      specialize (T1 lid d' E). lia.
    + case_bool_decide as H; split; try tauto.
      * intros _. eexists. reflexivity.
      * intros [? [=]].
    + intros [d Hd]. rewrite Hd. specialize (T1 lid d Hd).
      destruct (st.1 !! lid) as [d'|]; cbn; lia.
    + intros off Hoff. case_bool_decide; [|discriminate].
      injection Hoff as <-. exists tgt. auto.
Qed.

Lemma unsorted_items_grounded tgt :
  get_log g target = Some tgt ->
  List.Forall item_grounded (unsorted_items cfg g target tgt).
Proof.
  intros Htgt. apply List.Forall_forall. intros it Hin.
  unfold unsorted_items in Hin.
  apply list_elem_of_In, list_elem_of_omap in Hin as (lid & Hlid & Hit).
  destruct (get_log g lid) as [ln|] eqn:Hg; [|discriminate].
  injection Hit as <-. apply make_item_grounded; [assumption|].
  apply elem_of_elements, elem_of_dedup_ids in Hlid as [key Hkey].
  destruct (dedup_table_ok cfg g (elements (candidate_ids cfg g target))) as [H1 _].
  destruct (H1 _ _ Hkey) as (Hin & _).
  apply elem_of_elements, list_elem_of_In. assumption.
Qed.

End Struct.

Lemma retrieved_grounded cfg g target :
  List.Forall (item_grounded cfg g target) (dual_path_retrieve cfg g target).
Proof.
  unfold dual_path_retrieve. destruct (get_log g target) as [tgt|] eqn:Htgt;
    [|constructor].
  destruct (slice_to_take (evidence_budget_nmax cfg)
              (sort_items (unsorted_items cfg g target tgt))) as [k ->].
  apply List.Forall_forall. intros it Hit.
  apply take_In in Hit. apply sort_by_In in Hit.
  pose proof (unsorted_items_grounded cfg g target tgt Htgt) as H.
  rewrite List.Forall_forall in H. auto.
Qed.

(** X27.  Every item that [dual_path_retrieve] returns says how its log
    was found.  It has the path [struct] exactly when its log is not the
    target and is in the deque of an entity of the target whose degree is
    at most [degree_threshold_dmax]; [shared_entities] lists these
    entities, and the distance is then at most 2.  It has the path [time]
    exactly when it has a [time_offset], which is its timestamp less the
    timestamp of the target, and the distance is then between 1 and
    [temporal_k].  It has at least one of the two paths. *)
Theorem evidence_is_grounded
    (cfg : RecallConfig) (g : DynamicLogEntityGraph) (target : Z) :
  List.Forall
    (fun it =>
       (lit "struct" ∈ paths it \/ lit "time" ∈ paths it) /\
       (lit "struct" ∈ paths it
        <-> exists e, struct_related cfg g target (log_id it) e) /\
       (forall e, In e (shared_entities it)
                  <-> struct_related cfg g target (log_id it) e) /\
       (lit "struct" ∈ paths it -> dist it <= 2) /\
       (lit "time" ∈ paths it <-> is_Some (time_offset it)) /\
       (lit "time" ∈ paths it -> 1 <= dist it <= temporal_k cfg) /\
       (forall off, time_offset it = Some off ->
          exists tgt, get_log g target = Some tgt /\
                      off = ts_sec it - Graph.ts_sec tgt))
    (dual_path_retrieve cfg g target).
Proof. apply retrieved_grounded. Qed.

(** X28.  With [temporal_k <= 0] and [degree_threshold_dmax <= 0] both
    paths are closed, and [dual_path_retrieve] returns no evidence. *)
Theorem retrieval_with_closed_paths
    (cfg : RecallConfig) (g : DynamicLogEntityGraph) (target : Z) :
  temporal_k cfg <= 0 -> degree_threshold_dmax cfg <= 0 ->
  dual_path_retrieve cfg g target = [].
Proof.
  intros Hk Hd. pose proof (retrieved_grounded cfg g target) as H.
  destruct (dual_path_retrieve cfg g target) as [|it l]; [reflexivity|].
  exfalso. apply List.Forall_inv in H.
  destruct H as (Hp & Hs & _ & _ & _ & Ht & _).
  destruct Hp as [Hp|Hp].
  - apply Hs in Hp as (e & _ & _ & Hdeg & Hin). unfold entity_degree in Hdeg.
    destruct (get_logs_for_entity g e); [destruct Hin|]. cbn [length] in Hdeg. lia.
  - specialize (Ht Hp). lia.
Qed.

(** The defaults with both paths closed. *)
Definition closed_config : RecallConfig := {|
  theta_tc := theta_tc default_config;
  theta_rf := theta_rf default_config;
  delta_t_sec := delta_t_sec default_config;
  min_token_len := min_token_len default_config;
  graph_window_t_sec := graph_window_t_sec default_config;
  decay_lambda := decay_lambda default_config;
  theta_w := theta_w default_config;
  activity_beta := activity_beta default_config;
  activity_alpha := activity_alpha default_config;
  activity_epsilon := activity_epsilon default_config;
  temporal_k := 0;
  evidence_budget_nmax := evidence_budget_nmax default_config;
  degree_threshold_dmax := 0;
  score_a := score_a default_config;
  score_b := score_b default_config;
  score_c := score_c default_config;
  dedup_case_insensitive := dedup_case_insensitive default_config;
  enable_severity_trigger := enable_severity_trigger default_config;
  enable_burst_trigger := enable_burst_trigger default_config;
  burst_sigma := burst_sigma default_config;
  burst_window_sec := Config.burst_window_sec default_config;
  burst_ema_alpha := burst_ema_alpha default_config;
  enable_semantic_channel := enable_semantic_channel default_config;
  semantic_trigger_min_entities := semantic_trigger_min_entities default_config;
  trigger_keywords := trigger_keywords default_config;
  severity_keywords_fatal := severity_keywords_fatal default_config;
  severity_keywords_error := severity_keywords_error default_config;
  entity_blacklist_exact := entity_blacklist_exact default_config;
  entity_blacklist_regex := entity_blacklist_regex default_config;
  token_drop_regex := token_drop_regex default_config
|}.

Lemma retrieval_with_closed_paths_witness :
  dual_path_retrieve closed_config (chain_graph closed_config) 2 = [].
Proof.
  apply (retrieval_with_closed_paths closed_config (chain_graph closed_config) 2);
    cbn; lia.
Defined.

End RetrievalMore.
